(** * WebGnome API: the asynchronous stepping engine

    A shallow embedding of [webgnome_api/views/socket_step.py]: the request
    handlers [run_model], [run_export_model] and [get_rewind], the greenlet
    body [execute_async_model] with its uncertainty aggregation, and the
    export cleanup linked to an export run.

    Python values are embedded as a small universe [pyval]; dictionaries are
    insertion-ordered association lists, as [dict.items()] iterates them.
    Exceptions are values of type [exc]; fallible code lives in the monad
    [result], stateful fallible code in [M]. *)

From Stdlib Require Import ZArith Lia Ascii String.
From stdpp Require Import base option list strings gmap.

Set Warnings "-register-all".
Local Open Scope Z_scope.

(* ===================================================================== *)
(** ** Python values                                                      *)
(* ===================================================================== *)

Module Py.

(** Exception classes the code distinguishes.  [GreenletExit] derives from
    [BaseException], every other class here from [Exception]. *)
Inductive exc_class :=
| StopIteration
| GreenletExit
| KeyError
| TypeError
| ValueError
| AttributeError
| IndexError
| OSError
| GnomeRuntimeError
| HTTPNotFound
| HTTPPreconditionFailed
| HTTPUnprocessableEntity
| OtherError (name : string).

(** An exception instance: class, message, and the traceback attached with
    [with_traceback] (its original context). *)
Record exc := Exc {
  exc_cls : exc_class;
  exc_message : string;
  exc_traceback : option string
}.

#[global] Instance exc_class_eq_dec : EqDecision exc_class.
Proof. solve_decision. Defined.

#[global] Instance exc_eq_dec : EqDecision exc.
Proof. solve_decision. Defined.

(** [isinstance(e, Exception)] *)
Definition isinstance_Exception (e : exc) : bool :=
  match exc_cls e with GreenletExit => false | _ => true end.

(** [isinstance(e, StopIteration)] *)
Definition isinstance_StopIteration (e : exc) : bool :=
  match exc_cls e with StopIteration => true | _ => false end.

(** [isinstance(e, GreenletExit)] *)
Definition isinstance_GreenletExit (e : exc) : bool :=
  match exc_cls e with GreenletExit => true | _ => false end.

(** Dictionary keys: the output records use string keys, the aggregated
    weathering block adds the integer worker indices. *)
Inductive key :=
| KStr (s : string)
| KInt (n : nat).

#[global] Instance key_eq_dec : EqDecision key.
Proof. solve_decision. Defined.

Coercion KStr : string >-> key.

Inductive pyval :=
| PNone
| PNum (z : Z)                      (* int, and clock readings in ticks *)
| PStr (s : string)
| PDict (d : list (key * pyval))
| PTuple (items : list pyval)
| PExc (e : exc)
| PTraceback (tb : string)
| PGate.                            (* the session's Event object *)

Abbreviation dict := (list (key * pyval)).

(** Fallible computations: [Raise e] is a raised exception. *)
Inductive result (A : Type) :=
| Ok (a : A)
| Raise (e : exc).
Arguments Ok {A} a.
Arguments Raise {A} e.

#[global] Instance result_ret : MRet result := fun _ a => Ok a.
#[global] Instance result_bind : MBind result := fun _ _ f m =>
  match m with Ok a => f a | Raise e => Raise e end.

Definition raise {A} (c : exc_class) (msg : string) : result A :=
  Raise (Exc c msg None).

(** Stateful code that may raise, over a state [St]: the state survives
    the exception. *)
Definition ST (St A : Type) : Type := St -> result A * St.

#[global] Instance ST_ret St : MRet (ST St) := fun _ a s => (Ok a, s).
#[global] Instance ST_bind St : MBind (ST St) := fun _ _ f m s =>
  match m s with
  | (Ok a, s') => f a s'
  | (Raise e, s') => (Raise e, s')
  end.

Definition py_raise {St A} (e : exc) : ST St A := fun s => (Raise e, s).
Definition lift {St A} (r : result A) : ST St A := fun s => (r, s).
Definition gets {St A} (f : St -> A) : ST St A := fun s => (Ok (f s), s).
Definition modify {St} (f : St -> St) : ST St unit := fun s => (Ok tt, f s).

(** [try: m], with the outcome reified for the [except] clauses. *)
Definition try_ {St A} (m : ST St A) : ST St (result A) := fun s =>
  let '(r, s') := m s in (Ok r, s').

(** [for x in xs: f x] *)
Fixpoint for_each {St A} (f : A -> ST St unit) (xs : list A) : ST St unit :=
  match xs with
  | [] => mret tt
  | x :: xs' => f x;; for_each f xs'
  end.

(** *** Dictionaries *)

Fixpoint dict_get (k : key) (d : dict) : option pyval :=
  match d with
  | [] => None
  | (k', v) :: d' => if decide (k' = k) then Some v else dict_get k d'
  end.

(** [k in d] *)
Definition dict_has (k : key) (d : dict) : bool :=
  match dict_get k d with Some _ => true | None => false end.

(** [d[k] = v]: an existing key keeps its position, a new one goes last. *)
Fixpoint dict_set (k : key) (v : pyval) (d : dict) : dict :=
  match d with
  | [] => [(k, v)]
  | (k', v') :: d' =>
      if decide (k' = k) then (k, v) :: d' else (k', v') :: dict_set k v d'
  end.

Definition dict_keys (d : dict) : list key := d.*1.

(** [bool(v)] *)
Definition truthy (v : pyval) : bool :=
  match v with
  | PNone => false
  | PNum z => negb (z =? 0)
  | PStr s => negb (String.eqb s "")
  | PDict d => match d with [] => false | _ => true end
  | PTuple l => match l with [] => false | _ => true end
  | PExc _ | PTraceback _ => true
  | PGate => true      (* gevent's Event defines neither __bool__ nor __len__ *)
  end.

(** [v[k]] for a string key [k]. *)
Definition getitem (v : pyval) (k : string) : result pyval :=
  match v with
  | PDict d =>
      match dict_get (KStr k) d with
      | Some x => Ok x
      | None => raise KeyError k
      end
  | PTuple _ => raise TypeError "tuple indices must be integers or slices, not str"
  | PStr _ => raise TypeError "string indices must be integers"
  | _ => raise TypeError "object is not subscriptable"
  end.

(** [v.items()] *)
Definition items (v : pyval) : result dict :=
  match v with
  | PDict d => Ok d
  | _ => raise AttributeError "object has no attribute 'items'"
  end.

(** [a < b].  Numbers compare with numbers and strings with strings;
    the blocks the aggregator folds over hold only such scalars. *)
Definition py_lt (a b : pyval) : result bool :=
  match a, b with
  | PNum x, PNum y => Ok (x <? y)
  | PStr s, PStr t => Ok (String.ltb s t)
  | _, _ => raise TypeError "'<' not supported between instances"
  end.

(** The loop of the builtin [min]: keep the first smallest item. *)
Fixpoint min_loop (best : pyval) (rest : list pyval) : result pyval :=
  match rest with
  | [] => Ok best
  | item :: rest' =>
      c ← py_lt item best;
      min_loop (if c : bool then item else best) rest'
  end.

(** The loop of the builtin [max]: [item > best] is [best < item]. *)
Fixpoint max_loop (best : pyval) (rest : list pyval) : result pyval :=
  match rest with
  | [] => Ok best
  | item :: rest' =>
      c ← py_lt best item;
      max_loop (if c : bool then item else best) rest'
  end.

Definition py_min (vs : list pyval) : result pyval :=
  match vs with
  | [] => raise ValueError "min() arg is an empty sequence"
  | x :: xs => min_loop x xs
  end.

Definition py_max (vs : list pyval) : result pyval :=
  match vs with
  | [] => raise ValueError "max() arg is an empty sequence"
  | x :: xs => max_loop x xs
  end.

End Py.

Import Py.

(* ===================================================================== *)
(** ** Ensemble aggregation (the body of the stepping loop's inner [try]) *)
(* ===================================================================== *)

Module Aggregator.

Definition WeatheringOutput : string := "WeatheringOutput".

(** [aggregate = defaultdict(list)]: per key, the values seen so far. *)
Abbreviation aggregate := (list (key * list pyval)).

(** [aggregate[k].append(v)] *)
Fixpoint agg_append (k : key) (v : pyval) (agg : aggregate) : aggregate :=
  match agg with
  | [] => [(k, [v])]
  | (k', vs) :: agg' =>
      if decide (k' = k) then (k', vs ++ [v]) :: agg'
      else (k', vs) :: agg_append k v agg'
  end.

(** [for k, v in block.items(): aggregate[k].append(v)] *)
Definition agg_extend (block : dict) (agg : aggregate) : aggregate :=
  foldl (fun a kv => agg_append kv.1 kv.2 a) agg block.

(** [isinstance(step_output, tuple) and len(step_output) >= 3 and
     isinstance(step_output[1], Exception)] *)
Definition encodes_failure (step_output : pyval) : option (exc * pyval) :=
  match step_output with
  | PTuple (_ :: PExc e :: tb :: _) =>
      if isinstance_Exception e then Some (e, tb) else None
  | _ => None
  end.

(** [e.with_traceback(tb)] *)
Definition with_traceback (e : exc) (tb : pyval) : result exc :=
  match tb with
  | PTraceback t => Ok (Exc (exc_cls e) (exc_message e) (Some t))
  | PNone => Ok (Exc (exc_cls e) (exc_message e) None)
  | _ => raise TypeError "__traceback__ must be a traceback or None"
  end.

(** The first loop over [enumerate(steps)]: surface an encoded failure,
    otherwise collect the fragment's block into [aggregate]. *)
Fixpoint collect (steps : list pyval) (agg : aggregate) : result aggregate :=
  match steps with
  | [] => Ok agg
  | step_output :: rest =>
      match encodes_failure step_output with
      | Some (e, tb) => e' ← with_traceback e tb; Raise e'
      | None =>
          block ← getitem step_output WeatheringOutput;
          kvs ← items block;
          collect rest (agg_extend kvs agg)
      end
  end.

(** [for k, v in aggregate.items(): low[k] = min(v); high[k] = max(v)] *)
Fixpoint low_high (agg : aggregate) (low high : dict) : result (dict * dict) :=
  match agg with
  | [] => Ok (low, high)
  | (k, v) :: agg' =>
      lo ← py_min v;
      hi ← py_max v;
      low_high agg' (dict_set k lo low) (dict_set k hi high)
  end.

(** [for idx, step_output in enumerate(steps):
        full_output[idx] = step_output['WeatheringOutput']] *)
Fixpoint attach_workers (idx : nat) (steps : list pyval) (full_output : dict)
  : result dict :=
  match steps with
  | [] => Ok full_output
  | step_output :: rest =>
      block ← getitem step_output WeatheringOutput;
      attach_workers (S idx) rest (dict_set (KInt idx) block full_output)
  end.

(** [steps and 'WeatheringOutput' in output] *)
Definition workers_present (steps : option (list pyval)) : bool :=
  match steps with Some (_ :: _) => true | _ => false end.

(** Lines 266-310: from [if steps and 'WeatheringOutput' in output] to the
    end of the inner [try] body.  [steps] is what [get_uncertain_steps]
    returned ([None] without uncertainty models); [begin], [begin_uncertain]
    and [end_] are the three clock readings. *)
Definition aggregate_step (steps : option (list pyval)) (output : dict)
    (begin begin_uncertain end_ : Z) : result dict :=
  if workers_present steps && dict_has WeatheringOutput output then
    nominal ← getitem (PDict output) WeatheringOutput;
    agg ← collect (default [] steps) [];
    lh ← low_high agg [] [];
    ts ← getitem nominal "time_stamp";
    let full_output : dict :=
      [(KStr "time_stamp", ts); (KStr "nominal", nominal);
       (KStr "low", PDict lh.1); (KStr "high", PDict lh.2)] in
    full_output ← attach_workers 0 (default [] steps) full_output;
    let output := dict_set WeatheringOutput (PDict full_output) output in
    let output := dict_set "uncertain_response_time"
                    (PNum (end_ - begin_uncertain)) output in
    Ok (dict_set "total_response_time" (PNum (end_ - begin)) output)
  else if dict_has WeatheringOutput output then
    nominal ← getitem (PDict output) WeatheringOutput;
    ts ← getitem nominal "time_stamp";
    let full_output : dict :=
      [(KStr "time_stamp", ts); (KStr "nominal", nominal);
       (KStr "low", PNone); (KStr "high", PNone)] in
    let output := dict_set WeatheringOutput (PDict full_output) output in
    let output := dict_set "uncertain_response_time"
                    (PNum (end_ - begin_uncertain)) output in
    Ok (dict_set "total_response_time" (PNum (end_ - begin)) output)
  else Ok output.

End Aggregator.

Import Aggregator.

(* ===================================================================== *)
(** ** The Step Task: [execute_async_model]                               *)
(* ===================================================================== *)

(** The task is seen from inside: one greenlet, its session, its model, and
    what the other greenlets do whenever it is suspended.  The [develop_mode]
    post-mortem of the [except] clauses is a debugging aid and is taken to be
    off; logging and printing have no effect on the state. *)
Module Task.

(** [socket_namespace.emit(name, data, room=room)] as seen on the channel.
    [ev_data] is [PNone] for an event without payload, [ev_room] is [None]
    when the call passes no [room]. *)
Record event := Event {
  ev_name : string;
  ev_data : pyval;
  ev_room : option string
}.

(** What the other greenlets do while the task is suspended: handlers may
    write session keys, the client may set the Gate [d] time units into the
    suspension, and a kill ([kill(block=False)] from a handler) may be
    delivered. *)
Record env_action := EnvAction {
  ea_writes : list (key * pyval);
  ea_gate_set : option Z;
  ea_kill : bool
}.

Definition idle : env_action := EnvAction [] None false.

(** One call of [active_model.step()]: an output record (and the ticks the
    call took), or a raised exception.  A model whose script is exhausted
    raises [StopIteration]. *)
Inductive step_result :=
| StepOutput (output : dict) (duration : Z)
| StepRaise (e : exc).

(** The parameters of one run. *)
Record config := Config {
  sockid : string;
  has_weathering_uncertainty : bool;   (* active_model.has_weathering_uncertainty *)
  is_async : bool;                     (* socket_namespace.is_async *)
  send_output : bool;
  (** what [uncertain_models.cmd('step', {})] returns once the nominal model
      stands at a given time step, and the ticks it takes *)
  workers : Z -> list pyval;
  workers_duration : Z
}.

Record world := World {
  w_events : list event;        (* emitted so far, oldest first *)
  w_session : dict;             (* the namespace's session of [sockid] *)
  w_gate : bool;                (* flag of the Event in [session['lock']] *)
  w_time_step : Z;              (* active_model.current_time_step *)
  w_uncertain : bool;           (* uncertainty models are established *)
  w_kill_pending : bool;        (* a kill is scheduled for this greenlet *)
  w_env : list env_action;      (* one per suspension still to come *)
  w_now : Z;                    (* time.time(), in ticks *)
  w_copy : dict                 (* the local [sock_session_copy] *)
}.

(** Field updates of [world]. *)
Definition set_events (x : list event) (w : world) : world :=
  World x (w_session w) (w_gate w) (w_time_step w) (w_uncertain w)
    (w_kill_pending w) (w_env w) (w_now w) (w_copy w) .
Definition set_session (x : dict) (w : world) : world :=
  World (w_events w) x (w_gate w) (w_time_step w) (w_uncertain w)
    (w_kill_pending w) (w_env w) (w_now w) (w_copy w) .
Definition set_gate (x : bool) (w : world) : world :=
  World (w_events w) (w_session w) x (w_time_step w) (w_uncertain w)
    (w_kill_pending w) (w_env w) (w_now w) (w_copy w) .
Definition set_time_step (x : Z) (w : world) : world :=
  World (w_events w) (w_session w) (w_gate w) x (w_uncertain w)
    (w_kill_pending w) (w_env w) (w_now w) (w_copy w) .
Definition set_uncertain (x : bool) (w : world) : world :=
  World (w_events w) (w_session w) (w_gate w) (w_time_step w) x
    (w_kill_pending w) (w_env w) (w_now w) (w_copy w) .
Definition set_kill_pending (x : bool) (w : world) : world :=
  World (w_events w) (w_session w) (w_gate w) (w_time_step w) (w_uncertain w)
    x (w_env w) (w_now w) (w_copy w) .
Definition set_env (x : list env_action) (w : world) : world :=
  World (w_events w) (w_session w) (w_gate w) (w_time_step w) (w_uncertain w)
    (w_kill_pending w) x (w_now w) (w_copy w) .
Definition set_now (x : Z) (w : world) : world :=
  World (w_events w) (w_session w) (w_gate w) (w_time_step w) (w_uncertain w)
    (w_kill_pending w) (w_env w) x (w_copy w) .
Definition set_copy (x : dict) (w : world) : world :=
  World (w_events w) (w_session w) (w_gate w) (w_time_step w) (w_uncertain w)
    (w_kill_pending w) (w_env w) (w_now w) x.

Abbreviation M := (ST world).

Definition emit (name : string) (data : pyval) (room : option string) : M unit :=
  modify (fun w => set_events (w_events w ++ [Event name data room]) w).

(** [sock_session[k]] inside [with socket_namespace.session(sockid)]: the
    context manager hands out the stored session itself and stores it back on
    exit, so the block reads and writes [w_session] in place. *)
Definition session_getitem (k : string) : M pyval :=
  sess ← gets w_session; lift (getitem (PDict sess) k).

Definition GreenletExit_ : exc := Exc GreenletExit "" None.

(** A suspension of the greenlet: a kill already scheduled is delivered at
    once; otherwise the other greenlets run ([w_env]) and may deliver one. *)
Definition suspend : M env_action := fun w =>
  if w_kill_pending w then (Raise GreenletExit_, set_kill_pending false w)
  else
    let a := hd idle (w_env w) in
    let w1 := set_session (foldl (fun d kv => dict_set kv.1 kv.2 d)
                                 (w_session w) (ea_writes a))
                (set_env (tl (w_env w)) w) in
    if ea_kill a then (Raise GreenletExit_, w1) else (Ok a, w1).

(** Modelled from the spec: the Gate of section 4.1, whose class lives in
    the namespace module.  [lock.wait(timeout)] returns at once when the flag
    is set; otherwise it suspends the caller until the flag is set or the
    timeout elapses, and returns whether it was set. *)
Definition gate_wait (lock : pyval) (timeout : Z) : M bool :=
  match lock with
  | PGate =>
      flag ← gets w_gate;
      if flag : bool then mret true
      else
        a ← suspend;
        match ea_gate_set a with
        | Some d =>
            if bool_decide (d <= timeout)
            then modify (set_gate true);; mret true
            else mret false
        | None => mret false
        end
  | _ => lift (raise AttributeError "object has no attribute 'wait'")
  end.

(** [lock.clear()] *)
Definition gate_clear (lock : pyval) : M unit :=
  match lock with
  | PGate => modify (set_gate false)
  | _ => lift (raise AttributeError "object has no attribute 'clear'")
  end.

(** [gevent.sleep(0.001)]: always a suspension; the Gate may be set
    meanwhile. *)
Definition sleep : M unit :=
  a ← suspend;
  match ea_gate_set a with
  | Some _ => modify (set_gate true)
  | None => mret tt
  end.

(** Modelled from the spec: [on_model_kill] of the namespace, the registry's
    [kill] of section 4.2.  It requests cancellation without blocking the
    caller; the task observes it at its next suspension point. *)
Definition on_model_kill : M unit :=
  modify (set_kill_pending true).

(** [time.time()] *)
Definition time_time : M Z := gets w_now.

(** Modelled from the spec: [drop_uncertain_models], [set_uncertain_models]
    and [get_uncertain_models] of the session-management module: tear down,
    (re)establish and fetch the session's uncertainty workers. *)
Definition drop_uncertain_models : M unit :=
  modify (set_uncertain false).

Definition set_uncertain_models : M unit :=
  modify (set_uncertain true).

(** [get_uncertain_steps(request)] *)
Definition get_uncertain_steps (cf : config) : M (option (list pyval)) :=
  uncertain_models ← gets w_uncertain;
  if uncertain_models : bool then
    t ← gets w_time_step;
    modify (fun w => set_now (w_now w + workers_duration cf) w);;
    mret (Some (workers cf t))
  else mret None.

(** [active_model.step()] against the next entry of the model's script. *)
Definition model_step (entry : option step_result) : M dict :=
  match entry with
  | Some (StepOutput output dt) =>
      modify (fun w => set_now (w_now w + dt)
                         (set_time_step (w_time_step w + 1) w));;
      mret output
  | Some (StepRaise e) => py_raise e
  | None => py_raise (Exc StopIteration "" None)
  end.

(** The body of the inner [try] (lines 247-310). *)
Definition inner_try (cf : config) (entry : option step_result) : M dict :=
  t ← gets w_time_step;
  (if bool_decide (t = -1) then
     drop_uncertain_models;;
     if has_weathering_uncertainty cf then set_uncertain_models else mret tt
   else mret tt);;
  begin ← time_time;
  output ← model_step entry;
  begin_uncertain ← time_time;
  steps ← get_uncertain_steps cf;
  end_ ← time_time;
  lift (aggregate_step steps output begin begin_uncertain end_).

(** [sock_session_copy['num_sent'] += 1] *)
Definition incr_num_sent : M pyval :=
  copy ← gets w_copy;
  n ← lift (getitem (PDict copy) "num_sent");
  match n with
  | PNum z =>
      modify (set_copy (dict_set "num_sent" (PNum (z + 1)) copy));;
      mret (PNum (z + 1))
  | _ => lift (raise TypeError "unsupported operand type(s) for +=")
  end.

(** One pass through [while True] (lines 245-354).  The result tells
    whether the loop goes on: [false] is the [break] of the [StopIteration]
    clause. *)
Definition iteration (cf : config) (entry : option step_result) : M bool :=
  r ← try_ (inner_try cf entry);
  match r with
  | Raise e =>
      if isinstance_StopIteration e
      then drop_uncertain_models;; mret false      (* break *)
      else py_raise e                              (* logged, then [raise] *)
  | Ok output =>
      num_sent ← incr_num_sent;
      (if truthy (PDict output) && send_output cf
       then emit "step" (PDict output) (Some (sockid cf))
       else emit "step" num_sent None);;
      (if negb (is_async cf)
       then lock ← session_getitem "lock"; gate_clear lock
       else mret tt);;
      (* wait_time = 6000 *)
      lock ← session_getitem "lock";
      _ ← gate_wait lock 6000;
      unlocked ← session_getitem "lock";
      (if negb (truthy unlocked) then
         emit "timeout" (PStr "Model run timed out after 6000 sec")
              (Some (sockid cf));;
         on_model_kill
       else mret tt);;
      sleep;;
      mret true
  end.

(** [while True], by recursion on what the model still has to give.  An
    exhausted model raises [StopIteration], so the last pass always breaks. *)
Fixpoint step_loop (cf : config) (script : list step_result) : M unit :=
  match script with
  | [] => _ ← iteration cf None; mret tt
  | entry :: rest =>
      go_on ← iteration cf (Some entry);
      if go_on : bool then step_loop cf rest else mret tt
  end.

(** AwaitingStart (lines 233-241): the start barrier on the Gate. *)
Definition startup (cf : config) : M unit :=
  (* wait_time = 16 *)
  emit "prepared" PNone (Some (sockid cf));;
  lock ← session_getitem "lock";
  unlocked ← gate_wait lock 16;
  if negb unlocked then
    emit "timeout" (PStr "Model not started, timed out after 16 sec")
         (Some (sockid cf));;
    on_model_kill
  else mret tt.

(** The outer [try] body (lines 233-354). *)
Definition try_body (cf : config) (script : list step_result) : M unit :=
  startup cf;;
  step_loop cf script.

(** Modelled from the spec: [json_exception] of the common views module,
    the error payload of the failure being handled; its ['message'] is the
    failure's message. *)
Definition json_exception (e : exc) : pyval :=
  PDict [(KStr "message", PStr (exc_message e))].

(** The [finally] clause (lines 378-383): diff the live session against the
    snapshot (the differences are only logged), then store the snapshot. *)
Definition finally_clause : M unit :=
  sess ← gets w_session;
  copy ← gets w_copy;
  for_each (fun kv : key * pyval =>
              match dict_get kv.1 copy with       (* sock_session_copy[k] *)
              | Some _ => mret tt
              | None => lift (raise KeyError "")
              end) sess;;
  modify (fun w => set_session (w_copy w) w).

(** The [except GreenletExit] and [except Exception] clauses of the outer
    [try] (lines 355-376), given the outcome of its body. *)
Definition except_clauses (cf : config) (r : result unit) : M unit :=
  match r with
  | Ok _ => mret tt
  | Raise e =>
      if isinstance_GreenletExit e then
        emit "killed" (PStr "Model run terminated early") (Some (sockid cf));;
        py_raise e
      else
        msg ← lift (getitem (json_exception e) "message");
        emit "runtimeError" msg (Some (sockid cf));;
        py_raise e
  end.

(** [execute_async_model(active_model, socket_namespace, sockid, request,
    send_output)]. *)
Definition execute_async_model (cf : config) (script : list step_result)
  : M unit :=
  (* sock_session_copy: a clone of the session *)
  modify (fun w => set_copy (w_session w) w);;
  r ← try_ (try_body cf script);
  r ← try_ (except_clauses cf r);
  finally_clause;;
  match r with
  | Ok _ => emit "complete" (PStr "Model run completed") None
  | Raise e => py_raise e
  end.

End Task.

Import Task.

(* ===================================================================== *)
(** ** The request handlers and the export cleanup                        *)
(* ===================================================================== *)

Module Server.

(** *** Paths and files *)

Definition slash : ascii := "/"%char.

Fixpoint has_slash (p : string) : bool :=
  match p with
  | EmptyString => false
  | String c rest => if decide (c = slash) then true else has_slash rest
  end.

Fixpoint ends_with_slash (p : string) : bool :=
  match p with
  | EmptyString => false
  | String c EmptyString => bool_decide (c = slash)
  | String _ rest => ends_with_slash rest
  end.

(** [os.path.basename(p)]: what follows the last slash. *)
Fixpoint basename (p : string) : string :=
  match p with
  | EmptyString => EmptyString
  | String c rest =>
      if has_slash rest then basename rest
      else if decide (c = slash) then rest else p
  end.

(** [os.path.join(a, b)] *)
Definition path_join (a b : string) : string :=
  match b with
  | String c _ =>
      if decide (c = slash) then b
      else if decide (a = EmptyString) then b
      else if ends_with_slash a then a +:+ b
      else a +:+ "/" +:+ b
  | EmptyString =>
      if decide (a = EmptyString) then b
      else if ends_with_slash a then a
      else a +:+ "/"
  end.

Inductive file :=
| Plain (content : string)
| ZipArchive (deflated : bool) (entries : list (string * file)).

(** *** The model, as far as the handlers touch it *)

Record outputter := Outputter {
  o_id : string;
  o_filename : string
}.

#[global] Instance outputter_eq_dec : EqDecision outputter.
Proof. solve_decision. Defined.

Record model := Model {
  m_outputters : list outputter;     (* active_model.outputters *)
  m_time_step : Z;                   (* active_model.current_time_step *)
  m_rewind_raises : option exc       (* what the next [rewind()] raises *)
}.

(** *** Greenlets *)

(** The callback [run_export_model] links: the closure [cleanup] with the
    variables it captured. *)
Record link := ExportCleanup {
  lk_session_id : string;                  (* whose [active_model] *)
  lk_temporary_outputters : list outputter;
  lk_model_filename : string;
  lk_session_path : string;
  lk_sid : string
}.

Record greenlet := Greenlet {
  g_sockid : string;            (* the [sockid] handed to execute_async_model *)
  g_session_hash : string;
  g_alive : bool;               (* [bool(greenlet)]: started and not yet dead *)
  g_kill_requested : bool;      (* [kill(block=False)] was called on it *)
  g_links : list link
}.

(** What a link reads off the dead greenlet. *)
Record grn := Grn {
  grn_exception : option exc;
  grn_value : pyval
}.

(** How gevent fills [exception] and [value] when the greenlet's function
    returns or raises: [GreenletExit] is a value, not an exception. *)
Definition grn_of (r : result unit) : grn :=
  match r with
  | Ok _ => Grn None PNone
  | Raise e =>
      if isinstance_GreenletExit e then Grn None (PExc e) else Grn (Some e) PNone
  end.

(** Calls made on the collaborators, in order. *)
Inductive op :=
| OpAcquire (session_id : string)
| OpRelease (session_id : string)
| OpKill (g : nat) (block : bool)
| OpSpawn (g : nat)
| OpNumSent (sid : string) (n : Z)
| OpRewind (session_id : string).

(** The state the handlers work on.  Modelled from the spec: the Channel
    Registry of section 4.2, which is the namespace's [get_sockid_from_sessid]
    ([sock_sess_map]) and [active_greenlets], the per-socket session store
    behind [ns.session(sid)], and [get_active_model(request)], which looks up
    the model of the request's session ([models]). *)
Record server := ServerState {
  sio_ns : bool;                             (* registry has 'sio_ns' *)
  sock_sess_map : gmap string string;        (* session id -> socket id *)
  active_greenlets : gmap string nat;        (* ns.active_greenlets *)
  greenlets : list greenlet;                 (* every greenlet spawned, by identity *)
  sessions : gmap string dict;               (* socket sessions *)
  models : gmap string model;                (* active model of each session *)
  session_locks : gmap string nat;           (* holders of each session lock *)
  files : gmap string file;
  events : list event;
  trace : list op
}.

(** Field updates of [server]. *)
Definition set_active_greenlets (x : gmap string nat) (s : server) : server :=
  ServerState (sio_ns s) (sock_sess_map s) x (greenlets s) (sessions s)
    (models s) (session_locks s) (files s) (events s) (trace s).
Definition set_greenlets (x : list greenlet) (s : server) : server :=
  ServerState (sio_ns s) (sock_sess_map s) (active_greenlets s) x (sessions s)
    (models s) (session_locks s) (files s) (events s) (trace s).
Definition set_sessions (x : gmap string dict) (s : server) : server :=
  ServerState (sio_ns s) (sock_sess_map s) (active_greenlets s) (greenlets s) x
    (models s) (session_locks s) (files s) (events s) (trace s).
Definition set_models (x : gmap string model) (s : server) : server :=
  ServerState (sio_ns s) (sock_sess_map s) (active_greenlets s) (greenlets s)
    (sessions s) x (session_locks s) (files s) (events s) (trace s).
Definition set_session_locks (x : gmap string nat) (s : server) : server :=
  ServerState (sio_ns s) (sock_sess_map s) (active_greenlets s) (greenlets s)
    (sessions s) (models s) x (files s) (events s) (trace s).
Definition set_files (x : gmap string file) (s : server) : server :=
  ServerState (sio_ns s) (sock_sess_map s) (active_greenlets s) (greenlets s)
    (sessions s) (models s) (session_locks s) x (events s) (trace s).
Definition set_events (x : list event) (s : server) : server :=
  ServerState (sio_ns s) (sock_sess_map s) (active_greenlets s) (greenlets s)
    (sessions s) (models s) (session_locks s) (files s) x (trace s).
Definition set_trace (x : list op) (s : server) : server :=
  ServerState (sio_ns s) (sock_sess_map s) (active_greenlets s) (greenlets s)
    (sessions s) (models s) (session_locks s) (files s) (events s) x.

Abbreviation S := (ST server).

Definition log_op (o : op) : S unit :=
  modify (fun s => set_trace (trace s ++ [o]) s).

Definition emit (name : string) (data : pyval) (room : option string) : S unit :=
  modify (fun s => set_events (events s ++ [Event name data room]) s).

(** [ns.active_greenlets.get(sid)] and its truth value: a greenlet is true
    while it is started and not yet dead. *)
Definition active_greenlet (sid : string) (s : server) : option nat :=
  active_greenlets s !! sid.

Definition greenlet_truthy (g : option nat) (s : server) : bool :=
  match g with
  | Some i => match greenlets s !! i with Some gl => g_alive gl | None => false end
  | None => false
  end.

(** [gevent.spawn(execute_async_model, active_model, ns, sid, request)],
    followed by [gl.session_hash = request.session_hash]. *)
Definition spawn (sid session_hash : string) : S nat := fun s =>
  let i := length (greenlets s) in
  (Ok i, set_trace (trace s ++ [OpSpawn i])
           (set_greenlets (greenlets s ++ [Greenlet sid session_hash true false []]) s)).

(** [gl.link(callback)] *)
Definition greenlet_link (i : nat) (lk : link) : S unit :=
  modify (fun s => set_greenlets
    (alter (fun g => Greenlet (g_sockid g) (g_session_hash g) (g_alive g)
                       (g_kill_requested g) (g_links g ++ [lk])) i (greenlets s)) s).

(** [gl.kill(block=False)]: the kill is scheduled and the caller goes on. *)
Definition greenlet_kill_noblock (i : nat) : S unit :=
  modify (fun s => set_greenlets
    (alter (fun g => Greenlet (g_sockid g) (g_session_hash g) (g_alive g)
                       true (g_links g)) i (greenlets s)) s);;
  log_op (OpKill i false).

(** [sock_session['num_sent'] = 0] inside [with ns.session(sid)]. *)
Definition session_set_num_sent (sid : string) (n : Z) : S unit :=
  modify (fun s => set_sessions
    (<[sid := dict_set "num_sent" (PNum n) (default [] (sessions s !! sid))]>
       (sessions s)) s);;
  log_op (OpNumSent sid n).

(** [active_model.rewind()] *)
Definition model_rewind (session_id : string) : S unit :=
  log_op (OpRewind session_id);;
  m ← gets (fun s => models s !! session_id);
  match m with
  | Some m =>
      match m_rewind_raises m with
      | Some e => py_raise e
      | None =>
          modify (fun s => set_models
            (<[session_id := Model (m_outputters m) (-1) None]> (models s)) s)
      end
  | None => lift (raise AttributeError "'NoneType' object has no attribute 'rewind'")
  end.

(** [active_model.outputters += o] *)
Definition outputters_add (session_id : string) (o : outputter) : S unit :=
  m ← gets (fun s => models s !! session_id);
  match m with
  | Some m =>
      modify (fun s => set_models
        (<[session_id := Model (m_outputters m ++ [o]) (m_time_step m)
                           (m_rewind_raises m)]> (models s)) s)
  | None => lift (raise AttributeError "'NoneType' object has no attribute 'outputters'")
  end.

Fixpoint remove_id (id : string) (l : list outputter) : option (list outputter) :=
  match l with
  | [] => None
  | o :: l' =>
      if decide (o_id o = id) then Some l'
      else l'' ← remove_id id l'; Some (o :: l'')
  end.

(** [active_model.outputters.remove(id)]: the collection raises [KeyError]
    for an id it does not hold. *)
Definition outputters_remove (session_id id : string) : S unit :=
  m ← gets (fun s => models s !! session_id);
  match m with
  | Some m =>
      match remove_id id (m_outputters m) with
      | Some l =>
          modify (fun s => set_models
            (<[session_id := Model l (m_time_step m) (m_rewind_raises m)]>
               (models s)) s)
      | None => lift (raise KeyError id)
      end
  | None => lift (raise AttributeError "'NoneType' object has no attribute 'outputters'")
  end.

(** *** [run_model] *)

Record request := Request {
  rq_session_id : string;            (* request.session.session_id *)
  rq_session_hash : string;
  rq_session_dir : string;           (* get_session_dir(request) *)
  rq_outputters : list outputter;    (* payload['outputters'], as CreateObject
                                        builds them, filenames still relative *)
  rq_model_name : string;            (* payload['model_name'] *)
  rq_tempdir : string                (* what tempfile.mkdtemp() returns *)
}.

(** The [with ns.session(sid)] block shared by both run handlers (lines
    162-176 and 201-214); [links] are linked to a greenlet it spawns.  The
    result is the greenlet spawned, if any. *)
Definition start_task (rq : request) (sid : string) (links : list link)
  : S (option nat) :=
  session_set_num_sent sid 0;;
  active_model ← gets (fun s => models s !! rq_session_id rq);
  running ← gets (fun s => greenlet_truthy (active_greenlet sid s) s);
  if bool_decide (is_Some active_model) && negb running then
    gl ← spawn sid (rq_session_hash rq);
    modify (fun s => set_active_greenlets (<[sid := gl]> (active_greenlets s)) s);;
    for_each (greenlet_link gl) links;;
    mret (Some gl)
  else mret None.      (* "Already started" *)

Definition run_model (rq : request) : S (option nat) :=
  ns ← gets sio_ns;
  if negb ns then lift (raise ValueError "no namespace associated with session")
  else
    sid ← gets (fun s => sock_sess_map s !! rq_session_id rq);
    match sid with
    | None => lift (raise ValueError "no sock_session associated with pyramid_session")
    | Some sid => start_task rq sid []
    end.

(** *** [run_export_model] and its cleanup *)

Definition path_exists (p : string) : S bool :=
  gets (fun s => bool_decide (is_Some (files s !! p))).

(** [if not os.path.exists(obj_fn): obj_fn = obj_fn + '.zip'] *)
Definition probe (obj_fn : string) : S string :=
  b ← path_exists obj_fn;
  mret (if b : bool then obj_fn else obj_fn +:+ ".zip").

(** [zipfile.ZipFile(path, 'w', compression=zipfile.ZIP_DEFLATED)] *)
Definition zip_create (path : string) : S unit :=
  modify (fun s => set_files (<[path := ZipArchive true []]> (files s)) s).

(** [zipfile_.write(obj_fn, arcname)] *)
Definition zip_write (path obj_fn arcname : string) : S unit :=
  src ← gets (fun s => files s !! obj_fn);
  match src with
  | None => lift (raise OSError "No such file or directory")
  | Some f =>
      modify (fun s => set_files
        (alter (fun z => match z with
                         | ZipArchive c es => ZipArchive c (es ++ [(arcname, f)])
                         | Plain _ => z
                         end) path (files s)) s)
  end.

(** [shutil.move(src, dst)] *)
Definition move (src dst : string) : S unit :=
  f ← gets (fun s => files s !! src);
  match f with
  | None => lift (raise OSError "No such file or directory")
  | Some f => modify (fun s => set_files (<[dst := f]> (delete src (files s))) s)
  end.

(** The artifact assembly of [cleanup] (lines 131-148); the result is
    [end_filename]. *)
Definition assemble (lk : link) : S string :=
  if bool_decide (1 < length (lk_temporary_outputters lk))%nat then
    (* need to zip up outputs *)
    let end_filename := lk_model_filename lk +:+ "_output.zip" in
    let zpath := path_join (lk_session_path lk) end_filename in
    zip_create zpath;;
    for_each (fun m =>
                obj_fn ← probe (o_filename m);
                zip_write zpath obj_fn (basename obj_fn))
             (lk_temporary_outputters lk);;
    mret end_filename
  else
    (* only one output file, because one outputter selected *)
    match lk_temporary_outputters lk with
    | [] => lift (raise IndexError "list index out of range")
    | m :: _ =>
        obj_fn ← probe (o_filename m);
        let end_filename := basename obj_fn in
        move obj_fn (path_join (lk_session_path lk) end_filename);;
        mret end_filename
    end.

(** [grn.exception or isinstance(grn.value, GreenletExit)] *)
Definition unsuccessful (g : grn) : bool :=
  bool_decide (is_Some (grn_exception g))
  || match grn_value g with PExc e => isinstance_GreenletExit e | _ => false end.

(** [cleanup(grn)] (lines 115-157).  The [except Exception] clause re-raises
    what it caught, so the body's outcome is the function's. *)
Definition cleanup (lk : link) (g : grn) : S unit :=
  (* remove outputters from the model *)
  for_each (fun m => outputters_remove (lk_session_id lk) (o_id m))
           (lk_temporary_outputters lk);;
  model_rewind (lk_session_id lk);;
  if unsuccessful g
  then emit "export_failed" PNone (Some (lk_sid lk))
  else
    end_filename ← assemble lk;
    emit "export_finished" (PStr end_filename) (Some (lk_sid lk)).

Definition run_export_model (rq : request) : S (option nat) :=
  ns ← gets sio_ns;
  if negb ns then lift (raise ValueError "no namespace associated with session")
  else
    (* setup temporary outputters and temporary output directory *)
    let temporary_outputters :=
      map (fun itm => Outputter (o_id itm)
                        (path_join (rq_tempdir rq) (o_filename itm)))
          (rq_outputters rq) in
    for_each (outputters_add (rq_session_id rq)) temporary_outputters;;
    sid ← gets (fun s => sock_sess_map s !! rq_session_id rq);
    match sid with
    | None => lift (raise ValueError "no sock_session associated with pyramid_session")
    | Some sid =>
        start_task rq sid
          [ExportCleanup (rq_session_id rq) temporary_outputters
             (rq_model_name rq) (rq_session_dir rq) sid]
    end.

(** The death of greenlet [i] with outcome [r]: gevent marks it dead and
    calls each of its links once; an exception escaping a link is reported by
    the hub and goes no further.  A dead greenlet does not die again. *)
Definition finish (i : nat) (r : result unit) (s : server) : server :=
  match greenlets s !! i with
  | Some gl =>
      if g_alive gl then
        let s1 := set_greenlets
          (<[i := Greenlet (g_sockid gl) (g_session_hash gl) false
                    (g_kill_requested gl) (g_links gl)]> (greenlets s)) s in
        foldl (fun s lk => (cleanup lk (grn_of r) s).2) s1 (g_links gl)
      else s
  | None => s
  end.

(** *** [get_rewind] *)

(** Modelled from the spec: [acquire_session_lock] of the session-management
    module hands out the session-scoped mutual-exclusion lock, held. *)
Definition acquire_session_lock (session_id : string) : S unit :=
  modify (fun s => set_session_locks
    (<[session_id := Datatypes.S (default 0%nat (session_locks s !! session_id))]>
       (session_locks s)) s);;
  log_op (OpAcquire session_id).

(** [session_lock.release()] *)
Definition release_session_lock (session_id : string) : S unit :=
  modify (fun s => set_session_locks
    (<[session_id := Nat.pred (default 0%nat (session_locks s !! session_id))]>
       (session_locks s)) s);;
  log_op (OpRelease session_id).

(** [cors_exception(request, HTTPUnprocessableEntity, with_stacktrace=True)] *)
Definition unprocessable : exc := Exc HTTPUnprocessableEntity "" None.
Definition precondition_failed : exc := Exc HTTPPreconditionFailed "" None.

Definition get_rewind (rq : request) : S unit :=
  active_model ← gets (fun s => models s !! rq_session_id rq);
  ns ← gets sio_ns;
  if bool_decide (is_Some active_model) then
    acquire_session_lock (rq_session_id rq);;
    r ← try_ (
      (if ns : bool then
         sio ← gets (fun s => sock_sess_map s !! rq_session_id rq);
         (* a session id without socket resolves to None, which no greenlet
            is registered under *)
         g ← gets (fun s => sio ≫= fun sio => active_greenlet sio s);
         t ← gets (greenlet_truthy g);
         match sio, g with
         | Some sio, Some g =>
             if t : bool then
               greenlet_kill_noblock g;;
               session_set_num_sent sio 0
             else mret tt
         | _, _ => mret tt
         end
       else mret tt);;
      model_rewind (rq_session_id rq));
    (* finally *)
    release_session_lock (rq_session_id rq);;
    match r with
    | Ok _ => mret tt
    | Raise e =>
        if isinstance_Exception e then py_raise unprocessable else py_raise e
    end
  else py_raise precondition_failed.

End Server.

(* ===================================================================== *)
(** ** Vocabulary of the statements                                       *)
(* ===================================================================== *)

Import Server.

(** The block a well-formed worker fragment carries: the fragment is a
    record whose ['WeatheringOutput'] entry is a block. *)
Definition block_of (step_output : pyval) : option dict :=
  match step_output with
  | PDict d =>
      match dict_get WeatheringOutput d with
      | Some (PDict b) => Some b
      | _ => None
      end
  | _ => None
  end.

(** The values of key [k] across the blocks, in worker order. *)
Definition values_of (k : key) (blocks : list dict) : list pyval :=
  (filter (fun kv : key * pyval => kv.1 = k) (concat blocks)).*2.

(** Two scalars that [<] compares. *)
Definition same_kind (a b : pyval) : bool :=
  match a, b with
  | PNum _, PNum _ | PStr _, PStr _ => true
  | _, _ => false
  end.

(** Every key holds numbers throughout, or strings throughout. *)
Definition comparable_columns (blocks : list dict) : bool :=
  forallb (fun kv : key * pyval =>
    forallb (fun kv' : key * pyval =>
      if decide (kv.1 = kv'.1) then same_kind kv.2 kv'.2 else true)
      (concat blocks)) (concat blocks).

(** [m] is among [vs] and none of them is smaller. *)
Definition is_minimum (m : pyval) (vs : list pyval) : Prop :=
  m ∈ vs ∧ ∀ v, v ∈ vs → py_lt v m = Ok false.

(** [m] is among [vs] and none of them is larger. *)
Definition is_maximum (m : pyval) (vs : list pyval) : Prop :=
  m ∈ vs ∧ ∀ v, v ∈ vs → py_lt m v = Ok false.

(** A list whose members [<] compares pairwise. *)
Definition comparable (vs : list pyval) : Prop :=
  ∀ a b, a ∈ vs → b ∈ vs → same_kind a b = true.

(** [aggregate[k]], if the key is there. *)
Fixpoint agg_lookup (k : key) (agg : list (key * list pyval))
  : option (list pyval) :=
  match agg with
  | [] => None
  | (k', vs) :: agg' => if decide (k' = k) then Some vs else agg_lookup k agg'
  end.

(** The invariant of [aggregate]: every key it holds has seen a value. *)
Definition agg_wf (agg : list (key * list pyval)) : Prop :=
  ∀ k, agg_lookup k agg ≠ Some [].

(** The values a single block holds under [k]. *)
Definition column (k : key) (block : dict) : list pyval :=
  (filter (fun kv : key * pyval => kv.1 = k) block).*2.

(** *** Sample data *)

(** A worker fragment whose weathering block is [{a: z}]. *)
Definition fragment_a (z : Z) : pyval :=
  PDict [(KStr WeatheringOutput, PDict [(KStr "a", PNum z)])].

(** A nominal record with a weathering block. *)
Definition nominal_record : dict :=
  [(KStr WeatheringOutput,
    PDict [(KStr "time_stamp", PStr "2013-02-13T09:00:00"); (KStr "a", PNum 2)])].

(** A nominal record without weathering block. *)
Definition spill_record : dict :=
  [(KStr "SpillJsonOutput", PDict [(KStr "step_num", PNum 0)])].

(** A worker result encoding a failure. *)
Definition worker_error : exc := Exc (OtherError "ValueError") "worker blew up" None.
Definition failed_fragment : pyval :=
  PTuple [PNone; PExc worker_error; PTraceback "worker.py, line 12"].

(** *** Vocabulary for the Step Task *)

(** Whether uncertainty workers are established in the pass that starts in
    [w]: the first pass ([current_time_step == -1]) re-establishes them. *)
Definition uncertain_in_pass (cf : config) (w : world) : bool :=
  if bool_decide (w_time_step w = -1) then has_weathering_uncertainty cf
  else w_uncertain w.

(** What [get_uncertain_steps] returns in the pass that starts in [w]. *)
Definition workers_in_pass (cf : config) (w : world) : option (list pyval) :=
  if uncertain_in_pass cf w then Some (workers cf (w_time_step w + 1)) else None.

(** The world once the model (taking [dt] ticks) and the workers stepped. *)
Definition after_step (cf : config) (dt : Z) (w : world) : world :=
  World (w_events w) (w_session w) (w_gate w) (w_time_step w + 1)
    (uncertain_in_pass cf w) (w_kill_pending w) (w_env w)
    (if uncertain_in_pass cf w then w_now w + dt + workers_duration cf
     else w_now w + dt)
    (w_copy w).

(** The loop started on [script] in [w] gets to the start of a pass with
    [script'] left, in [w']. *)
Inductive reaches (cf : config)
  : list step_result → world → list step_result → world → Prop :=
| reaches_here script w : reaches cf script w script w
| reaches_next entry rest w w1 script' w' :
    iteration cf (Some entry) w = (Ok true, w1) →
    reaches cf rest w1 script' w' →
    reaches cf (entry :: rest) w script' w'.

(** Every key of the live session is in the snapshot: the diff of the
    [finally] clause finds [sock_session_copy[k]] for each. *)
Definition finally_ok (w : world) : bool :=
  forallb (fun kv : key * pyval => dict_has kv.1 (w_copy w)) (w_session w).

Definition event_names (w : world) : list string := ev_name <$> w_events w.

(** A session as [on_connect] leaves it, and runs over it. *)
Definition session0 : dict := [(KStr "num_sent", PNum 0); (KStr "lock", PGate)].

(** A free-running session ([is_async]) whose model has weathering
    uncertainty; the second worker fails at every step. *)
Definition cf_failing : config :=
  Config "sid-1" true true true (fun _ => [fragment_a 1; failed_fragment]) 2.

(** The same session when every worker result encodes a [StopIteration]. *)
Definition cf_exhausted_worker : config :=
  Config "sid-1" true true true
    (fun _ => [PTuple [PNone; PExc (Exc StopIteration "" None); PNone]]) 2.

(** A stepwise session ([is_async] off) without uncertainty. *)
Definition cf_stepwise : config :=
  Config "sid-1" false false true (fun _ => []) 0.

(** The world at spawn time: a rewound model, with the Gate set or not and
    the given behaviour of the other greenlets. *)
Definition world0 (gate : bool) (env : list env_action) : world :=
  World [] session0 gate (-1) false false env 100 [].

(** *** Vocabulary for the exit path *)

(** The [step] events among [evs]. *)
Definition count_steps (evs : list event) : nat :=
  length (filter (fun ev => ev_name ev = "step") evs).

(** The snapshot with only [num_sent] advanced by [k]. *)
Definition advance (k : nat) (snap : dict) : dict :=
  match dict_get "num_sent" snap with
  | Some (PNum n) => dict_set "num_sent" (PNum (n + Z.of_nat k)) snap
  | _ => snap
  end.

(** The other greenlets only write session keys the snapshot has. *)
Definition known_writes (snap : dict) (env : list env_action) : bool :=
  forallb (fun a => forallb (fun kv : key * pyval => dict_has kv.1 snap)
                      (ea_writes a)) env.

(** What holds of the task's world throughout a run that took the snapshot
    [snap] when [c0] steps had been emitted. *)
Definition run_inv (snap : dict) (c0 : nat) (w : world) : Prop :=
  known_writes snap (w_env w) = true
  ∧ (∀ k, dict_has k (w_session w) = true → dict_has k snap = true)
  ∧ (c0 ≤ count_steps (w_events w))%nat
  ∧ w_copy w = advance (count_steps (w_events w) - c0) snap.

(** [m] keeps the invariant [I], whether it returns or raises. *)
Definition preserves {St A} (I : St → Prop) (m : ST St A) : Prop :=
  ∀ s, I s → I (m s).2.

(** *** Vocabulary for the request handlers *)

(** What can happen to the server: a request is handled, or a greenlet
    dies with some outcome. *)
Inductive server_step : server → server → Prop :=
| step_run_model rq s : server_step s (run_model rq s).2
| step_run_export_model rq s : server_step s (run_export_model rq s).2
| step_get_rewind rq s : server_step s (get_rewind rq s).2
| step_finish i r s : server_step s (finish i r s).

(** The states the server gets to from one without greenlets. *)
Definition reachable (s : server) : Prop :=
  ∃ s0, greenlets s0 = [] ∧ rtc server_step s0 s.

(** Greenlet [i] is an active Step Task of socket [sid]. *)
Definition active (s : server) (i : nat) (sid : string) : Prop :=
  ∃ g, greenlets s !! i = Some g ∧ g_alive g = true ∧ g_sockid g = sid.

(** Every live greenlet is the one registered for its socket. *)
Definition one_task (s : server) : Prop :=
  ∀ i g, greenlets s !! i = Some g → g_alive g = true →
         active_greenlets s !! g_sockid g = Some i.

(** [s'] has the greenlets and the registry of [s]. *)
Definition same_tasks (s s' : server) : Prop :=
  greenlets s' = greenlets s ∧ active_greenlets s' = active_greenlets s.

(** [gl.link(lk)] for each of [links]. *)
Definition add_links (links : list link) (g : greenlet) : greenlet :=
  Greenlet (g_sockid g) (g_session_hash g) (g_alive g) (g_kill_requested g)
    (g_links g ++ links).

(** The decision of [start_task]: [active_model and not
    ns.active_greenlets.get(sid)]. *)
Definition may_start (rq : request) (sid : string) (s : server) : bool :=
  bool_decide (is_Some (models s !! rq_session_id rq))
  && negb (greenlet_truthy (active_greenlet sid s) s).

(** A greenlet was spawned for [sid], which had no live one registered. *)
Definition spawned (sid session_hash : string) (links : list link)
    (s s' : server) : Prop :=
  greenlet_truthy (active_greenlet sid s) s = false
  ∧ greenlets s' = greenlets s ++ [Greenlet sid session_hash true false links]
  ∧ active_greenlets s' = <[sid := length (greenlets s)]> (active_greenlets s).

(** The link [run_export_model] makes for a request. *)
Definition export_link (rq : request) (sid : string) : link :=
  ExportCleanup (rq_session_id rq)
    (map (fun itm => Outputter (o_id itm)
                       (path_join (rq_tempdir rq) (o_filename itm)))
         (rq_outputters rq))
    (rq_model_name rq) (rq_session_dir rq) sid.

(** [gl.kill(block=False)] as it marks the greenlet. *)
Definition mark_killed (g : greenlet) : greenlet :=
  Greenlet (g_sockid g) (g_session_hash g) (g_alive g) true (g_links g).

(** Socket and liveness of each greenlet. *)
Definition liveness (s : server) : list (string * bool) :=
  (fun g => (g_sockid g, g_alive g)) <$> greenlets s.

(** [s'] has the registry of [s], and its greenlets with their liveness. *)
Definition same_liveness (s s' : server) : Prop :=
  active_greenlets s' = active_greenlets s ∧ liveness s' = liveness s.

(** The two run requests. *)
Inductive run_kind := Run | RunExport.

Definition run_request (k : run_kind) : request → S (option nat) :=
  match k with Run => run_model | RunExport => run_export_model end.

(** A greenlet after its death. *)
Definition dead (g : greenlet) : greenlet :=
  Greenlet (g_sockid g) (g_session_hash g) false (g_kill_requested g) (g_links g).

(** A server with one connected session that has an active model, and an
    export request of that session for two outputters. *)
Definition server0 : server :=
  ServerState true {[ "session-1" := "sid-1" ]} ∅ [] ∅
    {[ "session-1" := Model [] (-1) None ]} ∅
    {[ "/tmp/td/a.out" := Plain "A"; "/tmp/td/b.out" := Plain "B" ]} [] [].

Definition request0 : request :=
  Request "session-1" "hash-1" "/sessions/session-1"
    [Outputter "o1" "a.out"; Outputter "o2" "b.out"] "model" "/tmp/td".

(** *** Vocabulary for the rewind *)

(** The live Step Task the rewind finds for the request's session: its
    socket and greenlet. *)
Definition task_to_cancel (rq : request) (s : server) : option (string * nat) :=
  if sio_ns s then
    sio ← sock_sess_map s !! rq_session_id rq;
    g ← active_greenlets s !! sio;
    if greenlet_truthy (Some g) s then Some (sio, g) else None
  else None.

(** The holders of a session lock. *)
Definition holders (session_id : string) (s : server) : nat :=
  default 0%nat (session_locks s !! session_id).

(** *** Vocabulary for the export cleanup *)

(** [outputters.remove(id)] for each of [ids] in turn. *)
Fixpoint detach (ids : list string) (l : list outputter)
  : option (list outputter) :=
  match ids with
  | [] => Some l
  | id :: ids' => l' ← remove_id id l; detach ids' l'
  end.

(** The path the cleanup takes an outputter's file from: the nominal one,
    or the one with [.zip] appended when the nominal one is absent. *)
Definition resolve (fs : gmap string file) (obj_fn : string) : string :=
  if bool_decide (is_Some (fs !! obj_fn)) then obj_fn else obj_fn +:+ ".zip".

(** The server once the link's outputters, leaving [rest], are detached
    from the model and the model is rewound. *)
Definition detached_rewound (lk : link) (rest : list outputter) (s : server)
  : server :=
  set_models (<[lk_session_id lk := Model rest (-1) None]> (models s))
    (set_trace (trace s ++ [OpRewind (lk_session_id lk)]) s).

(** Each greenlet of [s] is still there in [s'], with the links it had. *)
Definition links_kept (s s' : server) : Prop :=
  ∀ i g, greenlets s !! i = Some g →
         ∃ g', greenlets s' !! i = Some g' ∧ g_links g' = g_links g.

(** The entry the zip gets for an outputter, and the artifact's path. *)
Definition zip_path (lk : link) : string :=
  path_join (lk_session_path lk) (lk_model_filename lk +:+ "_output.zip").

(** [s'] differs from [s] at most in the files and the events. *)
Definition same_but_files_events (s s' : server) : Prop :=
  sio_ns s' = sio_ns s ∧ sock_sess_map s' = sock_sess_map s
  ∧ active_greenlets s' = active_greenlets s ∧ greenlets s' = greenlets s
  ∧ sessions s' = sessions s ∧ models s' = models s
  ∧ session_locks s' = session_locks s ∧ trace s' = trace s.

(** [f] is the file the cleanup takes for outputter [o]; when the outputs
    are zipped, neither path probed for [o] is the zip's own. *)
Definition source_of (lk : link) (s : server) (o : outputter) (f : file) : Prop :=
  files s !! resolve (files s) (o_filename o) = Some f
  ∧ ((1 < length (lk_temporary_outputters lk))%nat →
     o_filename o ≠ zip_path lk ∧ resolve (files s) (o_filename o) ≠ zip_path lk).

(** The zip entries for the outputters [temps] with the files [srcs]. *)
Definition zip_entries (fs : gmap string file) (temps : list outputter)
    (srcs : list file) : list (string * file) :=
  zip ((fun o => basename (resolve fs (o_filename o))) <$> temps) srcs.

(** An export request for a single outputter whose writer left only the
    zipped file behind, on a server like [server0]. *)
Definition request1 : request :=
  Request "session-1" "hash-1" "/sessions/session-1"
    [Outputter "o3" "shape"] "model" "/tmp/td".

Definition server1 : server :=
  ServerState true {[ "session-1" := "sid-1" ]} ∅ [] ∅
    {[ "session-1" := Model [] (-1) None ]} ∅
    {[ "/tmp/td/shape.zip" := Plain "S" ]} [] [].

(** *** Vocabulary for the wait in the loop *)

(** The event the loop emits when its wait on the Gate has timed out. *)
Definition loop_timeout (cf : config) : event :=
  Event "timeout" (PStr "Model run timed out after 6000 sec") (Some (sockid cf)).

(** No other greenlet rewrites [session['lock']]. *)
Definition lock_untouched (env : list env_action) : bool :=
  forallb (fun a => forallb (fun kv : key * pyval =>
                               negb (bool_decide (kv.1 = KStr "lock")))
                      (ea_writes a)) env.

(** The session and the snapshot hold the Gate under ['lock'], and the
    loop's timeout has not been emitted. *)
Definition gate_inv (cf : config) (w : world) : Prop :=
  dict_get "lock" (w_session w) = Some PGate
  ∧ dict_get "lock" (w_copy w) = Some PGate
  ∧ lock_untouched (w_env w) = true
  ∧ loop_timeout cf ∉ w_events w.

(* ===================================================================== *)
(** ** Further vocabulary: the aggregated record                          *)
(* ===================================================================== *)

(** The three keys of the step record that [aggregate_step] writes. *)
Definition aggregated_keys : list key :=
  [KStr WeatheringOutput; KStr "uncertain_response_time";
   KStr "total_response_time"].

(** An entry of the combined weathering block of a step record. *)
Definition combined (field : string) (output : dict) : option pyval :=
  match dict_get WeatheringOutput output with
  | Some (PDict full) => dict_get field full
  | _ => None
  end.

(** The value [low] (or [high]) of a step record holds for [k]. *)
Definition bound (field : string) (k : key) (output : dict) : option pyval :=
  match combined field output with
  | Some (PDict d) => dict_get k d
  | _ => None
  end.

(** A column the builtins [min] and [max] accept: one value of any type, or
    several that [<] compares. *)
Definition orderable (vs : list pyval) : Prop :=
  length vs = 1%nat ∨ (vs ≠ [] ∧ comparable vs).

(** [lo <= hi] as the two bounds of one column are related. *)
Definition py_le (lo hi : pyval) : Prop := lo = hi ∨ py_lt lo hi = Ok true.

(* ===================================================================== *)
(** ** Further vocabulary: the events of a run                            *)
(* ===================================================================== *)

(** The events a run emits while it is under way. *)
Definition progress_event (ev : event) : bool :=
  bool_decide (ev_name ev = "step") || bool_decide (ev_name ev = "timeout").

Definition prepared (cf : config) : event :=
  Event "prepared" PNone (Some (sockid cf)).

Definition complete : event :=
  Event "complete" (PStr "Model run completed") None.

Definition killed (cf : config) : event :=
  Event "killed" (PStr "Model run terminated early") (Some (sockid cf)).

Definition runtimeError (cf : config) (msg : pyval) : event :=
  Event "runtimeError" msg (Some (sockid cf)).

(** The events of [w] are [pre] followed by progress events. *)
Definition under_way (pre : list event) (w : world) : Prop :=
  ∃ body, w_events w = pre ++ body ∧ forallb progress_event body = true.

(* ===================================================================== *)
(** ** Further vocabulary: the export cleanup and the download            *)
(* ===================================================================== *)

(** The announcement a cleanup that returns has made. *)
Definition announcement (lk : link) (g : grn) (ev : event) : Prop :=
  ev_room ev = Some (lk_sid lk)
  ∧ if unsuccessful g then ev = Event "export_failed" PNone (Some (lk_sid lk))
    else ∃ end_filename, ev_name ev = "export_finished"
                         ∧ ev_data ev = PStr end_filename.

(** Neither the nominal file of [o] nor its [.zip] fallback is there. *)
Definition output_missing (fs : gmap string file) (o : outputter) : Prop :=
  fs !! o_filename o = None ∧ fs !! (o_filename o +:+ ".zip") = None.

(** *** The download handler: [get_output_file] *)

(** What the handler returns: the [FileResponse] for the file at
    [resp_path], with the [Content-Disposition] header set on it. *)
Record response := Response {
  resp_path : string;
  resp_body : file;
  content_disposition : string
}.

(** [FileResponse(path, request)]: the constructor opens the file. *)
Definition FileResponse (path : string) : S file :=
  f ← gets (fun s => files s !! path);
  match f with
  | Some f => mret f
  | None => lift (raise OSError "No such file or directory")
  end.

(** [cors_response(request, HTTPNotFound(...))] *)
Definition not_found : exc :=
  Exc HTTPNotFound "File(s) requested do not exist on the server!" None.

(** [get_output_file(request)] (lines 52-68); [filename] is
    [request.GET.get('filename')], [None] when the query has no such
    parameter. *)
Definition get_output_file (rq : request) (filename : option string)
  : S response :=
  let session_path := rq_session_dir rq in
  match filename with
  | Some filename =>
      if truthy (PStr filename) then
        let output_path := path_join session_path filename in
        body ← FileResponse output_path;
        mret (Response output_path body
                ("attachment; filename=" +:+ basename output_path))
      else py_raise not_found
  | None => py_raise not_found
  end.

(** *** Vocabulary for requests that follow one another *)

(** The temporary outputters an export request attaches. *)
Definition temporaries (rq : request) : list outputter :=
  map (fun itm => Outputter (o_id itm)
                    (path_join (rq_tempdir rq) (o_filename itm)))
      (rq_outputters rq).

(** The model with further outputters attached. *)
Definition attached (m : model) (os : list outputter) : model :=
  Model (m_outputters m ++ os) (m_time_step m) (m_rewind_raises m).

(** What a request reads to find its socket and its model. *)
Definition same_routing (rq : request) (s s' : server) : Prop :=
  sio_ns s' = sio_ns s
  ∧ sock_sess_map s' = sock_sess_map s
  ∧ (is_Some (models s !! rq_session_id rq) →
     is_Some (models s' !! rq_session_id rq)).

(** *** Further sample data *)

(** A free-running session whose model has weathering uncertainty, with two
    workers that answer every step. *)
Definition cf_ensemble : config :=
  Config "sid-1" true true true (fun _ => [fragment_a 1; fragment_a 3]) 2.

(** A session that only wants the step counter. *)
Definition cf_heartbeat : config :=
  Config "sid-1" false true false (fun _ => []) 0.

(** *** Vocabulary for the step counter *)

(** The payloads of the [step] events among [evs]. *)
Definition step_data (evs : list event) : list pyval :=
  ev_data <$> filter (fun ev => ev_name ev = "step") evs.

(** The counters [n0 + 1, ..., n0 + k]. *)
Definition counters (n0 : Z) (k : nat) : list pyval :=
  (fun i => PNum (n0 + Z.of_nat i)) <$> seq 1 k.

(** The run has emitted [body] after [pre], its [step] events carrying the
    counters from [n0] on, and its snapshot holds the last of them. *)
Definition counting (n0 : Z) (pre : list event) (w : world) : Prop :=
  ∃ body, w_events w = pre ++ body
          ∧ step_data body = counters n0 (count_steps body)
          ∧ dict_get "num_sent" (w_copy w)
              = Some (PNum (n0 + Z.of_nat (count_steps body))).

(* ===================================================================== *)
(** ** The application start-up: [webgnome_api/__init__.py]               *)
(* ===================================================================== *)

Module App.

(** *** [load_cors_origins] *)

Definition newline : ascii := "010"%char.

(** [s.split(sep)] for a separator of one character. *)
Fixpoint split (sep : ascii) (s : string) : list string :=
  match s with
  | EmptyString => [EmptyString]
  | String c rest =>
      if decide (c = sep) then EmptyString :: split sep rest
      else match split sep rest with
           | piece :: pieces => String c piece :: pieces
           | [] => [String c EmptyString]
           end
  end.

(** [sep.join(pieces)] *)
Fixpoint join (sep : ascii) (pieces : list string) : string :=
  match pieces with
  | [] => EmptyString
  | [piece] => piece
  | piece :: rest => piece +:+ String sep (join sep rest)
  end.

(** What the entries of [cors_policy] hold: a string, or a sequence of
    strings. *)
Inductive policy_value :=
| Text (s : string)
| Lines (l : list string).

(** [load_cors_origins(settings, key)], on the module's [cors_policy]. *)
Definition load_cors_origins (settings : gmap string string) (key : string)
    (cors_policy : gmap string policy_value) : gmap string policy_value :=
  match settings !! key with
  | Some v =>
      let origins := split newline v in
      <["origins" := Lines origins]> cors_policy
  | None => cors_policy
  end.

(** *** The file system *)

(** What is at a path.  Paths are taken as written: no two spellings of
    one path occur. *)
Inductive node := RegularFile | Directory.

#[global] Instance node_eq_dec : EqDecision node.
Proof. solve_decision. Defined.

(** [nodes] is what exists; [refused] holds the paths at which the system
    does not let this process make a directory (a missing parent, missing
    rights), with the error number it answers. *)
Record filesystem := FileSystem {
  nodes : gmap string node;
  refused : gmap string Z
}.

Abbreviation F := (ST filesystem).

(** [os.path.exists(d)] *)
Definition path_exists (d : string) : F bool :=
  gets (fun fs => bool_decide (is_Some (nodes fs !! d))).

(** [os.path.isdir(d)] *)
Definition isdir (d : string) : F bool :=
  gets (fun fs => bool_decide (nodes fs !! d = Some Directory)).

(** [os.mkdir(d)] *)
Definition mkdir (d : string) : F unit :=
  fs ← gets id;
  if bool_decide (is_Some (nodes fs !! d))
  then lift (raise OSError "File exists")
  else match refused fs !! d with
       | Some _ => lift (raise OSError "cannot create directory")
       | None => modify (fun fs => FileSystem (<[d := Directory]> (nodes fs))
                                     (refused fs))
       end.

(** [settings[k]] *)
Definition setting (settings : gmap string string) (k : string) : F string :=
  match settings !! k with
  | Some v => mret v
  | None => lift (raise KeyError k)
  end.

(** [reconcile_directory_settings(settings)]; [EnvironmentError] is
    [OSError]. *)
Definition reconcile_directory_settings (settings : gmap string string)
  : F unit :=
  save_file_dir ← setting settings "save_file_dir";
  for_each (fun d =>
              e ← path_exists d;
              if negb e then mkdir d
              else
                dir ← isdir d;
                if negb dir
                then lift (raise OSError ("Folder path " +:+ d +:+
                                          " is not a directory!!"))
                else mret tt)
           [save_file_dir];;
  locations_dir ← setting settings "locations_dir";
  e ← path_exists locations_dir;
  if negb e
  then lift (raise OSError ("Location files folder path " +:+ locations_dir
                            +:+ " does not exist!!"))
  else
    dir ← isdir locations_dir;
    if negb dir
    then lift (raise OSError ("Location files folder path " +:+ locations_dir
                              +:+ " is not a directory!!"))
    else mret tt.

(** *** The session cleaner *)

(** [p] lies below the directory [dir]. *)
Definition below (dir p : string) : bool :=
  String.prefix (dir +:+ "/") p.

(** [shutil.rmtree(path)]: the tree at [path] goes, or an [OSError] with
    its error number comes back ([2] for a path that does not exist, [20]
    for one that is not a directory). *)
Definition rmtree (path : string) : filesystem → option Z * filesystem :=
  fun fs =>
    match nodes fs !! path with
    | None => (Some 2, fs)
    | Some RegularFile => (Some 20, fs)
    | Some Directory =>
        (None,
         FileSystem
           (filter (fun kv : string * node =>
                      kv.1 ≠ path ∧ below path kv.1 = false) (nodes fs))
           (refused fs))
    end.

(** [event_handler(msg, session_dir)] of [start_session_cleaner] (lines
    131-142); [data] is [str(msg['data'])]. *)
Definition event_handler (data : string) (session_dir : string) : F unit :=
  let cleanup_dir := Server.path_join session_dir data in
  fun fs =>
    match rmtree cleanup_dir fs with
    | (None, fs') => (Ok tt, fs')
    | (Some errno, fs') =>
        (* not-found error.  Print message & continue. *)
        if bool_decide (errno = 2) then (Ok tt, fs')
        else (raise OSError "rmtree", fs')
    end.

End App.


(** *** Vocabulary for the start-up code *)

(** The character [c] occurs in [s]. *)
Fixpoint has_char (c : ascii) (s : string) : bool :=
  match s with
  | EmptyString => false
  | String c' rest => if decide (c' = c) then true else has_char c rest
  end.


(* ===================================================================== *)
(** ** Facts about dictionaries and the builtin [min] and [max]           *)
(* ===================================================================== *)

Section dict_facts.
Implicit Types (d : dict) (k : key) (v : pyval).

Lemma dict_get_set_eq k v d : dict_get k (dict_set k v d) = Some v.
Proof.
  induction d as [|[k' v'] d IH]; simpl.
  - by rewrite decide_True.
  - destruct (decide (k' = k)) as [->|Hne]; simpl.
    + by rewrite decide_True.
    + by rewrite decide_False.
Qed.

Lemma dict_get_set_ne k k' v d :
  k ≠ k' → dict_get k (dict_set k' v d) = dict_get k d.
Proof.
  intros Hne. induction d as [|[k0 v0] d IH]; simpl.
  - by rewrite decide_False.
  - destruct (decide (k0 = k')) as [->|Hne']; simpl.
    + by rewrite !decide_False.
    + by rewrite IH.
Qed.

Lemma dict_set_fresh k v d :
  dict_get k d = None → dict_set k v d = d ++ [(k, v)].
Proof.
  induction d as [|[k0 v0] d IH]; simpl; [done|].
  destruct (decide (k0 = k)); [done|]. intros H. by rewrite IH.
Qed.

Lemma dict_get_app k d d' :
  dict_get k (d ++ d') =
    match dict_get k d with Some v => Some v | None => dict_get k d' end.
Proof.
  induction d as [|[k0 v0] d IH]; simpl; [done|].
  by destruct (decide (k0 = k)).
Qed.

End dict_facts.

Section order_facts.

Lemma ascii_compare_trans a b c :
  Ascii.compare a b = Lt → Ascii.compare b c = Lt → Ascii.compare a c = Lt.
Proof.
  unfold Ascii.compare. rewrite !N.compare_lt_iff. lia.
Qed.

Lemma string_compare_trans s t u :
  String.compare s t = Lt → String.compare t u = Lt → String.compare s u = Lt.
Proof.
  revert t u. induction s as [|a s IH]; intros [|b t] [|c u]; simpl; try done.
  destruct (Ascii.compare a b) eqn:Hab; try done.
  - apply Ascii.compare_eq_iff in Hab as ->.
    destruct (Ascii.compare b c) eqn:Hbc; try done. apply IH.
  - destruct (Ascii.compare b c) eqn:Hbc; try done.
    + apply Ascii.compare_eq_iff in Hbc as <-. by rewrite Hab.
    + by rewrite (ascii_compare_trans _ _ _ Hab Hbc).
Qed.

Lemma string_compare_refl s : String.compare s s = Eq.
Proof.
  induction s as [|a s IH]; simpl; [done|].
  unfold Ascii.compare. by rewrite N.compare_refl.
Qed.

Lemma py_lt_same_kind a b : same_kind a b = true → ∃ c, py_lt a b = Ok c.
Proof. destruct a, b; try done; simpl; eauto. Qed.

Lemma py_lt_irrefl a : same_kind a a = true → py_lt a a = Ok false.
Proof.
  destruct a; try done; simpl; intros _.
  - by rewrite Z.ltb_irrefl.
  - unfold String.ltb. by rewrite string_compare_refl.
Qed.

Lemma py_lt_trans a b c :
  py_lt a b = Ok true → py_lt b c = Ok true → py_lt a c = Ok true.
Proof.
  destruct a, b; try done; destruct c; try done; simpl; intros [= H1] [= H2]; f_equal.
  - lia.
  - unfold String.ltb in *.
    destruct (String.compare s s0) eqn:E1; try done.
    destruct (String.compare s0 s1) eqn:E2; try done.
    by rewrite (string_compare_trans _ _ _ E1 E2).
Qed.

Lemma same_kind_sym a b : same_kind a b = same_kind b a.
Proof. by destruct a, b. Qed.

Lemma same_kind_trans a b c :
  same_kind a b = true → same_kind b c = true → same_kind a c = true.
Proof. by destruct a, b, c. Qed.

Lemma min_loop_spec rest : ∀ best seen,
  comparable (seen ++ rest) →
  best ∈ seen → (∀ v, v ∈ seen → py_lt v best = Ok false) →
  ∃ m, min_loop best rest = Ok m ∧ is_minimum m (seen ++ rest).
Proof.
  induction rest as [|item rest IH]; intros best seen Hc Hin Hmin; simpl.
  - exists best. rewrite app_nil_r. by split.
  - assert (Hib : same_kind item best = true).
    { apply Hc; set_solver. }
    destruct (py_lt_same_kind _ _ Hib) as [c Hcmp]. rewrite Hcmp. simpl.
    replace (seen ++ item :: rest) with ((seen ++ [item]) ++ rest) in *
      by by rewrite <-app_assoc.
    apply IH; [done| |].
    + destruct c; set_solver.
    + intros v Hv. destruct c.
      * apply elem_of_app in Hv as [Hv|Hv%list_elem_of_singleton].
        -- assert (Hvi : same_kind v item = true) by (apply Hc; set_solver).
           destruct (py_lt_same_kind _ _ Hvi) as [[] Hlt]; [|done].
           pose proof (py_lt_trans _ _ _ Hlt Hcmp) as Hvb.
           rewrite (Hmin v Hv) in Hvb. done.
        -- subst v. apply py_lt_irrefl. apply Hc; set_solver.
      * apply elem_of_app in Hv as [Hv|Hv%list_elem_of_singleton]; [auto|].
        by subst v.
Qed.

Lemma max_loop_spec rest : ∀ best seen,
  comparable (seen ++ rest) →
  best ∈ seen → (∀ v, v ∈ seen → py_lt best v = Ok false) →
  ∃ m, max_loop best rest = Ok m ∧ is_maximum m (seen ++ rest).
Proof.
  induction rest as [|item rest IH]; intros best seen Hc Hin Hmax; simpl.
  - exists best. rewrite app_nil_r. by split.
  - assert (Hib : same_kind best item = true).
    { apply Hc; set_solver. }
    destruct (py_lt_same_kind _ _ Hib) as [c Hcmp]. rewrite Hcmp. simpl.
    replace (seen ++ item :: rest) with ((seen ++ [item]) ++ rest) in *
      by by rewrite <-app_assoc.
    apply IH; [done| |].
    + destruct c; set_solver.
    + intros v Hv. destruct c.
      * apply elem_of_app in Hv as [Hv|Hv%list_elem_of_singleton].
        -- assert (Hvi : same_kind item v = true) by (apply Hc; set_solver).
           destruct (py_lt_same_kind _ _ Hvi) as [[] Hlt]; [|done].
           pose proof (py_lt_trans _ _ _ Hcmp Hlt) as Hvb.
           rewrite (Hmax v Hv) in Hvb. done.
        -- subst v. apply py_lt_irrefl. apply Hc; set_solver.
      * apply elem_of_app in Hv as [Hv|Hv%list_elem_of_singleton]; [auto|].
        by subst v.
Qed.

Lemma py_min_spec vs :
  vs ≠ [] → comparable vs → ∃ m, py_min vs = Ok m ∧ is_minimum m vs.
Proof.
  destruct vs as [|x xs]; [done|]. intros _ Hc. simpl.
  apply (min_loop_spec xs x [x]); [done|set_solver|].
  intros v ->%list_elem_of_singleton. apply py_lt_irrefl, Hc; set_solver.
Qed.

Lemma py_max_spec vs :
  vs ≠ [] → comparable vs → ∃ m, py_max vs = Ok m ∧ is_maximum m vs.
Proof.
  destruct vs as [|x xs]; [done|]. intros _ Hc. simpl.
  apply (max_loop_spec xs x [x]); [done|set_solver|].
  intros v ->%list_elem_of_singleton. apply py_lt_irrefl, Hc; set_solver.
Qed.

End order_facts.

Section aggregate_facts.

Lemma agg_lookup_append k k' v agg :
  agg_lookup k (agg_append k' v agg) =
    if decide (k' = k) then Some (default [] (agg_lookup k agg) ++ [v])
    else agg_lookup k agg.
Proof.
  induction agg as [|[k0 vs] agg IH]; simpl.
  - by destruct (decide (k' = k)).
  - destruct (decide (k0 = k')) as [->|Hne]; simpl.
    + by destruct (decide (k' = k)).
    + destruct (decide (k0 = k)) as [->|]; [by rewrite decide_False|done].
Qed.

Lemma agg_wf_append k v agg : agg_wf agg → agg_wf (agg_append k v agg).
Proof.
  intros Hwf k0. rewrite agg_lookup_append.
  destruct (decide (k = k0)); [|apply Hwf].
  intros [= H]. by destruct (default [] (agg_lookup k0 agg)).
Qed.

Lemma agg_keys_append k0 k v agg :
  k0 ∈ (agg_append k v agg).*1 ↔ k0 = k ∨ k0 ∈ agg.*1.
Proof.
  induction agg as [|[k1 vs] agg IH]; simpl.
  - rewrite list_elem_of_singleton, elem_of_nil. tauto.
  - destruct (decide (k1 = k)) as [->|Hne]; simpl.
    + rewrite elem_of_cons. tauto.
    + rewrite !elem_of_cons, IH. tauto.
Qed.

Lemma agg_NoDup_append k v agg : NoDup agg.*1 → NoDup (agg_append k v agg).*1.
Proof.
  induction agg as [|[k1 vs] agg IH]; simpl; intros Hnd.
  - apply NoDup_singleton.
  - destruct (decide (k1 = k)) as [->|Hne]; simpl; [done|].
    apply NoDup_cons in Hnd as [Hnin Hnd]. apply NoDup_cons. split; [|auto].
    rewrite agg_keys_append. intros [?|?]; [congruence|done].
Qed.

Lemma agg_extend_spec k block : ∀ agg,
  agg_wf agg → NoDup agg.*1 →
  agg_wf (agg_extend block agg) ∧ NoDup (agg_extend block agg).*1 ∧
  default [] (agg_lookup k (agg_extend block agg)) =
    default [] (agg_lookup k agg) ++ column k block.
Proof.
  unfold agg_extend, column.
  induction block as [|[k0 v0] block IH]; intros agg Hwf Hnd; simpl.
  - by rewrite app_nil_r.
  - destruct (IH (agg_append k0 v0 agg)) as (Hwf' & Hnd' & Heq);
      [by apply agg_wf_append|by apply agg_NoDup_append|].
    split_and!; [done..|]. rewrite Heq, agg_lookup_append.
    rewrite filter_cons. simpl.
    destruct (decide (k0 = k)) as [->|]; simpl; [|done].
    by rewrite <-app_assoc.
Qed.

Lemma collect_blocks_spec k blocks : ∀ agg,
  agg_wf agg → NoDup agg.*1 →
  let agg' := foldl (fun a b => agg_extend b a) agg blocks in
  agg_wf agg' ∧ NoDup agg'.*1 ∧
  default [] (agg_lookup k agg') = default [] (agg_lookup k agg) ++ values_of k blocks.
Proof.
  unfold values_of.
  induction blocks as [|b blocks IH]; intros agg Hwf Hnd; simpl.
  - by rewrite app_nil_r.
  - destruct (agg_extend_spec k b agg Hwf Hnd) as (Hwf1 & Hnd1 & Heq1).
    destruct (IH (agg_extend b agg) Hwf1 Hnd1) as (Hwf2 & Hnd2 & Heq2).
    split_and!; [done..|]. simpl in Heq2. rewrite Heq2, Heq1.
    rewrite filter_app, fmap_app. by rewrite <-app_assoc.
Qed.

Lemma block_of_Some step_output b :
  block_of step_output = Some b →
  encodes_failure step_output = None ∧
  getitem step_output WeatheringOutput = Ok (PDict b).
Proof.
  destruct step_output as [| | |d| | | |]; try done. simpl.
  destruct (dict_get WeatheringOutput d) as [[]|]; try done.
  by intros [= ->].
Qed.

Lemma collect_spec steps blocks : ∀ agg,
  Forall2 (fun s b => block_of s = Some b) steps blocks →
  collect steps agg = Ok (foldl (fun a b => agg_extend b a) agg blocks).
Proof.
  intros agg H. revert agg.
  induction H as [|s b steps blocks Hb _ IH]; intros agg; simpl; [done|].
  destruct (block_of_Some _ _ Hb) as [-> ->]. simpl. apply IH.
Qed.

Lemma attach_workers_spec steps blocks : ∀ idx base,
  Forall2 (fun s b => block_of s = Some b) steps blocks →
  (∀ j, (idx ≤ j)%nat → dict_get (KInt j) base = None) →
  attach_workers idx steps base =
    Ok (base ++ imap (fun i b => (KInt (idx + i), PDict b)) blocks).
Proof.
  intros idx base H. revert idx base.
  induction H as [|s b steps blocks Hb _ IH]; intros idx base Hfresh; simpl.
  - by rewrite app_nil_r.
  - destruct (block_of_Some _ _ Hb) as [_ ->]. simpl.
    rewrite dict_set_fresh by (apply Hfresh; lia).
    rewrite IH.
    + rewrite <-app_assoc. simpl. rewrite Nat.add_0_r. do 3 f_equal.
      apply imap_ext. intros i x _. simpl. do 2 f_equal. lia.
    + intros j Hj. rewrite dict_get_app, Hfresh by lia. simpl.
      rewrite decide_False; [done|]. intros [= ?]. lia.
Qed.

Lemma agg_lookup_None k (agg : list (key * list pyval)) :
  k ∉ agg.*1 → agg_lookup k agg = None.
Proof.
  induction agg as [|[k0 vs] agg IH]; simpl; [done|].
  intros Hnin. destruct (decide (k0 = k)) as [->|].
  - exfalso. apply Hnin. by left.
  - apply IH. intros ?. apply Hnin. by right.
Qed.

Lemma low_high_spec agg : ∀ low high,
  NoDup agg.*1 →
  (∀ k vs, agg_lookup k agg = Some vs → vs ≠ [] ∧ comparable vs) →
  ∃ low' high', low_high agg low high = Ok (low', high') ∧
    ∀ k, match agg_lookup k agg with
         | Some vs => ∃ lo hi, dict_get k low' = Some lo ∧ is_minimum lo vs ∧
                               dict_get k high' = Some hi ∧ is_maximum hi vs
         | None => dict_get k low' = dict_get k low ∧
                   dict_get k high' = dict_get k high
         end.
Proof.
  induction agg as [|[k0 vs0] agg IH]; intros low high Hnd Hcmp; simpl.
  - by exists low, high.
  - apply NoDup_cons in Hnd as [Hnin Hnd].
    destruct (Hcmp k0 vs0) as [Hne Hc]; [simpl; by rewrite decide_True|].
    destruct (py_min_spec vs0 Hne Hc) as (lo & -> & Hlo).
    destruct (py_max_spec vs0 Hne Hc) as (hi & -> & Hhi). simpl.
    destruct (IH (dict_set k0 lo low) (dict_set k0 hi high) Hnd)
      as (low' & high' & -> & Hspec).
    { intros k vs Hk. apply (Hcmp k). simpl.
      destruct (decide (k0 = k)) as [->|]; [|done].
      by rewrite agg_lookup_None in Hk. }
    exists low', high'. split; [done|]. intros k. specialize (Hspec k).
    destruct (decide (k0 = k)) as [->|Hne'].
    + rewrite agg_lookup_None in Hspec by done.
      destruct Hspec as [-> ->]. exists lo, hi.
      by rewrite !dict_get_set_eq.
    + destruct (agg_lookup k agg); [done|].
      destruct Hspec as [-> ->]. by rewrite !dict_get_set_ne.
Qed.

Lemma comparable_values_of blocks k :
  comparable_columns blocks = true → comparable (values_of k blocks).
Proof.
  unfold comparable_columns, values_of, comparable.
  rewrite forallb_forall. intros H a b Ha Hb.
  apply list_elem_of_fmap in Ha as ([ka va] & -> & Ha).
  apply list_elem_of_fmap in Hb as ([kb vb] & -> & Hb).
  apply list_elem_of_filter in Ha as [Hka Ha], Hb as [Hkb Hb]. simpl in *.
  apply list_elem_of_In in Ha, Hb.
  specialize (H _ Ha). rewrite forallb_forall in H. specialize (H _ Hb).
  simpl in H. rewrite decide_True in H by congruence. done.
Qed.

End aggregate_facts.

(** C2: with workers present, the nominal record holding the weathering
    block, and every fragment well-formed (none encodes a failure), the step
    record gets the combined block: time stamp and nominal block of the
    nominal record, [low] and [high], then each worker index with its
    fragment's block.  [low] and [high] hold exactly the keys occurring in
    the fragments' blocks, mapped to the minimum and to the maximum of the
    key's values across the fragments. *)
Theorem aggregate_low_high
    (steps : list pyval) (blocks : list dict) (output nominal : dict)
    (ts : pyval) (begin begin_uncertain end_ : Z) :
  steps ≠ [] →
  mapM block_of steps = Some blocks →
  comparable_columns blocks = true →
  dict_get WeatheringOutput output = Some (PDict nominal) →
  dict_get "time_stamp" nominal = Some ts →
  ∃ low high : dict,
    aggregate_step (Some steps) output begin begin_uncertain end_ =
      Ok (dict_set "total_response_time" (PNum (end_ - begin))
           (dict_set "uncertain_response_time" (PNum (end_ - begin_uncertain))
             (dict_set WeatheringOutput
                (PDict ([(KStr "time_stamp", ts); (KStr "nominal", PDict nominal);
                         (KStr "low", PDict low); (KStr "high", PDict high)]
                        ++ imap (fun i b => (KInt i, PDict b)) blocks))
                output)))
    ∧ ∀ k, match values_of k blocks with
           | [] => dict_get k low = None ∧ dict_get k high = None
           | vs => ∃ lo hi, dict_get k low = Some lo ∧ is_minimum lo vs ∧
                            dict_get k high = Some hi ∧ is_maximum hi vs
           end.
Proof.
  intros Hsteps Hblocks%mapM_Some Hcmp Hnom Hts.
  unfold aggregate_step, dict_has. rewrite Hnom.
  destruct steps as [|s0 steps0] eqn:Es; [done|]. rewrite <-Es in *. clear Hsteps.
  replace (workers_present (Some steps)) with true by by rewrite Es.
  cbn [andb getitem default]. rewrite Hnom. cbn [mbind result_bind id].
  rewrite (collect_spec steps blocks [] Hblocks). cbn [mbind result_bind].
  set (agg := foldl (fun a b => agg_extend b a) [] blocks).
  assert (Hagg : ∀ k, agg_wf agg ∧ NoDup agg.*1 ∧
                      default [] (agg_lookup k agg) = values_of k blocks).
  { intros k. apply (collect_blocks_spec k blocks []); [done|constructor]. }
  destruct (low_high_spec agg [] []) as (low & high & Hlh & Hspec).
  { apply (Hagg (KInt 0)). }
  { intros k vs Hk. destruct (Hagg k) as (Hwf & _ & Hv). split.
    - intros ->. by apply (Hwf k).
    - rewrite Hk in Hv. simpl in Hv. subst vs. by apply comparable_values_of. }
  rewrite Hlh. cbn [mbind result_bind fst snd getitem]. rewrite Hts.
  cbn [mbind result_bind].
  rewrite (attach_workers_spec steps blocks 0 _ Hblocks) by done.
  cbn [mbind result_bind].
  exists low, high. split; [done|].
  intros k. specialize (Hspec k). destruct (Hagg k) as (Hwf & _ & Hv).
  destruct (agg_lookup k agg) as [vs|] eqn:Hk; simpl in Hv; subst.
  - destruct (values_of k blocks) eqn:E; [by destruct (Hwf k)|done].
  - rewrite <-Hv. done.
Qed.

Lemma aggregate_low_high_witness :
  ∃ low high : dict,
    aggregate_step (Some [fragment_a 1; fragment_a 3; fragment_a 2])
      nominal_record 10 12 15 =
      Ok (dict_set "total_response_time" (PNum (15 - 10))
           (dict_set "uncertain_response_time" (PNum (15 - 12))
             (dict_set WeatheringOutput
                (PDict ([(KStr "time_stamp", PStr "2013-02-13T09:00:00");
                         (KStr "nominal",
                          PDict [(KStr "time_stamp", PStr "2013-02-13T09:00:00");
                                 (KStr "a", PNum 2)]);
                         (KStr "low", PDict low); (KStr "high", PDict high)]
                        ++ imap (fun i b => (KInt i, PDict b))
                             [[(KStr "a", PNum 1)]; [(KStr "a", PNum 3)];
                              [(KStr "a", PNum 2)]]))
                nominal_record)))
    ∧ ∀ k, match values_of k [[(KStr "a", PNum 1)]; [(KStr "a", PNum 3)];
                               [(KStr "a", PNum 2)]] with
           | [] => dict_get k low = None ∧ dict_get k high = None
           | vs => ∃ lo hi, dict_get k low = Some lo ∧ is_minimum lo vs ∧
                            dict_get k high = Some hi ∧ is_maximum hi vs
           end.
Proof.
  apply (aggregate_low_high [fragment_a 1; fragment_a 3; fragment_a 2]);
    [discriminate | reflexivity | reflexivity | reflexivity | reflexivity].
Defined.

(** The example of the specification: fragments [{a:1}], [{a:3}], [{a:2}]
    give [low.a = 1] and [high.a = 3]. *)
Example aggregate_example :
  ∃ out full low high,
    aggregate_step (Some [fragment_a 1; fragment_a 3; fragment_a 2])
      nominal_record 10 12 15 = Ok out ∧
    dict_get WeatheringOutput out = Some (PDict full) ∧
    dict_get "low" full = Some (PDict low) ∧ dict_get "a" low = Some (PNum 1) ∧
    dict_get "high" full = Some (PDict high) ∧ dict_get "a" high = Some (PNum 3).
Proof. do 4 eexists. vm_compute. repeat split; reflexivity. Qed.

(** C9, as the code has it: whenever the nominal record holds the weathering
    block, the step record gets both response-time metrics, with or without
    uncertainty workers; a record without the block is passed on as the model
    returned it. *)
Theorem response_time_metrics
    (steps : option (list pyval)) (output output' : dict)
    (begin begin_uncertain end_ : Z) :
  aggregate_step steps output begin begin_uncertain end_ = Ok output' →
  if dict_has WeatheringOutput output then
    dict_get "uncertain_response_time" output' = Some (PNum (end_ - begin_uncertain))
    ∧ dict_get "total_response_time" output' = Some (PNum (end_ - begin))
  else output' = output.
Proof.
  unfold aggregate_step.
  destruct (dict_has WeatheringOutput output); [|rewrite andb_false_r; congruence].
  rewrite andb_true_r.
  assert (Hset : ∀ d,
    dict_get "uncertain_response_time"
      (dict_set "total_response_time" (PNum (end_ - begin))
        (dict_set "uncertain_response_time" (PNum (end_ - begin_uncertain)) d))
      = Some (PNum (end_ - begin_uncertain))
    ∧ dict_get "total_response_time"
      (dict_set "total_response_time" (PNum (end_ - begin))
        (dict_set "uncertain_response_time" (PNum (end_ - begin_uncertain)) d))
      = Some (PNum (end_ - begin))).
  { intros d. by rewrite dict_get_set_ne, !dict_get_set_eq. }
  destruct (workers_present steps).
  - destruct (getitem (PDict output) WeatheringOutput) as [nominal|]; [|done].
    cbn [mbind result_bind].
    destruct (collect _ _) as [agg|]; [|done]. cbn [mbind result_bind].
    destruct (low_high _ _ _) as [lh|]; [|done]. cbn [mbind result_bind].
    destruct (getitem nominal "time_stamp") as [ts|]; [|done].
    cbn [mbind result_bind].
    destruct (attach_workers _ _ _) as [full|]; [|done]. cbn [mbind result_bind].
    intros [= <-]. apply Hset.
  - destruct (getitem (PDict output) WeatheringOutput) as [nominal|]; [|done].
    cbn [mbind result_bind].
    destruct (getitem nominal "time_stamp") as [ts|]; [|done].
    cbn [mbind result_bind].
    intros [= <-]. apply Hset.
Qed.

Lemma response_time_metrics_witness :
  dict_get "uncertain_response_time"
    (dict_set "total_response_time" (PNum 5)
      (dict_set "uncertain_response_time" (PNum 3)
        (dict_set WeatheringOutput
           (PDict [(KStr "time_stamp", PStr "2013-02-13T09:00:00");
                   (KStr "nominal",
                    PDict [(KStr "time_stamp", PStr "2013-02-13T09:00:00");
                           (KStr "a", PNum 2)]);
                   (KStr "low", PNone); (KStr "high", PNone)])
           nominal_record))) = Some (PNum (15 - 12))
  ∧ dict_get "total_response_time"
    (dict_set "total_response_time" (PNum 5)
      (dict_set "uncertain_response_time" (PNum 3)
        (dict_set WeatheringOutput
           (PDict [(KStr "time_stamp", PStr "2013-02-13T09:00:00");
                   (KStr "nominal",
                    PDict [(KStr "time_stamp", PStr "2013-02-13T09:00:00");
                           (KStr "a", PNum 2)]);
                   (KStr "low", PNone); (KStr "high", PNone)])
           nominal_record))) = Some (PNum (15 - 10)).
Proof.
  apply (response_time_metrics None nominal_record _ 10 12 15). reflexivity.
Defined.

(** C9 fails as stated: without uncertainty workers, a record holding the
    weathering block still gets both response-time metrics. *)
Lemma metrics_without_workers :
  workers_present None = false ∧
  ∃ output',
    aggregate_step None nominal_record 10 12 15 = Ok output' ∧
    dict_get "uncertain_response_time" output' = Some (PNum 3) ∧
    dict_get "total_response_time" output' = Some (PNum 5).
Proof. split; [reflexivity|]. eexists. vm_compute. repeat split; reflexivity. Qed.

(* ===================================================================== *)
(** ** The stepping loop                                                  *)
(* ===================================================================== *)

(** Unfold the monad of stateful code down to state passing. *)
Ltac st_unfold :=
  unfold mbind, ST_bind, mret, ST_ret, gets, modify, lift, py_raise, try_ in *.

Section task_facts.
Implicit Types (cf : config) (w : world) (e : exc).

Lemma reaches_step_loop cf script w script' w' :
  reaches cf script w script' w' →
  step_loop cf script w = step_loop cf script' w'.
Proof.
  induction 1 as [|entry rest w w1 script' w' Hit _ IH]; [done|].
  cbn [step_loop]. unfold mbind at 1, ST_bind. by rewrite Hit.
Qed.

(** A pass in which the model yields a record: the inner [try] is the
    aggregation of that record with the workers' results. *)
Lemma inner_try_output cf output dt w :
  inner_try cf (Some (StepOutput output dt)) w =
    (aggregate_step (workers_in_pass cf w) output (w_now w) (w_now w + dt)
       (if uncertain_in_pass cf w then w_now w + dt + workers_duration cf
        else w_now w + dt),
     after_step cf dt w).
Proof.
  destruct w as [evs sess gate t unc kp env now copy].
  unfold after_step, workers_in_pass, uncertain_in_pass, inner_try,
    drop_uncertain_models, set_uncertain_models, time_time, model_step,
    get_uncertain_steps.
  st_unfold. cbn. destruct (bool_decide (t = -1)); cbn;
    [destruct (has_weathering_uncertainty cf)|destruct unc]; reflexivity.
Qed.

Lemma with_traceback_class e tb e' :
  with_traceback e tb = Ok e' →
  exc_cls e' = exc_cls e ∧ exc_message e' = exc_message e.
Proof. destruct tb; try done; by intros [= <-]. Qed.

(** The first loop stops at the first fragment that encodes a failure. *)
Lemma collect_failure pre x e tb more post e' : ∀ agg,
  Forall (fun s => is_Some (block_of s)) pre →
  isinstance_Exception e = true →
  with_traceback e tb = Ok e' →
  collect (pre ++ PTuple (x :: PExc e :: tb :: more) :: post) agg = Raise e'.
Proof.
  intros agg Hpre He Htb. revert agg.
  induction Hpre as [|s pre [b Hb] _ IH]; intros agg; simpl.
  - by rewrite He, Htb.
  - destruct (block_of_Some _ _ Hb) as [-> ->]. simpl. apply IH.
Qed.

Lemma aggregate_step_failure pre x e tb more post e' output t0 t1 t2 :
  Forall (fun s => is_Some (block_of s)) pre →
  isinstance_Exception e = true →
  with_traceback e tb = Ok e' →
  dict_has WeatheringOutput output = true →
  aggregate_step (Some (pre ++ PTuple (x :: PExc e :: tb :: more) :: post))
    output t0 t1 t2 = Raise e'.
Proof.
  intros Hpre He Htb Hwo. unfold aggregate_step. rewrite Hwo.
  replace (workers_present _) with true by by destruct pre.
  cbn [andb]. unfold dict_has in Hwo. unfold getitem.
  destruct (dict_get WeatheringOutput output); [|done].
  cbn [mbind result_bind default from_option id].
  by rewrite (collect_failure pre x e tb more post e').
Qed.

Lemma finally_clause_spec w :
  finally_clause w =
    if finally_ok w then (Ok tt, set_session (w_copy w) w)
    else (Raise (Exc KeyError "" None), w).
Proof.
  unfold finally_clause, finally_ok.
  unfold mbind at 1, ST_bind, gets. unfold mbind at 1, ST_bind.
  generalize (w_copy w) at 1 2 as copy. intros copy.
  induction (w_session w) as [|[k v] sess IH]; [done|].
  cbn [for_each forallb]. unfold dict_has. cbn [fst].
  destruct (dict_get k copy); [|done]. simpl in *.
  unfold mbind, ST_bind in *. simpl in *. apply IH.
Qed.

(** The run, phase by phase. *)
Lemma execute_async_model_unfold cf script w0 :
  execute_async_model cf script w0 =
    let '(r, w1) := try_body cf script (set_copy (w_session w0) w0) in
    let '(r', w2) := except_clauses cf r w1 in
    let '(f, w3) := finally_clause w2 in
    match f, r' with
    | Raise e, _ => (Raise e, w3)
    | Ok _, Ok _ => Task.emit "complete" (PStr "Model run completed") None w3
    | Ok _, Raise e => (Raise e, w3)
    end.
Proof.
  unfold execute_async_model. st_unfold.
  destruct (try_body _ _ _) as [r w1].
  destruct (except_clauses cf r w1) as [r' w2].
  destruct (finally_clause w2) as [[[]|?] w3]; [|done]. by destruct r'.
Qed.

Lemma except_clauses_failure cf e w :
  isinstance_GreenletExit e = false →
  except_clauses cf (Raise e) w =
    (Raise e, Task.set_events (w_events w ++
       [Event "runtimeError" (PStr (exc_message e)) (Some (sockid cf))]) w).
Proof.
  intros Hge. unfold except_clauses. rewrite Hge. st_unfold.
  unfold json_exception, getitem. cbn [dict_get].
  rewrite decide_True by done. reflexivity.
Qed.

Lemma except_clauses_killed cf e w :
  isinstance_GreenletExit e = true →
  except_clauses cf (Raise e) w =
    (Raise e, Task.set_events (w_events w ++
       [Event "killed" (PStr "Model run terminated early") (Some (sockid cf))]) w).
Proof. intros Hge. unfold except_clauses. by rewrite Hge. Qed.

End task_facts.

Section worker_failure.
Implicit Types (cf : config) (w : world) (e : exc).

(** A pass whose workers encode a failure raises it before anything is
    sent for the step. *)
Lemma iteration_failure cf output dt w pre x e tb more post e' :
  workers_in_pass cf w = Some (pre ++ PTuple (x :: PExc e :: tb :: more) :: post) →
  Forall (fun s => is_Some (block_of s)) pre →
  isinstance_Exception e = true →
  isinstance_StopIteration e = false →
  with_traceback e tb = Ok e' →
  dict_has WeatheringOutput output = true →
  iteration cf (Some (StepOutput output dt)) w = (Raise e', after_step cf dt w).
Proof.
  intros Hw Hpre He Hstop Htb Hwo. unfold iteration.
  unfold mbind at 1, ST_bind, try_. rewrite inner_try_output, Hw.
  rewrite (aggregate_step_failure pre x e tb more post e') by done.
  destruct (with_traceback_class _ _ _ Htb) as [Hcls _].
  unfold isinstance_StopIteration in *. rewrite Hcls.
  by destruct (exc_cls e).
Qed.

(** C3, as the code has it.  In a pass whose nominal record holds the
    weathering block, let the workers' results be well-formed fragments up
    to a first one that encodes a failure [e], not a [StopIteration], with
    its context [tb].  Then nothing is emitted for the step; the task emits
    [runtimeError] with the message of [e] and ends by raising [e] with
    its context, unless the diff of the [finally] clause fails. *)
Theorem worker_failure_fails_the_task
    cf script w0 w1 w output dt rest pre x e tb more post e' :
  startup cf (set_copy (w_session w0) w0) = (Ok tt, w1) →
  reaches cf script w1 (StepOutput output dt :: rest) w →
  workers_in_pass cf w = Some (pre ++ PTuple (x :: PExc e :: tb :: more) :: post) →
  Forall (fun s => is_Some (block_of s)) pre →
  isinstance_Exception e = true →
  isinstance_StopIteration e = false →
  with_traceback e tb = Ok e' →
  dict_has WeatheringOutput output = true →
  w_events (execute_async_model cf script w0).2 =
    w_events w ++ [Event "runtimeError" (PStr (exc_message e)) (Some (sockid cf))]
  ∧ (execute_async_model cf script w0).1 =
      Raise (if finally_ok w then e' else Exc KeyError "" None).
Proof.
  intros Hstart Hreach Hw Hpre He Hstop Htb Hwo.
  pose proof (iteration_failure cf output dt w pre x e tb more post e'
                Hw Hpre He Hstop Htb Hwo) as Hit.
  destruct (with_traceback_class _ _ _ Htb) as [Hcls Hmsg].
  assert (Hbody : try_body cf script (set_copy (w_session w0) w0)
                  = (Raise e', after_step cf dt w)).
  { unfold try_body. unfold mbind at 1, ST_bind. rewrite Hstart.
    rewrite (reaches_step_loop _ _ _ _ _ Hreach). cbn [step_loop].
    unfold mbind at 1, ST_bind. by rewrite Hit. }
  assert (Hge : isinstance_GreenletExit e' = false).
  { unfold isinstance_GreenletExit, isinstance_Exception in *.
    rewrite Hcls. by destruct (exc_cls e). }
  rewrite execute_async_model_unfold, Hbody, except_clauses_failure by done.
  rewrite finally_clause_spec.
  replace (finally_ok _) with (finally_ok w) by by destruct w.
  rewrite Hmsg. destruct (finally_ok w); by destruct w.
Qed.

End worker_failure.

Lemma worker_failure_fails_the_task_witness :
  event_names (execute_async_model cf_failing
     [StepOutput spill_record 1; StepOutput nominal_record 3] (world0 true [])).2
    = ["prepared"; "step"; "runtimeError"]
  ∧ (execute_async_model cf_failing
       [StepOutput spill_record 1; StepOutput nominal_record 3] (world0 true [])).1
    = Raise (Exc (OtherError "ValueError") "worker blew up" (Some "worker.py, line 12")).
Proof.
  pose (w1 := (startup cf_failing (Task.set_copy session0 (world0 true []))).2).
  pose (w := (iteration cf_failing (Some (StepOutput spill_record 1)) w1).2).
  destruct (worker_failure_fails_the_task cf_failing
              [StepOutput spill_record 1; StepOutput nominal_record 3]
              (world0 true []) w1 w nominal_record 3 [] [fragment_a 1] PNone
              worker_error (PTraceback "worker.py, line 12") [] []
              (Exc (OtherError "ValueError") "worker blew up"
                 (Some "worker.py, line 12"))) as [Hev Hres].
  - reflexivity.
  - eapply reaches_next; [reflexivity|apply reaches_here].
  - reflexivity.
  - repeat constructor. by eexists.
  - reflexivity.
  - reflexivity.
  - reflexivity.
  - reflexivity.
  - split; [unfold event_names; rewrite Hev; reflexivity|rewrite Hres; reflexivity].
Defined.

(** C3 fails as stated: the workers are present and one of their results
    encodes a failure, but the nominal record holds no weathering block; the
    failure is dropped, the step is sent and the run completes. *)
Lemma worker_failure_dropped :
  workers_in_pass cf_failing (world0 true []) = Some [fragment_a 1; failed_fragment]
  ∧ encodes_failure failed_fragment
      = Some (worker_error, PTraceback "worker.py, line 12")
  ∧ (execute_async_model cf_failing [StepOutput spill_record 1] (world0 true [])).1
      = Ok tt
  ∧ event_names (execute_async_model cf_failing [StepOutput spill_record 1]
                   (world0 true [])).2
      = ["prepared"; "step"; "complete"].
Proof. repeat split; vm_compute; reflexivity. Qed.

(** A worker failure of class [StopIteration] is taken for the end of the
    model: the loop breaks and the run completes without [runtimeError]. *)
Example worker_stop_iteration_completes :
  encodes_failure (PTuple [PNone; PExc (Exc StopIteration "" None); PNone])
    = Some (Exc StopIteration "" None, PNone)
  ∧ (execute_async_model cf_exhausted_worker [StepOutput nominal_record 3]
       (world0 true [])).1 = Ok tt
  ∧ event_names (execute_async_model cf_exhausted_worker [StepOutput nominal_record 3]
                   (world0 true [])).2 = ["prepared"; "complete"].
Proof. repeat split; vm_compute; reflexivity. Qed.

(* ===================================================================== *)
(** ** The two waits on the Gate                                          *)
(* ===================================================================== *)

(** C7 at a failing input.  The Gate stays clear and nobody acts during the
    start barrier: the task emits [timeout] once and asks for its own kill,
    then goes on into the loop, steps the model ([current_time_step] moves
    from -1 to 0) and emits [step]; the kill is only delivered at the next
    wait on the Gate. *)
Theorem startup_timeout_still_steps :
  let run := execute_async_model cf_stepwise
               [StepOutput spill_record 1; StepOutput spill_record 1]
               (world0 false []) in
  (gate_wait PGate 16 (world0 false [])).1 = Ok false
  ∧ event_names run.2 = ["prepared"; "timeout"; "step"; "killed"]
  ∧ w_time_step run.2 = 0
  ∧ run.1 = Raise GreenletExit_.
Proof. repeat split; vm_compute; reflexivity. Qed.

(** C6 at a failing input.  The client sets the Gate 3 time units into the
    start barrier and never again; the session is stepwise, so the Gate is
    cleared after every step and each wait of 6000 returns false.  No
    [timeout] is emitted and no kill requested: [unlocked] is bound to the
    Event object, which is true, and the run goes on until the model is
    exhausted. *)
Theorem loop_timeout_never_fires :
  let w := world0 false [EnvAction [] (Some 3) false] in
  let pass1 := iteration cf_stepwise (Some (StepOutput spill_record 1))
                 (startup cf_stepwise (Task.set_copy session0 w)).2 in
  let run := execute_async_model cf_stepwise
               [StepOutput spill_record 1; StepOutput spill_record 1] w in
  (gate_wait PGate 6000
     (Task.set_gate false (startup cf_stepwise (Task.set_copy session0 w)).2)).1
    = Ok false
  ∧ truthy PGate = true
  ∧ pass1.1 = Ok true
  ∧ event_names pass1.2 = ["prepared"; "step"]
  ∧ w_kill_pending pass1.2 = false
  ∧ event_names run.2 = ["prepared"; "step"; "step"; "complete"]
  ∧ run.1 = Ok tt.
Proof. repeat split; vm_compute; reflexivity. Qed.

(* ===================================================================== *)
(** ** The exit path                                                      *)
(* ===================================================================== *)

Section preserves.
Context {St : Type} (I : St → Prop).

Lemma preserves_ret {A} (a : A) : preserves I (mret a : ST St A).
Proof. by intros s. Qed.

Lemma preserves_raise {A} e : preserves I (py_raise e : ST St A).
Proof. by intros s. Qed.

Lemma preserves_lift {A} (r : result A) : preserves I (lift r : ST St A).
Proof. by intros s. Qed.

Lemma preserves_gets {A} (f : St → A) : preserves I (gets f).
Proof. by intros s. Qed.

Lemma preserves_modify (f : St → St) :
  (∀ s, I s → I (f s)) → preserves I (modify f).
Proof. intros Hf s. apply Hf. Qed.

Lemma preserves_bind {A B} (m : ST St A) (f : A → ST St B) :
  preserves I m → (∀ a, preserves I (f a)) → preserves I (m ≫= f).
Proof.
  intros Hm Hf s Hs. specialize (Hm s Hs). unfold mbind, ST_bind.
  destruct (m s) as [[a|e] s']; [by apply Hf|done].
Qed.

Lemma preserves_try {A} (m : ST St A) : preserves I m → preserves I (try_ m).
Proof.
  intros Hm s Hs. specialize (Hm s Hs). unfold try_. by destruct (m s).
Qed.

Lemma preserves_for_each {A} (f : A → ST St unit) (xs : list A) :
  (∀ x, preserves I (f x)) → preserves I (for_each f xs).
Proof.
  intros Hf. induction xs as [|x xs IH]; simpl.
  - apply preserves_ret.
  - apply preserves_bind; [apply Hf|by intros _].
Qed.
End preserves.

Section exit_path.
Context (snap : dict) (c0 : nat).
Implicit Types (cf : config) (w : world).

Lemma dict_has_set k k' v (d : dict) :
  dict_has k (dict_set k' v d) = true → k = k' ∨ dict_has k d = true.
Proof.
  unfold dict_has. destruct (decide (k = k')) as [->|Hne]; [by left|].
  rewrite dict_get_set_ne by done. by right.
Qed.

Lemma dict_has_set_known k k' v (d : dict) :
  dict_has k' d = true → dict_has k (dict_set k' v d) = dict_has k d.
Proof.
  unfold dict_has. destruct (decide (k = k')) as [->|Hne].
  - rewrite dict_get_set_eq. by destruct (dict_get k' d).
  - by rewrite dict_get_set_ne.
Qed.

Lemma dict_set_set k v v' (d : dict) :
  dict_set k v (dict_set k v' d) = dict_set k v d.
Proof.
  induction d as [|[k0 v0] d IH]; simpl.
  - by rewrite decide_True.
  - destruct (decide (k0 = k)) as [->|]; simpl.
    + by rewrite decide_True.
    + rewrite decide_False by done. by rewrite IH.
Qed.

Lemma dict_set_same k v (d : dict) :
  dict_get k d = Some v → dict_set k v d = d.
Proof.
  induction d as [|[k0 v0] d IH]; simpl; [done|].
  destruct (decide (k0 = k)) as [->|]; [by intros [= ->]|].
  intros H. by rewrite IH.
Qed.

Lemma dict_has_elem k v (d : dict) : (k, v) ∈ d → dict_has k d = true.
Proof.
  unfold dict_has. induction d as [|[k0 v0] d IH]; simpl.
  - by intros ?%elem_of_nil.
  - intros [[= <- <-]|Hin]%elem_of_cons.
    + by rewrite decide_True.
    + destruct (decide (k0 = k)); [done|by apply IH].
Qed.

Lemma advance_0 : advance 0 snap = snap.
Proof.
  unfold advance. destruct (dict_get "num_sent" snap) as [[]|] eqn:E; try done.
  rewrite Z.add_0_r. by apply dict_set_same.
Qed.

Lemma dict_has_advance n k : dict_has k (advance n snap) = dict_has k snap.
Proof.
  unfold advance. destruct (dict_get "num_sent" snap) as [[]|] eqn:E; try done.
  apply dict_has_set_known. unfold dict_has. by rewrite E.
Qed.

Lemma count_steps_snoc evs ev :
  count_steps (evs ++ [ev]) =
    if decide (ev_name ev = "step") then Datatypes.S (count_steps evs)
    else count_steps evs.
Proof.
  unfold count_steps. rewrite filter_app, length_app, filter_cons, filter_nil.
  destruct (decide (ev_name ev = "step")); simpl; lia.
Qed.

(** Emitting anything but a [step] keeps the invariant. *)
Lemma emit_preserves name data room :
  name ≠ "step" → preserves (run_inv snap c0) (Task.emit name data room).
Proof.
  intros Hne. apply preserves_modify. intros [evs sess g t u kp env now copy].
  unfold run_inv. simpl. rewrite count_steps_snoc. simpl.
  by rewrite decide_False.
Qed.

(** Counting a step and emitting it, together, keep the invariant. *)
Lemma incr_emit_preserves {B} (data : pyval → pyval) (room : option string)
    (k : M B) :
  preserves (run_inv snap c0) k →
  preserves (run_inv snap c0)
    (num_sent ← incr_num_sent; Task.emit "step" (data num_sent) room;; k).
Proof.
  intros Hk w (Hkw & Hkeys & Hle & Hcopy).
  unfold incr_num_sent. st_unfold. unfold getitem. rewrite Hcopy.
  unfold advance at 1.
  destruct (dict_get "num_sent" snap) as [v|] eqn:E.
  - assert (Hv : ∀ n, v = PNum n →
      run_inv snap c0
        (Task.set_events (w_events w ++ [Event "step" (data (PNum (n + Z.of_nat (count_steps (w_events w) - c0) + 1))) room])
           (Task.set_copy (dict_set "num_sent" (PNum (n + Z.of_nat (count_steps (w_events w) - c0) + 1)) (w_copy w)) w))).
    { intros n ->. destruct w as [evs sess g t u kp env now copy].
      unfold run_inv. simpl in *. rewrite count_steps_snoc. simpl.
      split_and!; [done|done|lia|]. rewrite Hcopy. unfold advance. rewrite E.
      rewrite dict_set_set. do 2 f_equal. lia. }
    destruct v; try (rewrite E; simpl; by split_and!).
    rewrite dict_get_set_eq. simpl. specialize (Hv z eq_refl).
    specialize (Hk _ Hv). rewrite <-Hcopy.
    unfold Task.emit, modify.
    destruct (k _) as [[b|e] w']; done.
  - rewrite E. simpl. by split_and!.
Qed.

Lemma suspend_preserves : preserves (run_inv snap c0) suspend.
Proof.
  intros [evs sess g t u kp env now copy] (Hkw & Hkeys & Hle & Hcopy).
  unfold suspend. simpl in *. destruct kp; simpl; [by split_and!|].
  assert (Hinv : run_inv snap c0
    (World evs (foldl (fun d kv => dict_set kv.1 kv.2 d) sess
                  (ea_writes (hd idle env))) g t u false (tl env) now copy)).
  { unfold run_inv. simpl. split_and!; [| |done..].
    - destruct env; [done|]. simpl in Hkw. by apply andb_prop in Hkw as [_ ?].
    - assert (Hw : forallb (fun kv : key * pyval => dict_has kv.1 snap)
                     (ea_writes (hd idle env)) = true).
      { destruct env; [done|]. simpl in Hkw. by apply andb_prop in Hkw as [? _]. }
      revert sess Hkeys.
      induction (ea_writes (hd idle env)) as [|[k0 v0] ws IH]; intros sess Hkeys;
        simpl; [done|].
      simpl in Hw. apply andb_prop in Hw as [Hk0 Hws].
      apply IH; [done|]. intros k [->|?]%dict_has_set; auto. }
  by destruct (ea_kill (hd idle env)).
Qed.

Lemma set_gate_preserves b : preserves (run_inv snap c0) (modify (Task.set_gate b)).
Proof. apply preserves_modify. by intros []. Qed.

Lemma gate_wait_preserves lock timeout :
  preserves (run_inv snap c0) (gate_wait lock timeout).
Proof.
  destruct lock; try apply preserves_lift. unfold gate_wait.
  apply preserves_bind; [apply preserves_gets|]. intros [|].
  - apply preserves_ret.
  - apply preserves_bind; [apply suspend_preserves|]. intros a.
    destruct (ea_gate_set a); [|apply preserves_ret].
    case_bool_decide; [|apply preserves_ret].
    apply preserves_bind; [apply set_gate_preserves|intros _; apply preserves_ret].
Qed.

Lemma gate_clear_preserves lock : preserves (run_inv snap c0) (gate_clear lock).
Proof. destruct lock; try apply preserves_lift. apply set_gate_preserves. Qed.

Lemma sleep_preserves : preserves (run_inv snap c0) sleep.
Proof.
  apply preserves_bind; [apply suspend_preserves|]. intros a.
  destruct (ea_gate_set a); [apply set_gate_preserves|apply preserves_ret].
Qed.

Lemma on_model_kill_preserves : preserves (run_inv snap c0) on_model_kill.
Proof. apply preserves_modify. by intros []. Qed.

Lemma session_getitem_preserves k : preserves (run_inv snap c0) (session_getitem k).
Proof.
  apply preserves_bind; [apply preserves_gets|intros ?; apply preserves_lift].
Qed.

Lemma inner_try_preserves cf entry : preserves (run_inv snap c0) (inner_try cf entry).
Proof.
  unfold inner_try, time_time, drop_uncertain_models, set_uncertain_models,
    get_uncertain_steps, model_step.
  repeat first
    [ apply preserves_gets | apply preserves_ret | apply preserves_lift
    | apply preserves_raise
    | apply preserves_modify; by intros []
    | apply preserves_bind; [|intros ?]
    | case_bool_decide | case_match ].
Qed.

Lemma iteration_preserves cf entry : preserves (run_inv snap c0) (iteration cf entry).
Proof.
  unfold iteration.
  apply preserves_bind; [apply preserves_try, inner_try_preserves|].
  intros [output|e].
  - assert (Hrest : preserves (run_inv snap c0) (
      (if negb (is_async cf)
       then lock ← session_getitem "lock"; gate_clear lock
       else mret tt);;
      lock ← session_getitem "lock";
      _ ← gate_wait lock 6000;
      unlocked ← session_getitem "lock";
      (if negb (truthy unlocked) then
         Task.emit "timeout" (PStr "Model run timed out after 6000 sec")
           (Some (sockid cf));;
         on_model_kill
       else mret tt);;
      sleep;;
      mret true)).
    { repeat first
        [ apply preserves_ret | apply session_getitem_preserves
        | apply gate_wait_preserves | apply gate_clear_preserves
        | apply sleep_preserves | apply on_model_kill_preserves
        | apply emit_preserves; done
        | apply preserves_bind; [|intros ?]
        | case_match ]. }
    destruct (truthy (PDict output) && send_output cf).
    + apply (incr_emit_preserves (fun _ => PDict output)), Hrest.
    + apply (incr_emit_preserves (fun n => n)), Hrest.
  - destruct (isinstance_StopIteration e); [|apply preserves_raise].
    apply preserves_bind; [|intros ?; apply preserves_ret].
    apply preserves_modify. by intros [].
Qed.

Lemma step_loop_preserves cf script : preserves (run_inv snap c0) (step_loop cf script).
Proof.
  induction script as [|entry rest IH]; cbn [step_loop].
  - apply preserves_bind; [apply iteration_preserves|intros ?; apply preserves_ret].
  - apply preserves_bind; [apply iteration_preserves|].
    intros [|]; [apply IH|apply preserves_ret].
Qed.

Lemma try_body_preserves cf script : preserves (run_inv snap c0) (try_body cf script).
Proof.
  unfold try_body, startup.
  repeat first
    [ apply preserves_ret | apply session_getitem_preserves
    | apply gate_wait_preserves | apply on_model_kill_preserves
    | apply step_loop_preserves
    | apply emit_preserves; done
    | apply preserves_bind; [|intros ?]
    | case_match ].
Qed.

Lemma except_clauses_preserves cf r : preserves (run_inv snap c0) (except_clauses cf r).
Proof.
  unfold except_clauses.
  repeat first
    [ apply preserves_ret | apply preserves_raise | apply preserves_lift
    | apply emit_preserves; done
    | apply preserves_bind; [|intros ?]
    | case_match ].
Qed.

Lemma run_inv_finally_ok w : run_inv snap c0 w → finally_ok w = true.
Proof.
  intros (_ & Hkeys & _ & Hcopy). unfold finally_ok.
  apply forallb_forall. intros [k v] Hin%list_elem_of_In. simpl.
  rewrite Hcopy, dict_has_advance. by apply Hkeys, (dict_has_elem k v).
Qed.

End exit_path.

(** The exit path when no key is added to the session during the run: as
    long as the other greenlets write only session keys the snapshot already
    has ([num_sent] among them), the run ends, in whatever terminal state,
    with the stored session equal to the snapshot taken at entry with only
    [num_sent] advanced by the number of [step] events of this run; what
    others wrote meanwhile is overwritten. *)
Theorem exit_writes_back_snapshot (cf : config) (script : list step_result)
    (w0 : world) :
  known_writes (w_session w0) (w_env w0) = true →
  w_session (execute_async_model cf script w0).2 =
    advance (count_steps (w_events (execute_async_model cf script w0).2)
             - count_steps (w_events w0))
      (w_session w0).
Proof.
  intros Hkw. set (snap := w_session w0). set (c0 := count_steps (w_events w0)).
  assert (H0 : run_inv snap c0 (Task.set_copy snap w0)).
  { unfold run_inv. destruct w0; simpl in *. subst snap c0. simpl.
    split_and!; [done|done|lia|]. by rewrite Nat.sub_diag, advance_0. }
  rewrite execute_async_model_unfold. fold snap.
  pose proof (try_body_preserves snap c0 cf script _ H0) as H1.
  destruct (try_body cf script _) as [r w1]. simpl in H1.
  pose proof (except_clauses_preserves snap c0 cf r _ H1) as H2.
  destruct (except_clauses cf r w1) as [r' w2]. simpl in H2.
  rewrite finally_clause_spec, (run_inv_finally_ok snap c0 w2 H2).
  destruct H2 as (_ & _ & _ & Hcopy).
  destruct r'; destruct w2; simpl in *; [|done].
  by rewrite count_steps_snoc.
Qed.

(** A rewind during the run: while the task waits for the next step, the
    handler resets [num_sent] to 0 and kills it; the exit path stores the
    snapshot with its own count over the reset. *)
Lemma exit_writes_back_snapshot_witness :
  known_writes session0
    [EnvAction [] (Some 3) false;
     EnvAction [(KStr "num_sent", PNum 0)] None true] = true
  ∧ (execute_async_model cf_stepwise
       [StepOutput spill_record 1; StepOutput spill_record 1]
       (world0 false [EnvAction [] (Some 3) false;
                      EnvAction [(KStr "num_sent", PNum 0)] None true])).1
    = Raise GreenletExit_
  ∧ w_session (execute_async_model cf_stepwise
       [StepOutput spill_record 1; StepOutput spill_record 1]
       (world0 false [EnvAction [] (Some 3) false;
                      EnvAction [(KStr "num_sent", PNum 0)] None true])).2
    = [(KStr "num_sent", PNum 1); (KStr "lock", PGate)].
Proof.
  split; [reflexivity|]. split; [reflexivity|].
  rewrite (exit_writes_back_snapshot cf_stepwise
             [StepOutput spill_record 1; StepOutput spill_record 1]
             (world0 false [EnvAction [] (Some 3) false;
                            EnvAction [(KStr "num_sent", PNum 0)] None true]));
    reflexivity.
Defined.

(** C10 at a failing input: a handler adds the key [ack] to the session
    while the task waits.  The model is then exhausted and the loop ends
    cleanly, but the diff of the [finally] clause looks [ack] up in the
    snapshot and raises [KeyError]: the snapshot is not written back, the
    stored session keeps the handler's writes, and [complete] is never
    emitted. *)
Theorem exit_skips_write_back :
  let w0 := world0 false
              [EnvAction [] (Some 3) false;
               EnvAction [(KStr "ack", PNum 1); (KStr "num_sent", PNum 0)]
                 (Some 5) false] in
  let run := execute_async_model cf_stepwise [StepOutput spill_record 1] w0 in
  run.1 = Raise (Exc KeyError "" None)
  ∧ event_names run.2 = ["prepared"; "step"]
  ∧ w_session run.2 =
      [(KStr "num_sent", PNum 0); (KStr "lock", PGate); (KStr "ack", PNum 1)]
  ∧ w_session run.2 ≠ advance 1 (w_session w0).
Proof. repeat split; vm_compute; try reflexivity. discriminate. Qed.

(* ===================================================================== *)
(** ** The wait in the loop                                               *)
(* ===================================================================== *)

Section loop_wait.
Context (cf : config).
Implicit Types (w : world).

(** Under the invariant, [sock_session['lock']] is the Gate. *)
Lemma session_lock_bind {B} (f : pyval → M B) :
  preserves (gate_inv cf) (f PGate) →
  preserves (gate_inv cf) (lock ← session_getitem "lock"; f lock).
Proof.
  intros Hf w Hw. unfold session_getitem. st_unfold. unfold getitem.
  destruct Hw as (Hlock & Hrest). rewrite Hlock. cbn [fst snd].
  by apply Hf.
Qed.

Lemma emit_gate_inv name data room :
  Event name data room ≠ loop_timeout cf →
  preserves (gate_inv cf) (Task.emit name data room).
Proof.
  intros Hne. apply preserves_modify. intros [evs sess g t u kp env now copy].
  unfold gate_inv. simpl. intros (? & ? & ? & Hev). split_and!; [done..|].
  intros [?|Hin%list_elem_of_singleton]%elem_of_app; [done|]. by apply Hne.
Qed.

Lemma suspend_gate_inv : preserves (gate_inv cf) suspend.
Proof.
  intros [evs sess g t u kp env now copy] (Hlock & Hcopy & Henv & Hev).
  unfold suspend. simpl in *. destruct kp; simpl; [by split_and!|].
  assert (Hinv : gate_inv cf
    (World evs (foldl (fun d kv => dict_set kv.1 kv.2 d) sess
                  (ea_writes (hd idle env))) g t u false (tl env) now copy)).
  { unfold gate_inv. simpl. split_and!; [|done| |done].
    - assert (Hw : forallb (fun kv : key * pyval =>
                              negb (bool_decide (kv.1 = KStr "lock")))
                     (ea_writes (hd idle env)) = true).
      { destruct env; [done|]. simpl in Henv. by apply andb_prop in Henv as [? _]. }
      revert sess Hlock.
      induction (ea_writes (hd idle env)) as [|[k0 v0] ws IH]; intros sess Hlock;
        simpl; [done|].
      simpl in Hw. apply andb_prop in Hw as [Hk0 Hws].
      apply IH; [done|]. rewrite dict_get_set_ne; [done|].
      apply negb_true_iff, bool_decide_eq_false in Hk0. congruence.
    - destruct env; [done|]. simpl in Henv. by apply andb_prop in Henv as [_ ?]. }
  by destruct (ea_kill (hd idle env)).
Qed.

Lemma incr_num_sent_gate_inv : preserves (gate_inv cf) incr_num_sent.
Proof.
  intros w Hw. unfold incr_num_sent. st_unfold. cbn [fst snd].
  destruct (getitem (PDict (w_copy w)) "num_sent") as [[]|]; try done.
  destruct w as [evs sess g t u kp env now copy].
  destruct Hw as (? & Hc & ? & ?). unfold gate_inv. simpl in *.
  split_and!; try done. by rewrite dict_get_set_ne.
Qed.

Lemma set_gate_gate_inv b : preserves (gate_inv cf) (modify (Task.set_gate b)).
Proof. apply preserves_modify. by intros []. Qed.

Lemma gate_wait_gate_inv lock timeout :
  preserves (gate_inv cf) (gate_wait lock timeout).
Proof.
  destruct lock; try apply preserves_lift. unfold gate_wait.
  apply preserves_bind; [apply preserves_gets|]. intros [|].
  - apply preserves_ret.
  - apply preserves_bind; [apply suspend_gate_inv|]. intros a.
    destruct (ea_gate_set a); [|apply preserves_ret].
    case_bool_decide; [|apply preserves_ret].
    apply preserves_bind; [apply set_gate_gate_inv|intros _; apply preserves_ret].
Qed.

Lemma sleep_gate_inv : preserves (gate_inv cf) sleep.
Proof.
  apply preserves_bind; [apply suspend_gate_inv|]. intros a.
  destruct (ea_gate_set a); [apply set_gate_gate_inv|apply preserves_ret].
Qed.

Lemma inner_try_gate_inv entry : preserves (gate_inv cf) (inner_try cf entry).
Proof.
  unfold inner_try, time_time, drop_uncertain_models, set_uncertain_models,
    get_uncertain_steps, model_step.
  repeat first
    [ apply preserves_gets | apply preserves_ret | apply preserves_lift
    | apply preserves_raise
    | apply preserves_modify; by intros []
    | apply preserves_bind; [|intros ?]
    | case_bool_decide | case_match ].
Qed.

(** A pass of the loop never takes the timeout branch: what it tests is
    the Gate object, not what [wait] returned. *)
Lemma iteration_gate_inv entry : preserves (gate_inv cf) (iteration cf entry).
Proof.
  unfold iteration.
  apply preserves_bind; [apply preserves_try, inner_try_gate_inv|].
  intros [output|e].
  - apply preserves_bind; [apply incr_num_sent_gate_inv|]. intros num_sent.
    apply preserves_bind.
    { destruct (truthy (PDict output) && send_output cf);
        by apply emit_gate_inv. }
    intros _. apply preserves_bind.
    { destruct (negb (is_async cf)); [|apply preserves_ret].
      apply session_lock_bind, set_gate_gate_inv. }
    intros _. apply session_lock_bind.
    apply preserves_bind; [apply gate_wait_gate_inv|]. intros _.
    apply session_lock_bind. cbn [truthy negb].
    apply preserves_bind; [apply preserves_ret|]. intros _.
    apply preserves_bind; [apply sleep_gate_inv|intros _; apply preserves_ret].
  - destruct (isinstance_StopIteration e); [|apply preserves_raise].
    apply preserves_bind; [|intros ?; apply preserves_ret].
    apply preserves_modify. by intros [].
Qed.

Lemma step_loop_gate_inv script : preserves (gate_inv cf) (step_loop cf script).
Proof.
  induction script as [|entry rest IH]; cbn [step_loop].
  - apply preserves_bind; [apply iteration_gate_inv|intros ?; apply preserves_ret].
  - apply preserves_bind; [apply iteration_gate_inv|].
    intros [|]; [apply IH|apply preserves_ret].
Qed.

Lemma try_body_gate_inv script : preserves (gate_inv cf) (try_body cf script).
Proof.
  unfold try_body, startup.
  apply preserves_bind; [|intros _; apply step_loop_gate_inv].
  apply preserves_bind; [by apply emit_gate_inv|]. intros _.
  apply session_lock_bind.
  apply preserves_bind; [apply gate_wait_gate_inv|]. intros unlocked.
  destruct (negb unlocked); [|apply preserves_ret].
  apply preserves_bind; [by apply emit_gate_inv|]. intros _.
  apply preserves_modify. by intros [].
Qed.

Lemma except_clauses_gate_inv r : preserves (gate_inv cf) (except_clauses cf r).
Proof.
  unfold except_clauses. destruct r as [|e]; [apply preserves_ret|].
  destruct (isinstance_GreenletExit e).
  - apply preserves_bind; [by apply emit_gate_inv|intros _; apply preserves_raise].
  - apply preserves_bind; [apply preserves_lift|]. intros msg.
    apply preserves_bind; [by apply emit_gate_inv|intros _; apply preserves_raise].
Qed.

Lemma finally_clause_gate_inv : preserves (gate_inv cf) finally_clause.
Proof.
  intros w Hw. rewrite finally_clause_spec. destruct (finally_ok w); [|done].
  destruct w. destruct Hw as (? & ? & ? & ?). by split_and!.
Qed.

End loop_wait.

(** The timeout of the loop is unreachable: in a run whose session holds
    the Gate under ['lock'] and in which no other greenlet rewrites that
    key, the loop never emits its [timeout] event, however often its wait of
    6000 on the Gate returns false. *)
Theorem loop_timeout_unreachable (cf : config) (script : list step_result)
    (w0 : world) :
  dict_get "lock" (w_session w0) = Some PGate →
  lock_untouched (w_env w0) = true →
  loop_timeout cf ∉ w_events w0 →
  loop_timeout cf ∉ w_events (execute_async_model cf script w0).2.
Proof.
  intros Hlock Henv Hev.
  assert (H0 : gate_inv cf (Task.set_copy (w_session w0) w0)).
  { destruct w0. by split_and!. }
  rewrite execute_async_model_unfold.
  pose proof (try_body_gate_inv cf script _ H0) as H1.
  destruct (try_body cf script _) as [r w1]. simpl in H1.
  pose proof (except_clauses_gate_inv cf r _ H1) as H2.
  destruct (except_clauses cf r w1) as [r' w2]. simpl in H2.
  pose proof (finally_clause_gate_inv cf _ H2) as H3.
  destruct (finally_clause w2) as [[[]|?] w3]; simpl in H3; [|apply H3].
  destruct r'; [|apply H3].
  pose proof (emit_gate_inv cf "complete" (PStr "Model run completed") None
                ltac:(done) _ H3) as H4.
  apply H4.
Qed.

(* ===================================================================== *)
(** ** The registry of Step Tasks                                         *)
(* ===================================================================== *)

Section registry.
Implicit Types (s : server) (rq : request) (sid : string).

Lemma same_tasks_refl s : same_tasks s s.
Proof. by split. Qed.

(** Code that leaves greenlets and registry alone. *)
Ltac frame_tasks :=
  repeat first
    [ apply preserves_ret | apply preserves_raise | apply preserves_lift
    | apply preserves_gets
    | apply preserves_modify; by intros []
    | apply preserves_for_each; intros ?
    | apply preserves_try
    | apply preserves_bind; [|intros ?]
    | case_bool_decide | case_match ].

Lemma session_set_num_sent_tasks s0 sid n :
  preserves (same_tasks s0) (session_set_num_sent sid n).
Proof. unfold session_set_num_sent, log_op. frame_tasks. Qed.

Lemma outputters_add_tasks s0 session_id o :
  preserves (same_tasks s0) (outputters_add session_id o).
Proof. unfold outputters_add. frame_tasks. Qed.

Lemma cleanup_tasks s0 lk g : preserves (same_tasks s0) (cleanup lk g).
Proof.
  unfold cleanup, assemble, outputters_remove, model_rewind, Server.emit,
    log_op, zip_create, zip_write, move, probe, path_exists.
  frame_tasks.
Qed.

Lemma links_tasks s0 (links : list link) g :
  ∀ s, same_tasks s0 s →
       same_tasks s0 (foldl (fun s lk => (cleanup lk g s).2) s links).
Proof.
  induction links as [|lk links IH]; intros s Hs; simpl; [done|].
  by apply IH, cleanup_tasks.
Qed.

Lemma for_each_link i (links : list link) : ∀ s,
  greenlets (for_each (greenlet_link i) links s).2
    = alter (add_links links) i (greenlets s)
  ∧ active_greenlets (for_each (greenlet_link i) links s).2 = active_greenlets s
  ∧ (for_each (greenlet_link i) links s).1 = Ok tt.
Proof.
  induction links as [|lk links IH]; intros s; cbn [for_each].
  - split_and!; [|done..]. simpl. symmetry. apply list_alter_id.
    intros []. unfold add_links. simpl. by rewrite app_nil_r.
  - unfold mbind, ST_bind. unfold greenlet_link at 1 3 5, modify.
    destruct (IH (set_greenlets
      (alter (fun g => Greenlet (g_sockid g) (g_session_hash g) (g_alive g)
                         (g_kill_requested g) (g_links g ++ [lk])) i
         (greenlets s)) s)) as (Hg & Ha & Hr).
    destruct (for_each _ links _) as [[[]|] s']; [|done]. simpl in *.
    split_and!; [|done..]. rewrite Hg. destruct s; simpl.
    rewrite list_alter_alter_eq. apply list_alter_ext; [|done].
    intros [] _. unfold add_links. simpl. by rewrite <-app_assoc.
Qed.

(** What [start_task] does to greenlets and registry. *)
Lemma start_task_spec rq sid links s :
  let n := length (greenlets s) in
  if may_start rq sid s then
    (start_task rq sid links s).1 = Ok (Some n)
    ∧ greenlets (start_task rq sid links s).2
        = greenlets s ++ [Greenlet sid (rq_session_hash rq) true false links]
    ∧ active_greenlets (start_task rq sid links s).2
        = <[sid := n]> (active_greenlets s)
  else
    (start_task rq sid links s).1 = Ok None
    ∧ same_tasks s (start_task rq sid links s).2.
Proof.
  intros n. unfold start_task, may_start, session_set_num_sent, log_op, spawn.
  st_unfold. destruct s as [ns ssm ag gs ss ms sl fs evs tr]. cbn.
  unfold greenlet_truthy, active_greenlet. cbn.
  destruct (bool_decide (is_Some (ms !! rq_session_id rq))
            && negb match ag !! sid with
                    | Some i => match gs !! i with
                                | Some gl => g_alive gl
                                | None => false
                                end
                    | None => false
                    end); cbn; [|done].
  match goal with |- context [for_each _ _ ?s1] =>
    destruct (for_each_link (length gs) links s1) as (Hg & Ha & Hr);
    destruct (for_each (greenlet_link (length gs)) links s1) as [r s'] end.
  cbn in *. subst r. cbn. split_and!; [done| |done].
  rewrite Hg. replace (length gs) with (length gs + 0)%nat at 1 by lia.
  rewrite alter_app_r. done.
Qed.

Lemma run_model_cases rq s :
  ((run_model rq s).1 ≠ Ok (Some (length (greenlets s)))
   ∧ (∀ i, (run_model rq s).1 ≠ Ok (Some i))
   ∧ same_tasks s (run_model rq s).2)
  ∨ (∃ sid, sock_sess_map s !! rq_session_id rq = Some sid
      ∧ (run_model rq s).1 = Ok (Some (length (greenlets s)))
      ∧ spawned sid (rq_session_hash rq) [] s (run_model rq s).2).
Proof.
  unfold run_model. st_unfold.
  destruct (sio_ns s); cbn [negb]; [|left; by split_and!].
  destruct (sock_sess_map s !! rq_session_id rq) as [sid|]; [|left; by split_and!].
  pose proof (start_task_spec rq sid [] s) as H. cbn zeta in H.
  destruct (may_start rq sid s) eqn:Hm.
  - right. exists sid. destruct H as (Hr & Hg & Ha).
    split; [done|]. split; [done|]. split; [|done].
    unfold may_start in Hm. apply andb_prop in Hm as [_ Hm].
    by apply negb_true_iff.
  - left. destruct H as [Hr Hs]. rewrite Hr. by split_and!.
Qed.

Lemma outputters_add_all_frame rq s :
  let temps := map (fun itm => Outputter (o_id itm)
                      (path_join (rq_tempdir rq) (o_filename itm)))
                   (rq_outputters rq) in
  same_tasks s (for_each (outputters_add (rq_session_id rq)) temps s).2
  ∧ sock_sess_map (for_each (outputters_add (rq_session_id rq)) temps s).2
      = sock_sess_map s.
Proof.
  intros temps. split.
  - apply (preserves_for_each (same_tasks s)); [|apply same_tasks_refl].
    intros o. apply outputters_add_tasks.
  - apply (preserves_for_each (fun s' => sock_sess_map s' = sock_sess_map s));
      [|done].
    intros o. unfold outputters_add.
    repeat first
      [ apply preserves_lift | apply preserves_gets
      | apply preserves_modify; by intros []
      | apply preserves_bind; [|intros ?]
      | case_match ].
Qed.

Lemma run_export_model_cases rq s :
  ((∀ i, (run_export_model rq s).1 ≠ Ok (Some i))
   ∧ same_tasks s (run_export_model rq s).2)
  ∨ (∃ sid, sock_sess_map s !! rq_session_id rq = Some sid
      ∧ (run_export_model rq s).1 = Ok (Some (length (greenlets s)))
      ∧ spawned sid (rq_session_hash rq) [export_link rq sid] s
          (run_export_model rq s).2).
Proof.
  destruct (outputters_add_all_frame rq s) as [[Hg1 Ha1] Hssm]. cbn zeta in *.
  unfold run_export_model. st_unfold.
  destruct (sio_ns s) eqn:Hns; cbn [negb].
  2:{ left. split; [intros i; simpl; discriminate|apply same_tasks_refl]. }
  destruct (for_each _ _ s) as [[[]|e] s1] eqn:Hfe; cbn [fst snd] in *.
  2:{ left. by split. }
  rewrite Hssm.
  destruct (sock_sess_map s !! rq_session_id rq) as [sid|].
  2:{ left. split; [intros i; simpl; discriminate|by split]. }
  pose proof (start_task_spec rq sid [export_link rq sid] s1) as H.
  cbn zeta in H. fold (export_link rq sid).
  destruct (may_start rq sid s1) eqn:Hm.
  - right. exists sid. destruct H as (Hr & Hg & Ha).
    rewrite Hg1 in Hr, Hg. rewrite Hg1, Ha1 in Ha.
    split; [done|]. split; [done|]. split; [|done].
    unfold may_start in Hm. apply andb_prop in Hm as [_ Hm].
    apply negb_true_iff in Hm. unfold greenlet_truthy, active_greenlet in *.
    by rewrite Hg1, Ha1 in Hm.
  - left. destruct H as [Hr [Hg Ha]]. rewrite Hr.
    split; [done|]. split; congruence.
Qed.

Lemma same_tasks_liveness s s' : same_tasks s s' → same_liveness s s'.
Proof. intros [Hg Ha]. split; [done|]. unfold liveness. by rewrite Hg. Qed.

Lemma greenlet_kill_liveness s0 i :
  preserves (same_liveness s0) (greenlet_kill_noblock i).
Proof.
  unfold greenlet_kill_noblock, log_op.
  apply preserves_bind; [|intros ?; apply preserves_modify; by intros []].
  apply preserves_modify. intros [ns ssm ag gs ss ms sl fs evs tr] [Ha Hl].
  split; [done|]. unfold liveness in *. simpl in *. rewrite <-Hl.
  apply list_eq. intros j. rewrite !list_lookup_fmap.
  destruct (decide (i = j)) as [->|].
  - rewrite list_lookup_alter_eq. by destruct (gs !! j).
  - by rewrite list_lookup_alter_ne.
Qed.

Lemma get_rewind_liveness s0 rq : preserves (same_liveness s0) (get_rewind rq).
Proof.
  unfold get_rewind, acquire_session_lock, release_session_lock,
    session_set_num_sent, model_rewind, log_op.
  repeat first
    [ apply preserves_ret | apply preserves_raise | apply preserves_lift
    | apply preserves_gets | apply greenlet_kill_liveness
    | apply preserves_modify; by intros []
    | apply preserves_try
    | apply preserves_bind; [|intros ?]
    | case_bool_decide | case_match ].
Qed.

Lemma finish_tasks i r s :
  active_greenlets (finish i r s) = active_greenlets s
  ∧ (greenlets (finish i r s) = greenlets s
     ∨ ∃ g, greenlets s !! i = Some g ∧ g_alive g = true
            ∧ greenlets (finish i r s) = <[i := dead g]> (greenlets s)).
Proof.
  unfold finish. destruct (greenlets s !! i) as [g|] eqn:Hg; [|by split; [|left]].
  destruct (g_alive g) eqn:Halive; [|by split; [|left]].
  match goal with |- context [foldl _ ?s1 _] =>
    destruct (links_tasks s1 (g_links g) (grn_of r) s1 (same_tasks_refl s1))
      as [Hg' Ha'] end.
  rewrite Ha', Hg'. split; [by destruct s|]. right. exists g. by destruct s.
Qed.

Lemma one_task_same_liveness s s' :
  same_liveness s s' → one_task s → one_task s'.
Proof.
  intros [Ha Hl] Hinv i g' Hi Halive. rewrite Ha.
  assert (liveness s' !! i = Some (g_sockid g', g_alive g')) as Hli
    by (unfold liveness; by rewrite list_lookup_fmap, Hi).
  rewrite Hl in Hli. unfold liveness in Hli. rewrite list_lookup_fmap in Hli.
  destruct (greenlets s !! i) as [g|] eqn:Hg; [|done].
  simpl in Hli. injection Hli as Hs Hal. rewrite <-Hs. apply Hinv; congruence.
Qed.

Lemma one_task_spawned sid h links s s' :
  spawned sid h links s s' → one_task s → one_task s'.
Proof.
  intros (Hfree & Hg & Ha) Hinv i g Hi Halive. rewrite Ha. rewrite Hg in Hi.
  apply lookup_app_Some in Hi as [Hi|[Hlen Hi]].
  - specialize (Hinv i g Hi Halive).
    destruct (decide (g_sockid g = sid)) as [Heq|Hne].
    + exfalso. unfold greenlet_truthy, active_greenlet in Hfree.
      rewrite <-Heq, Hinv, Hi in Hfree. congruence.
    + by rewrite lookup_insert_ne.
  - destruct (i - length (greenlets s))%nat as [|n] eqn:E; [|done].
    injection Hi as <-. simpl. rewrite lookup_insert_eq. f_equal. lia.
Qed.

Lemma one_task_finish i r s : one_task s → one_task (finish i r s).
Proof.
  intros Hinv. destruct (finish_tasks i r s) as [Ha [Hg|(g & Hi & Halive & Hg)]].
  - apply (one_task_same_liveness s); [|done].
    apply same_tasks_liveness. by split.
  - intros j g' Hj Halive'. rewrite Ha. rewrite Hg in Hj.
    destruct (decide (i = j)) as [->|Hne].
    + rewrite list_lookup_insert_eq in Hj by by eapply lookup_lt_Some.
      injection Hj as <-. done.
    + rewrite list_lookup_insert_ne in Hj by done. by apply Hinv.
Qed.

Lemma one_task_step s s' : server_step s s' → one_task s → one_task s'.
Proof.
  intros [rq s0|rq s0|rq s0|i r s0].
  - destruct (run_model_cases rq s0) as [(_ & _ & H)|(sid & _ & _ & H)].
    + by apply one_task_same_liveness, same_tasks_liveness.
    + by apply (one_task_spawned _ _ _ _ _ H).
  - destruct (run_export_model_cases rq s0) as [(_ & H)|(sid & _ & _ & H)].
    + by apply one_task_same_liveness, same_tasks_liveness.
    + by apply (one_task_spawned _ _ _ _ _ H).
  - apply one_task_same_liveness, get_rewind_liveness. by split.
  - apply one_task_finish.
Qed.

Lemma reachable_one_task s : reachable s → one_task s.
Proof.
  intros (s0 & Hnil & Hsteps).
  assert (one_task s0) as H0 by (intros i g Hi; by rewrite Hnil in Hi).
  clear Hnil. induction Hsteps as [s0|s0 s1 s2 Hstep _ IH]; [done|].
  by apply IH, (one_task_step s0).
Qed.

End registry.

(** A run request that finds a live task still resets [num_sent] in the
    stored session, and an export request has by then attached its
    outputters to the model; neither touches the task or the registry. *)
Example duplicate_request_side_effects :
  let s1 := (run_model request0 server0).2 in
  let s2 := (run_export_model request0 s1).2 in
  (run_export_model request0 s1).1 = Ok None
  ∧ greenlets s2 = greenlets s1
  ∧ active_greenlets s2 = active_greenlets s1
  ∧ sessions s2 !! "sid-1" = Some [(KStr "num_sent", PNum 0)]
  ∧ m_outputters <$> models s2 !! "session-1"
      = Some [Outputter "o1" "/tmp/td/a.out"; Outputter "o2" "/tmp/td/b.out"].
Proof. repeat split; vm_compute; reflexivity. Qed.

(** C1.  In every state the server reaches, a socket has at most one live
    Step Task.  A run request ([run_model] or [run_export_model]) that
    spawns a greenlet found no live one registered for the socket; one that
    finds a live greenlet registered spawns nothing and leaves every
    greenlet and the registry as they were. *)
Theorem at_most_one_step_task :
  (∀ s sid i j, reachable s → active s i sid → active s j sid → i = j)
  ∧ (∀ k rq s i, (run_request k rq s).1 = Ok (Some i) →
       ∃ sid, sock_sess_map s !! rq_session_id rq = Some sid
              ∧ greenlet_truthy (active_greenlet sid s) s = false
              ∧ active (run_request k rq s).2 i sid)
  ∧ (∀ k rq s sid,
       sock_sess_map s !! rq_session_id rq = Some sid →
       greenlet_truthy (active_greenlet sid s) s = true →
       (∀ i, (run_request k rq s).1 ≠ Ok (Some i))
       ∧ same_tasks s (run_request k rq s).2).
Proof.
  assert (Hcases : ∀ k rq s,
    ((∀ i, (run_request k rq s).1 ≠ Ok (Some i))
     ∧ same_tasks s (run_request k rq s).2)
    ∨ (∃ sid links, sock_sess_map s !! rq_session_id rq = Some sid
        ∧ (run_request k rq s).1 = Ok (Some (length (greenlets s)))
        ∧ spawned sid (rq_session_hash rq) links s (run_request k rq s).2)).
  { intros [] rq s; simpl.
    - destruct (run_model_cases rq s) as [(_ & ? & ?)|(sid & ? & ? & ?)];
        [by left|right; by exists sid, []].
    - destruct (run_export_model_cases rq s) as [?|(sid & ? & ? & ?)];
        [by left|right; by exists sid, [export_link rq sid]]. }
  split_and!.
  - intros s sid i j Hs%reachable_one_task (gi & Hi & Hai & Hsi) (gj & Hj & Haj & Hsj).
    pose proof (Hs i gi Hi Hai) as H1. pose proof (Hs j gj Hj Haj) as H2.
    congruence.
  - intros k rq s i Hi.
    destruct (Hcases k rq s) as [[Hno _]|(sid & links & Hsid & Hr & Hfree & Hg & Ha)];
      [by destruct (Hno i)|].
    exists sid. split_and!; [done..|].
    rewrite Hr in Hi. injection Hi as <-.
    exists (Greenlet sid (rq_session_hash rq) true false links).
    rewrite Hg. split; [|done].
    rewrite lookup_app_r by done. by rewrite Nat.sub_diag.
  - intros k rq s sid Hsid Hbusy.
    destruct (Hcases k rq s) as [?|(sid' & links & Hsid' & _ & Hfree & _)]; [done|].
    congruence.
Qed.

Lemma at_most_one_step_task_witness :
  reachable (run_model request0 server0).2
  ∧ active (run_model request0 server0).2 0 "sid-1"
  ∧ (∀ j, active (run_model request0 server0).2 j "sid-1" → j = 0%nat)
  ∧ (∀ i, (run_export_model request0 (run_model request0 server0).2).1 ≠ Ok (Some i))
  ∧ same_tasks (run_model request0 server0).2
      (run_export_model request0 (run_model request0 server0).2).2.
Proof.
  destruct at_most_one_step_task as (Hone & _ & Hbusy).
  assert (Hr : reachable (run_model request0 server0).2).
  { exists server0. split; [reflexivity|]. apply rtc_once, step_run_model. }
  assert (Ha : active (run_model request0 server0).2 0 "sid-1").
  { eexists. split; [reflexivity|]. split; reflexivity. }
  split; [exact Hr|]. split; [exact Ha|]. split.
  - intros j Hj. exact (Hone _ "sid-1" j 0%nat Hr Hj Ha).
  - apply (Hbusy RunExport request0 (run_model request0 server0).2 "sid-1");
      reflexivity.
Defined.

(* ===================================================================== *)
(** ** Rewind                                                             *)
(* ===================================================================== *)

(** C8.  A rewind request on a session with an active model acquires the
    session lock and releases it on every exit path.  If a Step Task is
    live for the session, it is killed without waiting for its death (it is
    still alive when the handler returns) and [num_sent] is reset to 0,
    both before the model's [rewind] is called.  An [Exception] raised by
    the rewind reaches the caller as [HTTPUnprocessableEntity]. *)
Theorem rewind_cancels_resets_releases (rq : request) (s : server) (m : model) :
  models s !! rq_session_id rq = Some m →
  let r := (get_rewind rq s).1 in
  let s' := (get_rewind rq s).2 in
  holders (rq_session_id rq) s' = holders (rq_session_id rq) s
  ∧ trace s' = trace s ++ [OpAcquire (rq_session_id rq)]
                 ++ match task_to_cancel rq s with
                    | Some (sio, g) => [OpKill g false; OpNumSent sio 0]
                    | None => []
                    end
                 ++ [OpRewind (rq_session_id rq); OpRelease (rq_session_id rq)]
  ∧ r = match m_rewind_raises m with
        | None => Ok tt
        | Some e => Raise (if isinstance_Exception e then unprocessable else e)
        end
  ∧ match task_to_cancel rq s with
    | Some (sio, g) =>
        mark_killed <$> greenlets s !! g = greenlets s' !! g
        ∧ greenlet_truthy (Some g) s' = true
        ∧ ∃ d, sessions s' !! sio = Some d ∧ dict_get "num_sent" d = Some (PNum 0)
    | None => greenlets s' = greenlets s ∧ sessions s' = sessions s
    end.
Proof.
  intros Hm. destruct s as [ns ssm ag gs ss ms sl fs evs tr]. simpl in Hm.
  unfold get_rewind, task_to_cancel, holders, acquire_session_lock,
    release_session_lock, model_rewind, greenlet_kill_noblock,
    session_set_num_sent, log_op, greenlet_truthy, active_greenlet.
  st_unfold. cbn -[dict_set]. rewrite Hm. rewrite bool_decide_true by done.
  cbn -[dict_set].
  destruct ns; cbn -[dict_set].
  - destruct (ssm !! rq_session_id rq) as [sio|]; cbn -[dict_set].
    + destruct (ag !! sio) as [g|]; cbn -[dict_set].
      * destruct (gs !! g) as [gl|] eqn:Hgl; cbn -[dict_set].
        -- destruct (g_alive gl) eqn:Halive; cbn -[dict_set]; rewrite ?Hm;
             destruct (m_rewind_raises m) as [e|]; cbn -[dict_set];
             try destruct (isinstance_Exception e); cbn -[dict_set];
             rewrite ?lookup_insert_eq; cbn -[dict_set];
             rewrite ?list_lookup_alter_eq, ?Hgl, ?lookup_insert_eq;
             cbn -[dict_set]; unfold mark_killed; rewrite ?Halive, <-?app_assoc;
             split_and!; try done;
             (eexists; split; [done|]; apply dict_get_set_eq).
        -- rewrite ?Hm; destruct (m_rewind_raises m) as [e|]; cbn -[dict_set];
             try destruct (isinstance_Exception e); cbn -[dict_set];
             rewrite ?lookup_insert_eq, <-?app_assoc; by split_and!.
      * rewrite ?Hm; destruct (m_rewind_raises m) as [e|]; cbn -[dict_set];
          try destruct (isinstance_Exception e); cbn -[dict_set];
          rewrite ?lookup_insert_eq, <-?app_assoc; by split_and!.
    + rewrite ?Hm; destruct (m_rewind_raises m) as [e|]; cbn -[dict_set];
        try destruct (isinstance_Exception e); cbn -[dict_set];
        rewrite ?lookup_insert_eq, <-?app_assoc; by split_and!.
  - rewrite ?Hm; destruct (m_rewind_raises m) as [e|]; cbn -[dict_set];
      try destruct (isinstance_Exception e); cbn -[dict_set];
      rewrite ?lookup_insert_eq, <-?app_assoc; by split_and!.
Qed.

Lemma rewind_cancels_resets_releases_witness :
  let s1 := (run_model request0 server0).2 in
  holders "session-1" (get_rewind request0 s1).2 = holders "session-1" s1
  ∧ trace (get_rewind request0 s1).2
      = trace s1 ++ [OpAcquire "session-1"]
          ++ [OpKill 0 false; OpNumSent "sid-1" 0]
          ++ [OpRewind "session-1"; OpRelease "session-1"]
  ∧ (get_rewind request0 s1).1 = Ok tt
  ∧ (mark_killed <$> greenlets s1 !! 0%nat
       = greenlets (get_rewind request0 s1).2 !! 0%nat
     ∧ greenlet_truthy (Some 0%nat) (get_rewind request0 s1).2 = true
     ∧ ∃ d, sessions (get_rewind request0 s1).2 !! "sid-1" = Some d
            ∧ dict_get "num_sent" d = Some (PNum 0)).
Proof.
  apply (rewind_cancels_resets_releases request0
           (run_model request0 server0).2 (Model [] (-1) None)).
  reflexivity.
Defined.

(** A rewind that fails: the caller gets [HTTPUnprocessableEntity] and the
    lock is released all the same. *)
Example rewind_failure_unprocessable :
  let s := ServerState true ∅ ∅ [] ∅
             {[ "session-1" :=
                  Model [] 3 (Some (Exc GnomeRuntimeError "cannot rewind" None)) ]}
             ∅ ∅ [] [] in
  (get_rewind request0 s).1 = Raise unprocessable
  ∧ holders "session-1" (get_rewind request0 s).2 = 0%nat
  ∧ trace (get_rewind request0 s).2
      = [OpAcquire "session-1"; OpRewind "session-1"; OpRelease "session-1"].
Proof. repeat split; reflexivity. Qed.

(* ===================================================================== *)
(** ** The export cleanup                                                 *)
(* ===================================================================== *)

Section cleanup_facts.
Implicit Types (s : server) (lk : link) (m : model).

Lemma set_models_id s : set_models (models s) s = s.
Proof. by destruct s. Qed.

(** Detaching the temporary outputters, one [remove] after the other. *)
Lemma detach_all session_id (temps : list outputter) : ∀ s m rest,
  models s !! session_id = Some m →
  detach (o_id <$> temps) (m_outputters m) = Some rest →
  for_each (fun o => outputters_remove session_id (o_id o)) temps s =
    (Ok tt, set_models
       (<[session_id := Model rest (m_time_step m) (m_rewind_raises m)]>
          (models s)) s).
Proof.
  induction temps as [|o temps IH]; intros s m rest Hm Hd;
    cbn [for_each]; cbn [fmap list_fmap detach] in Hd.
  - injection Hd as <-. unfold mret, ST_ret. f_equal.
    rewrite insert_id; [by rewrite set_models_id|]. by destruct m.
  - destruct (remove_id (o_id o) (m_outputters m)) as [l|] eqn:Hr; [|done].
    cbn [mbind option_bind] in Hd.
    unfold mbind at 1, ST_bind. unfold outputters_remove at 1. st_unfold.
    rewrite Hm, Hr.
    rewrite (IH _ (Model l (m_time_step m) (m_rewind_raises m)) rest);
      [|destruct s; simpl; by rewrite lookup_insert_eq|done].
    destruct s; simpl. by rewrite insert_insert_eq.
Qed.

(** [cleanup], once the outputters are detached and the model rewound. *)
Lemma cleanup_after_detach lk g s m rest :
  models s !! lk_session_id lk = Some m →
  m_rewind_raises m = None →
  detach (o_id <$> lk_temporary_outputters lk) (m_outputters m) = Some rest →
  cleanup lk g s =
    (if unsuccessful g
     then Server.emit "export_failed" PNone (Some (lk_sid lk))
     else end_filename ← assemble lk;
          Server.emit "export_finished" (PStr end_filename) (Some (lk_sid lk)))
      (detached_rewound lk rest s).
Proof.
  intros Hm Hrr Hd. unfold cleanup. unfold mbind at 1, ST_bind.
  rewrite (detach_all _ _ s m rest Hm Hd).
  unfold mbind at 1, ST_bind. unfold model_rewind at 1, log_op.
  unfold mbind at 1 2, ST_bind, modify, gets. cbn [fst snd].
  unfold detached_rewound.
  destruct s; simpl in *. rewrite lookup_insert_eq, Hrr. simpl.
  by rewrite insert_insert_eq.
Qed.

Lemma unsuccessful_raise e : unsuccessful (grn_of (Raise e)) = true.
Proof.
  unfold unsuccessful, grn_of.
  destruct (isinstance_GreenletExit e) eqn:E; simpl; [by rewrite E|].
  first [done | rewrite bool_decide_true; [done|by eexists]].
Qed.

(** The assembly touches only files and events. *)
Lemma assemble_frame s0 lk :
  preserves (same_but_files_events s0)
    (end_filename ← assemble lk;
     Server.emit "export_finished" (PStr end_filename) (Some (lk_sid lk))).
Proof.
  unfold assemble, Server.emit, zip_create, zip_write, move, probe, path_exists.
  repeat first
    [ apply preserves_ret | apply preserves_raise | apply preserves_lift
    | apply preserves_gets
    | apply preserves_modify; by intros []
    | apply preserves_for_each; intros ?
    | apply preserves_bind; [|intros ?]
    | case_bool_decide | case_match ].
Qed.

Lemma same_but_files_events_refl s : same_but_files_events s s.
Proof. by repeat split. Qed.

End cleanup_facts.

Section links.
Implicit Types (s : server) (rq : request).

Lemma links_kept_refl s : links_kept s s.
Proof. intros i g Hi. by exists g. Qed.

Lemma links_kept_trans s1 s2 s3 :
  links_kept s1 s2 → links_kept s2 s3 → links_kept s1 s3.
Proof.
  intros H12 H23 i g Hi. destruct (H12 i g Hi) as (g' & Hi' & Hl').
  destruct (H23 i g' Hi') as (g'' & Hi'' & Hl''). exists g''. split; congruence.
Qed.

Lemma same_tasks_links s s' : same_tasks s s' → links_kept s s'.
Proof. intros [Hg _] i g Hi. exists g. by rewrite Hg. Qed.

Lemma spawned_links sid h links s s' : spawned sid h links s s' → links_kept s s'.
Proof.
  intros (_ & Hg & _) i g Hi. exists g. rewrite Hg.
  split; [|done]. by apply lookup_app_l_Some.
Qed.

Lemma get_rewind_links s0 rq : preserves (links_kept s0) (get_rewind rq).
Proof.
  assert (Hkill : ∀ i, preserves (links_kept s0) (greenlet_kill_noblock i)).
  { intros i. unfold greenlet_kill_noblock, log_op.
    apply preserves_bind; [|intros ?; apply preserves_modify; by intros []].
    apply preserves_modify. intros [ns ssm ag gs ss ms sl fs evs tr] H j g Hj.
    destruct (H j g Hj) as (g' & Hj' & Hl). simpl in *.
    destruct (decide (i = j)) as [->|].
    - exists (mark_killed g'). by rewrite list_lookup_alter_eq, Hj'.
    - exists g'. by rewrite list_lookup_alter_ne. }
  unfold get_rewind, acquire_session_lock, release_session_lock,
    session_set_num_sent, model_rewind, log_op.
  repeat first
    [ apply preserves_ret | apply preserves_raise | apply preserves_lift
    | apply preserves_gets | apply Hkill
    | apply preserves_modify; by intros []
    | apply preserves_try
    | apply preserves_bind; [|intros ?]
    | case_bool_decide | case_match ].
Qed.

Lemma server_step_links s s' : server_step s s' → links_kept s s'.
Proof.
  intros [rq s0|rq s0|rq s0|i r s0].
  - destruct (run_model_cases rq s0) as [(_ & _ & H)|(sid & _ & _ & H)].
    + by apply same_tasks_links.
    + by apply (spawned_links _ _ _ _ _ H).
  - destruct (run_export_model_cases rq s0) as [(_ & H)|(sid & _ & _ & H)].
    + by apply same_tasks_links.
    + by apply (spawned_links _ _ _ _ _ H).
  - apply get_rewind_links, links_kept_refl.
  - destruct (finish_tasks i r s0) as [_ [Hg|(g & Hi & _ & Hg)]].
    + intros j g' Hj. exists g'. by rewrite Hg.
    + intros j g' Hj. rewrite Hg. destruct (decide (i = j)) as [->|].
      * exists (dead g). rewrite list_lookup_insert_eq by by eapply lookup_lt_Some.
        split; [done|]. simpl. congruence.
      * exists g'. by rewrite list_lookup_insert_ne.
Qed.

Lemma rtc_links s s' : rtc server_step s s' → links_kept s s'.
Proof.
  induction 1 as [|s1 s2 s3 Hstep _ IH]; [apply links_kept_refl|].
  eapply links_kept_trans; [by apply server_step_links|done].
Qed.

End links.

(** C4.  An export run links one cleanup to its greenlet, and nothing the
    server does later changes that.  When the greenlet dies, with whatever
    outcome, the cleanup runs once (one rewind is logged, and a dead
    greenlet does not die again): provided the temporary outputters are
    still attached and the model's rewind does not raise, they are detached
    and the model is rewound; and if the task ended with an exception or by
    [GreenletExit], the cleanup emits [export_failed] and nothing else, and
    leaves the files alone. *)
Theorem export_cleanup_on_termination (rq : request) (s : server) (gid : nat) :
  (run_export_model rq s).1 = Ok (Some gid) →
  ∃ sid, sock_sess_map s !! rq_session_id rq = Some sid ∧
  ∀ s2 m rest r,
    rtc server_step (run_export_model rq s).2 s2 →
    greenlet_truthy (Some gid) s2 = true →
    models s2 !! rq_session_id rq = Some m →
    m_rewind_raises m = None →
    detach (o_id <$> lk_temporary_outputters (export_link rq sid))
      (m_outputters m) = Some rest →
    let s3 := finish gid r s2 in
    greenlet_truthy (Some gid) s3 = false
    ∧ models s3 !! rq_session_id rq = Some (Model rest (-1) None)
    ∧ trace s3 = trace s2 ++ [OpRewind (rq_session_id rq)]
    ∧ (∀ r', finish gid r' s3 = s3)
    ∧ (∀ e, r = Raise e →
         events s3 = events s2 ++ [Event "export_failed" PNone (Some sid)]
         ∧ files s3 = files s2).
Proof.
  intros Hrun.
  destruct (run_export_model_cases rq s) as [[Hno _]|(sid & Hsid & Hr & _ & Hg & _)];
    [by destruct (Hno gid)|].
  rewrite Hr in Hrun. injection Hrun as <-.
  exists sid. split; [done|]. intros s2 m rest r Hsteps Halive Hm Hrr Hd s3.
  assert (Hlk : ∃ g2, greenlets s2 !! length (greenlets s) = Some g2
                      ∧ g_links g2 = [export_link rq sid]).
  { apply (rtc_links _ _ Hsteps _ (Greenlet sid (rq_session_hash rq) true false
                                      [export_link rq sid])).
    rewrite Hg, lookup_app_r by done. by rewrite Nat.sub_diag. }
  destruct Hlk as (g2 & Hg2 & Hlinks).
  unfold greenlet_truthy in Halive. rewrite Hg2 in Halive.
  assert (Hs3 : s3 = (cleanup (export_link rq sid) (grn_of r)
                        (set_greenlets (<[length (greenlets s) := dead g2]>
                                          (greenlets s2)) s2)).2).
  { subst s3. unfold finish, dead. rewrite Hg2, Halive, Hlinks. reflexivity. }
  rewrite (cleanup_after_detach _ _ _ m rest) in Hs3 by (by destruct s2).
  set (s2' := set_greenlets (<[length (greenlets s) := dead g2]> (greenlets s2)) s2)
    in Hs3.
  assert (Hframe : greenlets s3 = greenlets s2'
                   ∧ models s3 = models (detached_rewound (export_link rq sid) rest s2')
                   ∧ trace s3 = trace (detached_rewound (export_link rq sid) rest s2')).
  { rewrite Hs3. destruct (unsuccessful (grn_of r)); [done|].
    destruct (assemble_frame _ (export_link rq sid)
                (detached_rewound (export_link rq sid) rest s2')
                (same_but_files_events_refl _))
      as (_ & _ & _ & ? & _ & ? & _ & ?).
    done. }
  destruct Hframe as (Hgs & Hms & Htr).
  assert (Hdead : greenlets s3 !! length (greenlets s) = Some (dead g2)).
  { rewrite Hgs. subst s2'. destruct s2; simpl.
    apply list_lookup_insert_eq. by eapply lookup_lt_Some. }
  split_and!.
  - unfold greenlet_truthy. by rewrite Hdead.
  - rewrite Hms. subst s2'. destruct s2; simpl. apply lookup_insert_eq.
  - rewrite Htr. subst s2'. by destruct s2.
  - intros r'. unfold finish. by rewrite Hdead.
  - intros e ->. rewrite Hs3, unsuccessful_raise. subst s2'. by destruct s2.
Qed.

Section assembly.
Implicit Types (s : server) (lk : link).

Lemma set_files_set_files x y s : set_files x (set_files y s) = set_files x s.
Proof. by destruct s. Qed.

(** The loop that writes the outputs into the archive at [zpath]. *)
Lemma zip_loop zpath fs0 (temps : list outputter) (srcs : list file) :
  Forall2 (fun o f => fs0 !! resolve fs0 (o_filename o) = Some f
                      ∧ o_filename o ≠ zpath
                      ∧ resolve fs0 (o_filename o) ≠ zpath) temps srcs →
  ∀ acc s,
    files s = <[zpath := ZipArchive true acc]> fs0 →
    for_each (fun m => obj_fn ← probe (o_filename m);
                       zip_write zpath obj_fn (basename obj_fn)) temps s
    = (Ok tt, set_files
         (<[zpath := ZipArchive true (acc ++ zip_entries fs0 temps srcs)]> fs0) s).
Proof.
  induction 1 as [|o f temps srcs (Hf & Hne1 & Hne2) _ IH]; intros acc s Hs;
    cbn [for_each].
  - unfold zip_entries. simpl. rewrite app_nil_r, <-Hs. by destruct s.
  - unfold mbind at 1, ST_bind. unfold probe at 1, path_exists, zip_write at 1.
    st_unfold. cbn [fst snd]. rewrite Hs.
    rewrite (lookup_insert_ne _ zpath (o_filename o)) by done.
    fold (resolve fs0 (o_filename o)).
    rewrite lookup_insert_ne, Hf by done.
    rewrite Hs, alter_insert_eq.
    rewrite (IH (acc ++ [(basename (resolve fs0 (o_filename o)), f)])) by by destruct s.
    rewrite set_files_set_files. unfold zip_entries. simpl.
    by rewrite <-app_assoc.
Qed.

End assembly.

(** C5.  The cleanup of an export run that ended cleanly, with the
    temporary outputters still attached, the model's rewind not raising, and
    a file present for each outputter at its nominal path or at that path
    with [.zip] appended (the fallback is taken when the nominal path is
    absent).  With more than one outputter the session directory gets the
    deflated archive [<model_name>_output.zip], holding one entry per
    outputter, in order, named by the base name of the file taken; with one
    outputter its file is moved, as it is, into the session directory under
    its base name.  [export_finished] is emitted with the artifact's name. *)
Theorem export_artifact (lk : link) (s : server) (m : model)
    (rest : list outputter) (srcs : list file) :
  models s !! lk_session_id lk = Some m →
  m_rewind_raises m = None →
  detach (o_id <$> lk_temporary_outputters lk) (m_outputters m) = Some rest →
  Forall2 (source_of lk s) (lk_temporary_outputters lk) srcs →
  lk_temporary_outputters lk ≠ [] →
  let run := cleanup lk (grn_of (Ok tt)) s in
  run.1 = Ok tt
  ∧ if bool_decide (1 < length (lk_temporary_outputters lk))%nat then
      files run.2 =
        <[zip_path lk :=
            ZipArchive true
              (zip_entries (files s) (lk_temporary_outputters lk) srcs)]> (files s)
      ∧ length (zip_entries (files s) (lk_temporary_outputters lk) srcs)
          = length (lk_temporary_outputters lk)
      ∧ events run.2 =
          events s ++ [Event "export_finished"
                         (PStr (lk_model_filename lk +:+ "_output.zip"))
                         (Some (lk_sid lk))]
    else
      ∃ o f, lk_temporary_outputters lk = [o] ∧ srcs = [f]
        ∧ files run.2 =
            <[path_join (lk_session_path lk)
                (basename (resolve (files s) (o_filename o))) := f]>
              (delete (resolve (files s) (o_filename o)) (files s))
        ∧ events run.2 =
            events s ++ [Event "export_finished"
                           (PStr (basename (resolve (files s) (o_filename o))))
                           (Some (lk_sid lk))].
Proof.
  intros Hm Hrr Hd Hsrc Hne run. subst run.
  rewrite (cleanup_after_detach lk _ s m rest Hm Hrr Hd).
  change (unsuccessful (grn_of (Ok ()))) with false. cbv iota.
  set (s1 := detached_rewound lk rest s).
  assert (Hf1 : files s1 = files s) by by destruct s.
  assert (He1 : events s1 = events s) by by destruct s.
  unfold assemble. case_bool_decide as Hlen.
  - assert (Hloop : Forall2 (fun o f =>
        files s !! resolve (files s) (o_filename o) = Some f
        ∧ o_filename o ≠ zip_path lk
        ∧ resolve (files s) (o_filename o) ≠ zip_path lk)
        (lk_temporary_outputters lk) srcs).
    { eapply Forall2_impl; [exact Hsrc|]. intros o f [Hf Hz].
      destruct (Hz Hlen). by split_and!. }
    fold (zip_path lk). unfold zip_create. st_unfold. cbn [fst snd].
    rewrite (zip_loop (zip_path lk) (files s) _ _ Hloop [])
      by (rewrite <-Hf1; by destruct s1).
    cbn [fst snd]. unfold Server.emit, modify. cbn [fst snd].
    split; [done|]. split_and!.
    + by destruct s1.
    + unfold zip_entries. rewrite length_zip_with, length_fmap.
      apply Forall2_length in Hsrc. lia.
    + destruct s1; simpl in *. by rewrite He1.
  - destruct (lk_temporary_outputters lk) as [|o [|o' temps]] eqn:Et;
      [done| |simpl in Hlen; lia].
    apply Forall2_cons_inv_l in Hsrc as (f & srcs' & [Hf _] & Hnil & ->).
    apply Forall2_nil_inv_l in Hnil as ->.
    unfold probe, path_exists, move. st_unfold. cbn [fst snd].
    rewrite Hf1. fold (resolve (files s) (o_filename o)). rewrite Hf.
    unfold Server.emit, modify. cbn [fst snd].
    split; [done|]. exists o, f. split_and!; [done..| |].
    + destruct s1; simpl in *. by rewrite Hf1.
    + destruct s1; simpl in *. by rewrite He1.
Qed.

Lemma export_cleanup_on_termination_witness :
  let s1 := (run_export_model request0 server0).2 in
  let s3 := finish 0 (Raise GreenletExit_) s1 in
  greenlet_truthy (Some 0%nat) s3 = false
  ∧ models s3 !! "session-1" = Some (Model [] (-1) None)
  ∧ trace s3 = trace s1 ++ [OpRewind "session-1"]
  ∧ (∀ r', finish 0 r' s3 = s3)
  ∧ events s3 = events s1 ++ [Event "export_failed" PNone (Some "sid-1")]
  ∧ files s3 = files s1.
Proof.
  intros s1 s3.
  destruct (export_cleanup_on_termination request0 server0 0 eq_refl)
    as (sid & Hsid & H).
  assert (sid = "sid-1") as -> by (vm_compute in Hsid; congruence).
  destruct (H s1 (Model [Outputter "o1" "/tmp/td/a.out";
                         Outputter "o2" "/tmp/td/b.out"] (-1) None)
              [] (Raise GreenletExit_) (rtc_refl _ _) eq_refl eq_refl eq_refl
              eq_refl) as (H1 & H2 & H3 & H4 & H5).
  destruct (H5 GreenletExit_ eq_refl) as [H6 H7].
  split_and!; assumption.
Defined.

(** The first example of the specification: two outputters with files
    [a.out] and [b.out] give a zip with exactly those two entries. *)
Lemma export_artifact_witness :
  let s1 := (run_export_model request0 server0).2 in
  let run := cleanup (export_link request0 "sid-1") (grn_of (Ok tt)) s1 in
  run.1 = Ok tt
  ∧ files run.2 =
      <["/sessions/session-1/model_output.zip" :=
          ZipArchive true [("a.out", Plain "A"); ("b.out", Plain "B")]]> (files s1)
  ∧ events run.2 =
      events s1 ++ [Event "export_finished" (PStr "model_output.zip")
                      (Some "sid-1")].
Proof.
  intros s1 run.
  destruct (export_artifact (export_link request0 "sid-1") s1
              (Model [Outputter "o1" "/tmp/td/a.out";
                      Outputter "o2" "/tmp/td/b.out"] (-1) None)
              [] [Plain "A"; Plain "B"]) as [Hr Hz].
  - reflexivity.
  - reflexivity.
  - reflexivity.
  - constructor; [|constructor; [|constructor]];
      (split; [reflexivity|]; intros _; split; intros Heq; vm_compute in Heq;
       discriminate).
  - discriminate.
  - rewrite bool_decide_true in Hz by (simpl; lia).
    destruct Hz as (Hf & _ & He). split; [exact Hr|]. split; [exact Hf|exact He].
Defined.

(** The second example of the specification, with the fallback: a single
    outputter whose nominal file [shape] is absent while [shape.zip] is
    there; the file is moved as it is, no archive is made. *)
Example export_single_moved :
  let s1 := (run_export_model request1 server1).2 in
  let run := cleanup (export_link request1 "sid-1") (grn_of (Ok tt)) s1 in
  run.1 = Ok tt
  ∧ files run.2 = {[ "/sessions/session-1/shape.zip" := Plain "S" ]}
  ∧ events run.2 = [Event "export_finished" (PStr "shape.zip") (Some "sid-1")].
Proof. repeat split; vm_compute; reflexivity. Qed.

(* ===================================================================== *)
(** ** More on the ensemble aggregation                                   *)
(* ===================================================================== *)

Section aggregate_more.
Implicit Types (d output : dict) (k : key).

(** The worker entries go under integer keys: string keys stay. *)
Lemma attach_workers_strings steps : ∀ idx base full (s : string),
  attach_workers idx steps base = Ok full →
  dict_get (KStr s) full = dict_get (KStr s) base.
Proof.
  induction steps as [|st steps IH]; intros idx base full s; simpl.
  - by intros [= <-].
  - destruct (getitem st WeatheringOutput) as [block|]; [|done]. simpl.
    intros H. rewrite (IH _ _ _ s H). by rewrite dict_get_set_ne.
Qed.

(** The shape of what [aggregate_step] returns for a record that holds the
    weathering block. *)
Lemma aggregate_step_shape steps output output' t0 t1 t2 nominal :
  aggregate_step steps output t0 t1 t2 = Ok output' →
  dict_get WeatheringOutput output = Some nominal →
  ∃ full ts,
    output' = dict_set "total_response_time" (PNum (t2 - t0))
                (dict_set "uncertain_response_time" (PNum (t2 - t1))
                   (dict_set WeatheringOutput (PDict full) output))
    ∧ getitem nominal "time_stamp" = Ok ts
    ∧ dict_get "time_stamp" full = Some ts
    ∧ dict_get "nominal" full = Some nominal
    ∧ (workers_present steps = false →
       full = [(KStr "time_stamp", ts); (KStr "nominal", nominal);
               (KStr "low", PNone); (KStr "high", PNone)]).
Proof.
  intros H Hnom. unfold aggregate_step, dict_has in H. rewrite Hnom in H.
  rewrite andb_true_r in H.
  assert (Hg : getitem (PDict output) WeatheringOutput = Ok nominal)
    by (unfold getitem; by rewrite Hnom).
  rewrite Hg in H.
  destruct (workers_present steps).
  - cbn [mbind result_bind] in H.
    destruct (collect _ _) as [agg|]; cbn [mbind result_bind] in H; [|done].
    destruct (low_high _ _ _) as [lh|]; cbn [mbind result_bind] in H; [|done].
    destruct (getitem nominal "time_stamp") as [ts|];
      cbn [mbind result_bind] in H; [|done].
    destruct (attach_workers _ _ _) as [full|] eqn:Hat;
      cbn [mbind result_bind] in H; [|done].
    injection H as <-.
    exists full, ts. split_and!; [done..| | |done].
    + by rewrite (attach_workers_strings _ _ _ _ "time_stamp" Hat).
    + by rewrite (attach_workers_strings _ _ _ _ "nominal" Hat).
  - cbn [mbind result_bind] in H.
    destruct (getitem nominal "time_stamp") as [ts|];
      cbn [mbind result_bind] in H; [|done].
    injection H as <-.
    eexists _, ts. by split_and!.
Qed.

End aggregate_more.

(** X1: aggregation writes three keys of the step record and no other: every
    other key of the record the model returned keeps its value. *)
Theorem aggregate_step_frame (steps : option (list pyval))
    (output output' : dict) (t0 t1 t2 : Z) (k : key) :
  aggregate_step steps output t0 t1 t2 = Ok output' →
  k ∉ aggregated_keys →
  dict_get k output' = dict_get k output.
Proof.
  intros H Hk.
  assert (k ≠ KStr WeatheringOutput ∧ k ≠ KStr "uncertain_response_time"
          ∧ k ≠ KStr "total_response_time") as (H1 & H2 & H3).
  { unfold aggregated_keys in Hk. rewrite !not_elem_of_cons in Hk. tauto. }
  destruct (dict_get WeatheringOutput output) as [nominal|] eqn:Hnom.
  - destruct (aggregate_step_shape _ _ _ _ _ _ _ H Hnom) as (full & ts & -> & _).
    by rewrite !dict_get_set_ne by done.
  - unfold aggregate_step, dict_has in H. rewrite Hnom, andb_false_r in H.
    congruence.
Qed.

Lemma aggregate_step_frame_witness :
  ∃ out,
    aggregate_step (Some [fragment_a 1; fragment_a 3])
      (nominal_record ++ spill_record) 10 12 15 = Ok out
    ∧ dict_get "SpillJsonOutput" out =
      dict_get "SpillJsonOutput" (nominal_record ++ spill_record).
Proof.
  eexists. split; [reflexivity|].
  eapply (aggregate_step_frame (Some [fragment_a 1; fragment_a 3]));
    [reflexivity|].
  unfold aggregated_keys. rewrite !not_elem_of_cons.
  split_and!; [discriminate..|apply not_elem_of_nil].
Defined.

(** X2: the combined block keeps the nominal block whole under ['nominal'] and
    takes its time stamp; without workers [low] and [high] are [None]. *)
Theorem aggregate_step_keeps_nominal (steps : option (list pyval))
    (output output' : dict) (t0 t1 t2 : Z) (nominal : pyval) :
  aggregate_step steps output t0 t1 t2 = Ok output' →
  dict_get WeatheringOutput output = Some nominal →
  combined "nominal" output' = Some nominal
  ∧ (∃ ts, getitem nominal "time_stamp" = Ok ts
           ∧ combined "time_stamp" output' = Some ts)
  ∧ (workers_present steps = false →
     combined "low" output' = Some PNone ∧ combined "high" output' = Some PNone).
Proof.
  intros H Hnom.
  destruct (aggregate_step_shape _ _ _ _ _ _ _ H Hnom)
    as (full & ts & -> & Hts & Hfts & Hfn & Hnw).
  assert (Hc : ∀ field, combined field
      (dict_set "total_response_time" (PNum (t2 - t0))
         (dict_set "uncertain_response_time" (PNum (t2 - t1))
            (dict_set WeatheringOutput (PDict full) output)))
      = dict_get field full).
  { intros field. unfold combined.
    rewrite dict_get_set_ne by done. rewrite dict_get_set_ne by done.
    by rewrite dict_get_set_eq. }
  rewrite !Hc. split_and!; [done|by exists ts|].
  intros Hw. by rewrite (Hnw Hw).
Qed.

Lemma aggregate_step_keeps_nominal_witness :
  ∃ out nominal,
    aggregate_step None nominal_record 10 12 15 = Ok out
    ∧ dict_get WeatheringOutput nominal_record = Some nominal
    ∧ combined "nominal" out = Some nominal
    ∧ (∃ ts, getitem nominal "time_stamp" = Ok ts
             ∧ combined "time_stamp" out = Some ts)
    ∧ (workers_present None = false →
       combined "low" out = Some PNone ∧ combined "high" out = Some PNone).
Proof.
  eexists _, _. split; [reflexivity|]. split; [reflexivity|].
  apply (aggregate_step_keeps_nominal None nominal_record _ 10 12 15);
    reflexivity.
Defined.

Section bounds.
Implicit Types (vs : list pyval) (k : key).

Lemma py_lt_Ok_same_kind a b c : py_lt a b = Ok c → same_kind a b = true.
Proof. by destruct a, b. Qed.


Lemma py_lt_total a b : py_lt b a = Ok false → py_le a b.
Proof.
  destruct a as [|x|s| | | | |], b as [|y|t| | | | |]; try done; simpl;
    intros [= H]; unfold py_le; simpl.
  - destruct (decide (x = y)) as [->|]; [by left|right]. f_equal. lia.
  - unfold String.ltb in *. rewrite String.compare_antisym in H.
    destruct (String.compare s t) eqn:E; try done; [left|by right].
    f_equal. by apply String.compare_eq_iff.
Qed.

Lemma min_loop_kinds rest : ∀ best m,
  min_loop best rest = Ok m → ∀ v, v ∈ rest → same_kind v best = true.
Proof.
  induction rest as [|item rest IH]; intros best m H v Hv; simpl in H.
  - by apply elem_of_nil in Hv.
  - destruct (py_lt item best) as [c|] eqn:Hc; [|done]. simpl in H.
    pose proof (py_lt_Ok_same_kind _ _ _ Hc) as Hk.
    apply elem_of_cons in Hv as [->|Hv]; [done|].
    pose proof (IH _ _ H v Hv) as Hv'. destruct c; [|done].
    by apply (same_kind_trans _ item).
Qed.

Lemma py_min_orderable vs m : py_min vs = Ok m → orderable vs.
Proof.
  destruct vs as [|x [|y xs]]; [done|by left|]. intros H. right.
  split; [done|]. simpl in H.
  set (rest := y :: xs) in *.
  assert (Hk : ∀ v, v ∈ rest → same_kind v x = true)
    by (change (min_loop x rest = Ok m) in H; by apply (min_loop_kinds _ _ _ H)).
  assert (Hx : same_kind x x = true).
  { apply (same_kind_trans _ y); [rewrite same_kind_sym|]; apply Hk; by left. }
  assert (Ha : ∀ v, v ∈ x :: rest → same_kind v x = true).
  { intros v [->|Hv]%elem_of_cons; auto. }
  intros a b Hin1 Hin2. apply (same_kind_trans _ x); [by apply Ha|].
  rewrite same_kind_sym. by apply Ha.
Qed.

Lemma orderable_bounds vs :
  orderable vs →
  ∃ lo hi, py_min vs = Ok lo ∧ py_max vs = Ok hi ∧ lo ∈ vs ∧ hi ∈ vs ∧
           py_le lo hi.
Proof.
  intros [Hl|[Hne Hc]].
  - destruct vs as [|v [|]]; try done. exists v, v.
    split_and!; [done|done|by left|by left|by left].
  - destruct (py_min_spec vs Hne Hc) as (lo & Hlo & Hin & Hmin).
    destruct (py_max_spec vs Hne Hc) as (hi & Hhi & Hin' & Hmax).
    exists lo, hi. split_and!; [done..|]. by apply py_lt_total, Hmin.
Qed.




End bounds.

Section aggregate_inversion.
Implicit Types (k : key) (agg : aggregate).

(** [collect] gets through only if every fragment is well-formed. *)
Lemma collect_inv steps : ∀ agg agg',
  collect steps agg = Ok agg' →
  ∃ blocks, Forall2 (fun s b => block_of s = Some b) steps blocks.
Proof.
  induction steps as [|s steps IH]; intros agg agg' H; simpl in H.
  - exists []. constructor.
  - destruct (encodes_failure s) as [[e tb]|].
    { by destruct (with_traceback e tb). }
    destruct s as [| | |d| | | |]; try done. simpl in H.
    destruct (dict_get WeatheringOutput d) as [block|] eqn:Hd; [|done].
    simpl in H. destruct block as [| | |b| | | |]; try done. simpl in H.
    destruct (IH _ _ H) as [blocks Hb]. exists (b :: blocks).
    constructor; [|done]. simpl. by rewrite Hd.
Qed.

(** What [low_high] returns holds the builtin [min] and [max] of each
    column. *)
Lemma low_high_inv agg : ∀ low high lh,
  NoDup agg.*1 →
  low_high agg low high = Ok lh →
  ∀ k, match agg_lookup k agg with
       | Some vs => ∃ lo hi, py_min vs = Ok lo ∧ py_max vs = Ok hi ∧
                             dict_get k lh.1 = Some lo ∧ dict_get k lh.2 = Some hi
       | None => dict_get k lh.1 = dict_get k low ∧
                 dict_get k lh.2 = dict_get k high
       end.
Proof.
  induction agg as [|[k0 vs0] agg IH]; intros low high lh Hnd H k; simpl in *.
  - by injection H as <-.
  - apply NoDup_cons in Hnd as [Hnin Hnd].
    destruct (py_min vs0) as [lo|] eqn:Hlo; [|done]. simpl in H.
    destruct (py_max vs0) as [hi|] eqn:Hhi; [|done]. simpl in H.
    specialize (IH _ _ _ Hnd H k).
    destruct (decide (k0 = k)) as [->|Hne].
    + rewrite agg_lookup_None in IH by done. destruct IH as [-> ->].
      exists lo, hi. by rewrite !dict_get_set_eq.
    + destruct (agg_lookup k agg); [done|].
      destruct IH as [-> ->]. by rewrite !dict_get_set_ne.
Qed.

(** [low_high] gets through when [min] and [max] do on every column. *)
Lemma low_high_run agg : ∀ low high,
  NoDup agg.*1 →
  (∀ k vs, agg_lookup k agg = Some vs → orderable vs) →
  ∃ lh, low_high agg low high = Ok lh.
Proof.
  induction agg as [|[k0 vs0] agg IH]; intros low high Hnd Hord; simpl.
  - by eexists.
  - apply NoDup_cons in Hnd as [Hnin Hnd].
    destruct (orderable_bounds vs0) as (lo & hi & -> & -> & _).
    { apply (Hord k0). simpl. by rewrite decide_True. }
    simpl. apply IH; [done|]. intros k vs Hk. apply (Hord k). simpl.
    destruct (decide (k0 = k)) as [->|]; [|done].
    by rewrite agg_lookup_None in Hk.
Qed.

(** The aggregation over well-formed fragments, unfolded. *)
Lemma aggregate_step_workers l blocks output nominal t0 t1 t2 :
  l ≠ [] →
  Forall2 (fun s b => block_of s = Some b) l blocks →
  dict_get WeatheringOutput output = Some nominal →
  aggregate_step (Some l) output t0 t1 t2 =
    lh ← low_high (foldl (fun a b => agg_extend b a) [] blocks) [] [];
    ts ← getitem nominal "time_stamp";
    Ok (dict_set "total_response_time" (PNum (t2 - t0))
         (dict_set "uncertain_response_time" (PNum (t2 - t1))
           (dict_set WeatheringOutput
              (PDict ([(KStr "time_stamp", ts); (KStr "nominal", nominal);
                       (KStr "low", PDict lh.1); (KStr "high", PDict lh.2)]
                      ++ imap (fun i b => (KInt i, PDict b)) blocks))
              output))).
Proof.
  intros Hl Hb Hnom. unfold aggregate_step, dict_has. rewrite Hnom.
  destruct l as [|s0 l0] eqn:El; [done|]. rewrite <-El in *.
  replace (workers_present (Some l)) with true by by rewrite El.
  cbn [andb getitem default]. rewrite Hnom. cbn [mbind result_bind id].
  rewrite (collect_spec l blocks [] Hb). cbn [mbind result_bind].
  destruct (low_high _ [] []) as [lh|]; [|done]. cbn [mbind result_bind].
  destruct (getitem nominal "time_stamp") as [ts|]; [|done].
  cbn [mbind result_bind].
  by rewrite (attach_workers_spec l blocks 0 _ Hb).
Qed.

(** The bounds of the record [aggregate_step] built from [lh]. *)
Lemma bound_built field k output t0 t1 t2 ts nominal (lh : dict * dict) tail :
  field = "low" ∨ field = "high" →
  bound field k
    (dict_set "total_response_time" (PNum (t2 - t0))
       (dict_set "uncertain_response_time" (PNum (t2 - t1))
          (dict_set WeatheringOutput
             (PDict ((KStr "time_stamp", ts) :: (KStr "nominal", nominal) ::
                     (KStr "low", PDict lh.1) :: (KStr "high", PDict lh.2) ::
                     tail))
             output)))
  = dict_get k (if decide (field = "low") then lh.1 else lh.2).
Proof.
  intros Hf. unfold bound, combined.
  rewrite dict_get_set_ne by done. rewrite dict_get_set_ne by done.
  rewrite dict_get_set_eq. by destruct Hf as [-> | ->].
Qed.

(** If the aggregation over workers returns, every fragment was well-formed
    and the bounds are the builtin [min] and [max] of each column. *)
Lemma aggregate_step_inv l output out nominal t0 t1 t2 :
  l ≠ [] →
  dict_get WeatheringOutput output = Some nominal →
  aggregate_step (Some l) output t0 t1 t2 = Ok out →
  ∃ blocks, Forall2 (fun s b => block_of s = Some b) l blocks ∧
    ∀ k, match values_of k blocks with
         | [] => bound "low" k out = None ∧ bound "high" k out = None
         | vs => ∃ lo hi, py_min vs = Ok lo ∧ py_max vs = Ok hi ∧
                          bound "low" k out = Some lo ∧
                          bound "high" k out = Some hi
         end.
Proof.
  intros Hl Hnom H.
  assert (∃ blocks, Forall2 (fun s b => block_of s = Some b) l blocks)
    as [blocks Hb].
  { unfold aggregate_step, dict_has in H. rewrite Hnom in H.
    destruct l as [|s0 l0] eqn:El; [done|]. rewrite <-El in *.
    replace (workers_present (Some l)) with true in H by by rewrite El.
    cbn [andb getitem default] in H. rewrite Hnom in H.
    cbn [mbind result_bind id] in H.
    destruct (collect l []) as [agg|] eqn:Hc; [|done].
    by apply collect_inv in Hc. }
  exists blocks. split; [done|]. intros k.
  rewrite (aggregate_step_workers _ _ _ _ _ _ _ Hl Hb Hnom) in H.
  set (agg := foldl (fun a b => agg_extend b a) [] blocks) in *.
  destruct (collect_blocks_spec k blocks []) as (Hwf & Hnd & Hv);
    [done|constructor|]. fold agg in Hwf, Hnd, Hv. simpl in Hv.
  destruct (low_high agg [] []) as [lh|] eqn:Hlh; [|done].
  cbn [mbind result_bind] in H.
  destruct (getitem nominal "time_stamp") as [ts|]; [|done].
  cbn [mbind result_bind] in H. injection H as <-.
  rewrite !bound_built by auto. simpl.
  pose proof (low_high_inv agg [] [] lh Hnd Hlh k) as Hk.
  destruct (agg_lookup k agg) as [vs|] eqn:Ek; simpl in Hv; subst.
  - destruct (values_of k blocks) eqn:E; [by destruct (Hwf k)|done].
  - rewrite <-Hv. done.
Qed.

(** The aggregation over well-formed fragments returns when every column is
    orderable and the nominal block has a time stamp. *)
Lemma aggregate_step_run l blocks output nominal ts t0 t1 t2 :
  l ≠ [] →
  Forall2 (fun s b => block_of s = Some b) l blocks →
  dict_get WeatheringOutput output = Some nominal →
  getitem nominal "time_stamp" = Ok ts →
  (∀ k, values_of k blocks = [] ∨ orderable (values_of k blocks)) →
  ∃ out, aggregate_step (Some l) output t0 t1 t2 = Ok out.
Proof.
  intros Hl Hb Hnom Hts Hord.
  rewrite (aggregate_step_workers _ _ _ _ _ _ _ Hl Hb Hnom).
  set (agg := foldl (fun a b => agg_extend b a) [] blocks).
  destruct (low_high_run agg [] []) as [lh ->].
  - apply (collect_blocks_spec (KInt 0) blocks []); [done|constructor].
  - intros k vs Hk.
    destruct (collect_blocks_spec k blocks []) as (Hwf & _ & Hv);
      [done|constructor|]. fold agg in Hwf, Hv. rewrite Hk in Hv.
    simpl in Hv. subst vs.
    destruct (Hord k) as [E|]; [|done]. rewrite E in Hk. by destruct (Hwf k).
  - cbn [mbind result_bind]. rewrite Hts. by eexists.
Qed.

End aggregate_inversion.

Section aggregate_bounds.
Implicit Types (k : key) (d : dict).

Lemma dict_get_elem k v d : dict_get k d = Some v → (k, v) ∈ d.
Proof.
  induction d as [|[k0 v0] d IH]; simpl; [done|].
  destruct (decide (k0 = k)) as [->|Hne].
  - intros [= ->]. by left.
  - intros H. right. by apply IH.
Qed.

Lemma column_NoDup k d :
  NoDup d.*1 →
  (filter (fun kv : key * pyval => kv.1 = k) d).*2 =
    match dict_get k d with Some v => [v] | None => [] end.
Proof.
  induction d as [|[k0 v0] d IH]; intros Hnd; [done|].
  rewrite fmap_cons in Hnd.
  apply NoDup_cons in Hnd as [Hnin Hnd]. rewrite filter_cons.
  cbn [fst dict_get].
  destruct (decide (k0 = k)) as [->|Hne]; [|by apply IH].
  rewrite fmap_cons, IH by done. cbn [snd].
  destruct (dict_get k d) as [v|] eqn:E; [|done].
  exfalso. apply Hnin. apply list_elem_of_fmap. exists (k, v).
  split; [done|by apply dict_get_elem].
Qed.



End aggregate_bounds.

(** X3: whenever the aggregation over workers returns, [low] and [high] hold the
    same keys, and under each of them the low value is the high value or
    lies strictly below it. *)
Theorem aggregate_bounds_ordered (l : list pyval) (output out : dict)
    (nominal : pyval) (t0 t1 t2 : Z) (k : key) :
  l ≠ [] →
  dict_get WeatheringOutput output = Some nominal →
  aggregate_step (Some l) output t0 t1 t2 = Ok out →
  (bound "low" k out = None ∧ bound "high" k out = None)
  ∨ ∃ lo hi, bound "low" k out = Some lo ∧ bound "high" k out = Some hi ∧
             py_le lo hi.
Proof.
  intros Hl Hnom H.
  destruct (aggregate_step_inv _ _ _ _ _ _ _ Hl Hnom H) as (blocks & _ & Hk).
  specialize (Hk k). destruct (values_of k blocks) as [|v vs]; [by left|].
  destruct Hk as (lo & hi & Hlo & Hhi & -> & ->). right. exists lo, hi.
  split_and!; [done..|].
  destruct (orderable_bounds (v :: vs) (py_min_orderable _ _ Hlo))
    as (lo' & hi' & Hlo' & Hhi' & _ & _ & Hle).
  congruence.
Qed.

Lemma aggregate_bounds_ordered_witness :
  ∃ out,
    aggregate_step (Some [fragment_a 1; fragment_a 3]) nominal_record 10 12 15
      = Ok out
    ∧ ((bound "low" "a" out = None ∧ bound "high" "a" out = None)
       ∨ ∃ lo hi, bound "low" "a" out = Some lo ∧
                  bound "high" "a" out = Some hi ∧ py_le lo hi).
Proof.
  eexists. split; [reflexivity|].
  eapply (aggregate_bounds_ordered [fragment_a 1; fragment_a 3] nominal_record);
    [discriminate|reflexivity|reflexivity].
Defined.

(** X4: with a single worker whose fragment is well-formed the aggregation
    returns, and [low] and [high] both repeat the worker's block, whatever
    the types of its values. *)
Theorem aggregate_single_worker (step nominal ts : pyval) (b output : dict)
    (t0 t1 t2 : Z) :
  block_of step = Some b →
  NoDup (dict_keys b) →
  dict_get WeatheringOutput output = Some nominal →
  getitem nominal "time_stamp" = Ok ts →
  ∃ out, aggregate_step (Some [step]) output t0 t1 t2 = Ok out ∧
    ∀ k, bound "low" k out = dict_get k b ∧ bound "high" k out = dict_get k b.
Proof.
  intros Hb Hnd Hnom Hts.
  assert (HF : Forall2 (fun s b => block_of s = Some b) [step] [b])
    by by repeat constructor.
  assert (Hv : ∀ k, values_of k [b] =
                    match dict_get k b with Some v => [v] | None => [] end).
  { intros k. unfold values_of. simpl. rewrite app_nil_r.
    by apply column_NoDup. }
  destruct (aggregate_step_run [step] [b] output nominal ts t0 t1 t2)
    as [out Hout]; [done..| |].
  { intros k. rewrite Hv. destruct (dict_get k b); [right; by left|by left]. }
  exists out. split; [done|]. intros k.
  assert (Hne : [step] ≠ []) by done.
  destruct (aggregate_step_inv _ _ _ _ _ _ _ Hne Hnom Hout)
    as (blocks & HF' & Hk).
  apply Forall2_cons_inv_l in HF' as (b' & bs & Hb' & HF' & ->).
  apply Forall2_nil_inv_l in HF' as ->.
  assert (b' = b) as -> by congruence.
  specialize (Hk k). rewrite Hv in Hk.
  destruct (dict_get k b) as [v|]; [|done].
  destruct Hk as (lo & hi & [= <-] & [= <-] & -> & ->). done.
Qed.

Lemma aggregate_single_worker_witness :
  ∃ out,
    aggregate_step (Some [fragment_a 1]) nominal_record 10 12 15 = Ok out ∧
    ∀ k, bound "low" k out = dict_get k [(KStr "a", PNum 1)] ∧
         bound "high" k out = dict_get k [(KStr "a", PNum 1)].
Proof.
  eapply (aggregate_single_worker (fragment_a 1) _ _ _ nominal_record);
    [reflexivity|apply NoDup_singleton|reflexivity|reflexivity].
Defined.



(* ===================================================================== *)
(** ** The events of a run                                                *)
(* ===================================================================== *)

Lemma loop_timeout_unreachable_witness :
  loop_timeout cf_stepwise ∉
    w_events (execute_async_model cf_stepwise [StepOutput spill_record 1]
                (world0 false [EnvAction [] (Some 3) false])).2.
Proof.
  apply loop_timeout_unreachable; [reflexivity|reflexivity|apply not_elem_of_nil].
Defined.

Section run_events.
Context (cf : config) (pre : list event).
Implicit Types (w : world).

Lemma under_way_frame w w' :
  w_events w' = w_events w → under_way pre w → under_way pre w'.
Proof. intros Heq (body & Hev & Hb). exists body. by rewrite Heq. Qed.

Lemma emit_under_way name data room :
  name = "step" ∨ name = "timeout" →
  preserves (under_way pre) (Task.emit name data room).
Proof.
  intros Hn. apply preserves_modify. intros w (body & Hev & Hb).
  exists (body ++ [Event name data room]). destruct w; simpl in *.
  rewrite Hev, <-app_assoc. split; [done|].
  rewrite forallb_app, Hb. unfold progress_event. simpl.
  by destruct Hn as [-> | ->].
Qed.

Lemma suspend_under_way : preserves (under_way pre) suspend.
Proof.
  intros [evs sess g t u kp env now copy]. apply under_way_frame.
  unfold suspend. simpl. destruct kp; [done|]. by destruct (ea_kill _).
Qed.

Ltac quiet :=
  repeat first
    [ apply preserves_gets | apply preserves_ret | apply preserves_lift
    | apply preserves_raise
    | apply suspend_under_way
    | apply preserves_modify; intros w; apply under_way_frame; by destruct w
    | apply preserves_bind; [|intros ?]
    | case_bool_decide | case_match ].

Lemma gate_wait_under_way lock timeout :
  preserves (under_way pre) (gate_wait lock timeout).
Proof. unfold gate_wait. quiet. Qed.

Lemma gate_clear_under_way lock : preserves (under_way pre) (gate_clear lock).
Proof. unfold gate_clear. quiet. Qed.

Lemma sleep_under_way : preserves (under_way pre) sleep.
Proof. unfold sleep. quiet. Qed.

Lemma inner_try_under_way entry : preserves (under_way pre) (inner_try cf entry).
Proof.
  unfold inner_try, time_time, drop_uncertain_models, set_uncertain_models,
    get_uncertain_steps, model_step. quiet.
Qed.

Lemma incr_num_sent_under_way : preserves (under_way pre) incr_num_sent.
Proof. unfold incr_num_sent. quiet. Qed.

Lemma iteration_under_way entry : preserves (under_way pre) (iteration cf entry).
Proof.
  unfold iteration.
  apply preserves_bind; [apply preserves_try, inner_try_under_way|].
  intros [output|e].
  - apply preserves_bind; [apply incr_num_sent_under_way|]. intros num_sent.
    apply preserves_bind.
    { destruct (truthy (PDict output) && send_output cf);
        apply emit_under_way; by left. }
    intros _. unfold session_getitem, on_model_kill.
    repeat first
      [ apply gate_wait_under_way | apply gate_clear_under_way
      | apply sleep_under_way
      | apply emit_under_way; by right
      | apply preserves_gets | apply preserves_ret | apply preserves_lift
      | apply preserves_modify; intros w; apply under_way_frame; by destruct w
      | apply preserves_bind; [|intros ?]
      | case_match ].
  - unfold drop_uncertain_models. quiet.
Qed.

Lemma step_loop_under_way script : preserves (under_way pre) (step_loop cf script).
Proof.
  induction script as [|entry rest IH]; cbn [step_loop].
  - apply preserves_bind; [apply iteration_under_way|intros ?; apply preserves_ret].
  - apply preserves_bind; [apply iteration_under_way|].
    intros [|]; [apply IH|apply preserves_ret].
Qed.

End run_events.

Lemma try_body_under_way cf script w :
  under_way (w_events w ++ [prepared cf]) (try_body cf script w).2.
Proof.
  set (pre := w_events w ++ [prepared cf]).
  set (w1 := Task.set_events pre w).
  assert (H1 : under_way pre w1).
  { exists []. subst w1. destruct w; simpl. by rewrite app_nil_r. }
  assert (Hs : preserves (under_way pre)
    ((lock ← session_getitem "lock";
      unlocked ← gate_wait lock 16;
      if negb unlocked then
        Task.emit "timeout" (PStr "Model not started, timed out after 16 sec")
          (Some (sockid cf));;
        on_model_kill
      else mret tt);;
     step_loop cf script)).
  { apply preserves_bind; [|intros _; apply step_loop_under_way].
    unfold session_getitem, on_model_kill.
    repeat first
      [ apply gate_wait_under_way
      | apply emit_under_way; by right
      | apply preserves_gets | apply preserves_ret | apply preserves_lift
      | apply preserves_modify; intros w'; apply under_way_frame; by destruct w'
      | apply preserves_bind; [|intros ?]
      | case_match ]. }
  exact (Hs w1 H1).
Qed.

(** X8: the events of a run.  Whatever the model, the workers and the other
    greenlets do, a run emits [prepared] first, then only [step] and
    [timeout] events, and last at most one closing event: [complete] exactly
    when the function returns, and otherwise [killed], [runtimeError] or (a
    failing write-back after a clean loop) nothing. *)
Theorem run_event_protocol (cf : config) (script : list step_result)
    (w0 : world) :
  ∃ body closing,
    w_events (execute_async_model cf script w0).2 =
      w_events w0 ++ prepared cf :: body ++ closing
    ∧ forallb progress_event body = true
    ∧ match (execute_async_model cf script w0).1 with
      | Ok _ => closing = [complete]
      | Raise _ => closing = [] ∨ closing = [killed cf]
                   ∨ ∃ msg, closing = [runtimeError cf msg]
      end.
Proof.
  rewrite execute_async_model_unfold.
  pose proof (try_body_under_way cf script (Task.set_copy (w_session w0) w0))
    as (body & Hev & Hb).
  destruct (try_body cf script _) as [r w1]. cbn [fst snd] in Hev.
  replace (w_events (Task.set_copy (w_session w0) w0)) with (w_events w0) in Hev
    by by destruct w0.
  rewrite <-app_assoc in Hev. cbn [app] in Hev.
  assert (Hex : ∃ closing r' w2,
    except_clauses cf r w1 = (r', w2) ∧
    w_events w2 = w_events w0 ++ prepared cf :: body ++ closing ∧
    match r' with
    | Ok _ => closing = []
    | Raise _ => closing = [killed cf] ∨ ∃ msg, closing = [runtimeError cf msg]
    end).
  { destruct r as [[]|e].
    - exists [], (Ok tt), w1. by rewrite app_nil_r.
    - destruct (isinstance_GreenletExit e) eqn:Hge.
      + rewrite except_clauses_killed by done. eexists [killed cf], _, _.
        split; [done|]. destruct w1; simpl in *. rewrite Hev.
        rewrite <-app_assoc. split; [done|by left].
      + rewrite except_clauses_failure by done.
        eexists [runtimeError cf _], _, _.
        split; [done|]. destruct w1; simpl in *. rewrite Hev.
        rewrite <-app_assoc. split; [done|right; by eexists]. }
  destruct Hex as (closing & r' & w2 & -> & Hev2 & Hcl).
  rewrite finally_clause_spec. destruct (finally_ok w2).
  - destruct r' as [[]|e].
    + subst closing. exists body, [complete]. destruct w2; simpl in *.
      rewrite Hev2, app_nil_r, <-app_assoc. done.
    + exists body, closing. cbn [fst snd].
      split_and!; [by destruct w2|done|by right].
  - exists body, closing. cbn [fst snd]. split_and!; [done..|].
    destruct r'; [by left|by right].
Qed.

(* ===================================================================== *)
(** ** More on the export cleanup                                         *)
(* ===================================================================== *)

Section cleanup_more.
Implicit Types (s : server) (lk : link) (m : model) (g : grn).

Ltac frame_step :=
  repeat first
    [ apply preserves_ret | apply preserves_raise | apply preserves_lift
    | apply preserves_gets
    | apply preserves_modify; intros []; simpl; congruence
    | apply preserves_for_each; intros ?
    | apply preserves_bind; [|intros ?]
    | case_bool_decide | case_match ].

Lemma detach_events evs lk :
  preserves (fun s => events s = evs)
    (for_each (fun o => outputters_remove (lk_session_id lk) (o_id o))
       (lk_temporary_outputters lk)).
Proof. unfold outputters_remove. frame_step. Qed.

Lemma model_rewind_events evs session_id :
  preserves (fun s => events s = evs) (model_rewind session_id).
Proof. unfold model_rewind, log_op. frame_step. Qed.

Lemma assemble_events evs lk : preserves (fun s => events s = evs) (assemble lk).
Proof.
  unfold assemble, zip_create, zip_write, move, probe, path_exists. frame_step.
Qed.

(** The loop of removals stops at the first outputter the model no longer
    holds, before anything else is touched. *)
Lemma detach_fails session_id (temps : list outputter) : ∀ s m,
  models s !! session_id = Some m →
  detach (o_id <$> temps) (m_outputters m) = None →
  ∃ o s1 m1,
    o ∈ temps
    ∧ for_each (fun o => outputters_remove session_id (o_id o)) temps s
      = (raise KeyError (o_id o), s1)
    ∧ events s1 = events s ∧ files s1 = files s ∧ trace s1 = trace s
    ∧ models s1 !! session_id = Some m1 ∧ m_time_step m1 = m_time_step m.
Proof.
  induction temps as [|o temps IH]; intros s m Hm Hd; [done|].
  cbn [fmap list_fmap detach] in Hd. cbn [for_each].
  unfold mbind at 1, ST_bind. unfold outputters_remove at 1. st_unfold.
  rewrite Hm. cbn [fst snd].
  destruct (remove_id (o_id o) (m_outputters m)) as [l|] eqn:Hr.
  - cbn [mbind option_bind] in Hd.
    destruct (IH (set_models (<[session_id := Model l (m_time_step m)
                                  (m_rewind_raises m)]> (models s)) s)
                 (Model l (m_time_step m) (m_rewind_raises m)))
      as (o' & s1 & m1 & Hin & -> & ? & ? & ? & ? & ?);
      [destruct s; simpl; by rewrite lookup_insert_eq|done|].
    exists o', s1, m1. split_and!; [by right|done|by destruct s..|done|done].
  - exists o, s, m. split_and!; [by left|done..].
Qed.

End cleanup_more.

(** X9: the cleanup announces once, and only when it gets through.  A
    cleanup that returns has emitted exactly one event, to the task's room:
    [export_failed] after an unsuccessful run, [export_finished] with the
    artifact's name otherwise.  A cleanup that raises has emitted none. *)
Theorem cleanup_announces_once (lk : link) (g : grn) (s : server) :
  match (cleanup lk g s).1 with
  | Ok _ => ∃ ev, events (cleanup lk g s).2 = events s ++ [ev]
                  ∧ announcement lk g ev
  | Raise _ => events (cleanup lk g s).2 = events s
  end.
Proof.
  pose proof (detach_events (events s) lk s eq_refl) as H0.
  destruct (cleanup lk g s) as [r s'] eqn:Hc. cbn [fst snd].
  unfold cleanup in Hc. unfold mbind at 1, ST_bind in Hc.
  destruct (for_each _ _ s) as [[[]|e] s0]; cbn [fst snd] in *;
    [|by injection Hc as <- <-].
  pose proof (model_rewind_events (events s) (lk_session_id lk) s0 H0) as H1.
  unfold mbind at 1, ST_bind in Hc.
  destruct (model_rewind _ s0) as [[[]|e] s1]; cbn [fst snd] in *;
    [|by injection Hc as <- <-].
  unfold announcement. destruct (unsuccessful g).
  - unfold Server.emit, modify in Hc. injection Hc as <- <-.
    exists (Event "export_failed" PNone (Some (lk_sid lk))).
    split; [|done]. destruct s1; simpl in *. by rewrite H1.
  - pose proof (assemble_events (events s) lk s1 H1) as H2.
    unfold mbind, ST_bind in Hc.
    destruct (assemble lk s1) as [[name|e] s2]; cbn [fst snd] in *;
      [|by injection Hc as <- <-].
    unfold Server.emit, modify in Hc. injection Hc as <- <-.
    exists (Event "export_finished" (PStr name) (Some (lk_sid lk))). split.
    + destruct s2; simpl in *. by rewrite H2.
    + split; [done|]. by exists name.
Qed.

(** X10: a temporary outputter that the model no longer holds stops the
    cleanup before anything else is done.  It raises [KeyError] for that
    outputter's id, whatever way the run ended; the model is not rewound,
    no event is emitted and no file is touched. *)
Theorem cleanup_outputter_gone (lk : link) (g : grn) (s : server) (m : model) :
  models s !! lk_session_id lk = Some m →
  detach (o_id <$> lk_temporary_outputters lk) (m_outputters m) = None →
  ∃ o, o ∈ lk_temporary_outputters lk
    ∧ (cleanup lk g s).1 = raise KeyError (o_id o)
    ∧ events (cleanup lk g s).2 = events s
    ∧ files (cleanup lk g s).2 = files s
    ∧ trace (cleanup lk g s).2 = trace s
    ∧ ∃ m1, models (cleanup lk g s).2 !! lk_session_id lk = Some m1
            ∧ m_time_step m1 = m_time_step m.
Proof.
  intros Hm Hd.
  destruct (detach_fails _ _ s m Hm Hd) as (o & s1 & m1 & Hin & Hfe & Hrest).
  exists o. split; [done|].
  assert (Hc : cleanup lk g s = (raise KeyError (o_id o), s1)).
  { unfold cleanup. unfold mbind at 1, ST_bind. by rewrite Hfe. }
  rewrite Hc. cbn [fst snd].
  destruct Hrest as (? & ? & ? & ? & ?). split_and!; [done..|]. by exists m1.
Qed.

Lemma cleanup_outputter_gone_witness :
  ∃ o, o ∈ [Outputter "o1" "/tmp/td/a.out"]
    ∧ (cleanup (ExportCleanup "session-1" [Outputter "o1" "/tmp/td/a.out"]
                  "model" "/sessions/session-1" "sid-1")
         (grn_of (Ok tt)) server0).1 = raise KeyError (o_id o)
    ∧ events (cleanup (ExportCleanup "session-1" [Outputter "o1" "/tmp/td/a.out"]
                  "model" "/sessions/session-1" "sid-1")
         (grn_of (Ok tt)) server0).2 = events server0
    ∧ files (cleanup (ExportCleanup "session-1" [Outputter "o1" "/tmp/td/a.out"]
                  "model" "/sessions/session-1" "sid-1")
         (grn_of (Ok tt)) server0).2 = files server0
    ∧ trace (cleanup (ExportCleanup "session-1" [Outputter "o1" "/tmp/td/a.out"]
                  "model" "/sessions/session-1" "sid-1")
         (grn_of (Ok tt)) server0).2 = trace server0
    ∧ ∃ m1, models (cleanup (ExportCleanup "session-1"
                               [Outputter "o1" "/tmp/td/a.out"]
                               "model" "/sessions/session-1" "sid-1")
                      (grn_of (Ok tt)) server0).2 !! "session-1" = Some m1
            ∧ m_time_step m1 = -1.
Proof.
  apply (cleanup_outputter_gone
           (ExportCleanup "session-1" [Outputter "o1" "/tmp/td/a.out"]
              "model" "/sessions/session-1" "sid-1")
           (grn_of (Ok tt)) server0 (Model [] (-1) None));
    reflexivity.
Defined.

(** X11: an export without outputters.  After a clean run the cleanup
    rewinds the model and then fails with [IndexError] on
    [temporary_outputters[0]]: neither [export_finished] nor [export_failed]
    is emitted, and no file is touched. *)
Theorem cleanup_no_outputters (lk : link) (s : server) (m : model) :
  lk_temporary_outputters lk = [] →
  models s !! lk_session_id lk = Some m →
  m_rewind_raises m = None →
  (cleanup lk (grn_of (Ok tt)) s).1 = raise IndexError "list index out of range"
  ∧ events (cleanup lk (grn_of (Ok tt)) s).2 = events s
  ∧ files (cleanup lk (grn_of (Ok tt)) s).2 = files s
  ∧ models (cleanup lk (grn_of (Ok tt)) s).2 !! lk_session_id lk
      = Some (Model (m_outputters m) (-1) None).
Proof.
  intros Ht Hm Hrr.
  rewrite (cleanup_after_detach lk _ s m (m_outputters m) Hm Hrr)
    by by rewrite Ht.
  change (unsuccessful (grn_of (Ok ()))) with false. cbv iota.
  unfold assemble. rewrite Ht. simpl. destruct s; simpl.
  split_and!; [done..|]. apply lookup_insert_eq.
Qed.

Lemma cleanup_no_outputters_witness :
  (cleanup (export_link (Request "session-1" "hash-1" "/sessions/session-1" []
                           "model" "/tmp/td") "sid-1")
     (grn_of (Ok tt)) server0).1 = raise IndexError "list index out of range"
  ∧ events (cleanup (export_link (Request "session-1" "hash-1"
                                    "/sessions/session-1" [] "model" "/tmp/td")
                       "sid-1") (grn_of (Ok tt)) server0).2 = events server0
  ∧ files (cleanup (export_link (Request "session-1" "hash-1"
                                   "/sessions/session-1" [] "model" "/tmp/td")
                      "sid-1") (grn_of (Ok tt)) server0).2 = files server0
  ∧ models (cleanup (export_link (Request "session-1" "hash-1"
                                    "/sessions/session-1" [] "model" "/tmp/td")
                       "sid-1") (grn_of (Ok tt)) server0).2 !! "session-1"
      = Some (Model [] (-1) None).
Proof.
  apply (cleanup_no_outputters
           (export_link (Request "session-1" "hash-1" "/sessions/session-1" []
                           "model" "/tmp/td") "sid-1")
           server0 (Model [] (-1) None)); reflexivity.
Defined.

(* ===================================================================== *)
(** ** Paths, and the download of an export                               *)
(* ===================================================================== *)

Section paths.
Implicit Types (a b p : string) (c : ascii).

Lemma has_slash_app a b : has_slash (a +:+ b) = has_slash a || has_slash b.
Proof.
  induction a as [|c a IH]; simpl; [done|]. by destruct (decide (c = slash)).
Qed.

Lemma basename_no_slash p : has_slash p = false → basename p = p.
Proof.
  destruct p as [|c p]; simpl; [done|].
  destruct (decide (c = slash)); [done|]. by intros ->.
Qed.

(** What follows the last slash has none. *)
Lemma basename_has_slash p : has_slash (basename p) = false.
Proof.
  induction p as [|c p IH]; simpl; [done|].
  destruct (has_slash p) eqn:Hp; [done|].
  destruct (decide (c = slash)) as [->|Hc]; [done|].
  simpl. by rewrite decide_False, Hp.
Qed.

Lemma basename_app_slash a b : basename (a +:+ String slash b) = basename b.
Proof.
  induction a as [|c a IH]; simpl.
  - destruct (has_slash b) eqn:Hb; [done|]. by rewrite basename_no_slash.
  - rewrite has_slash_app. simpl. by rewrite orb_true_r.
Qed.

Lemma ends_with_slash_split a :
  ends_with_slash a = true → ∃ a', a = a' +:+ String slash EmptyString.
Proof.
  induction a as [|c a IH]; simpl; [done|].
  destruct a as [|c' a].
  - intros ->%bool_decide_eq_true. by exists EmptyString.
  - intros H. destruct (IH H) as [a' ->]. by exists (String c a').
Qed.

Lemma string_app_assoc a b p : (a +:+ b) +:+ p = a +:+ (b +:+ p).
Proof.
  induction a as [|c a IH]; [done|].
  change (String c ((a +:+ b) +:+ p) = String c (a +:+ (b +:+ p))).
  by rewrite IH.
Qed.

(** [os.path.basename(os.path.join(a, b))] is the base name of [b]. *)
Lemma basename_path_join a b :
  b ≠ EmptyString → basename (path_join a b) = basename b.
Proof.
  destruct b as [|c b]; [done|]. intros _. unfold path_join.
  destruct (decide (c = slash)); [done|].
  destruct (decide (a = EmptyString)); [done|].
  destruct (ends_with_slash a) eqn:Ha.
  - destruct (ends_with_slash_split a Ha) as [a' ->].
    rewrite string_app_assoc.
    change (String slash EmptyString +:+ String c b)
      with (String slash (String c b)).
    by rewrite basename_app_slash.
  - change ("/" +:+ String c b) with (String slash (String c b)).
    by rewrite basename_app_slash.
Qed.

Lemma truthy_nonempty p : p ≠ EmptyString → truthy (PStr p) = true.
Proof. by destruct p. Qed.

End paths.

Section download.
Implicit Types (s : server) (lk : link) (rq : request).

Lemma append_nonempty a b : b ≠ EmptyString → a +:+ b ≠ EmptyString.
Proof. destruct a, b; done. Qed.

(** The archive the zip loop writes into stays where it is. *)
Lemma zip_loop_keeps zpath (temps : list outputter) :
  preserves (fun s => is_Some (files s !! zpath))
    (for_each (fun m => obj_fn ← probe (o_filename m);
                        zip_write zpath obj_fn (basename obj_fn)) temps).
Proof.
  apply preserves_for_each. intros o. unfold probe, path_exists, zip_write.
  repeat first
    [ apply preserves_ret | apply preserves_lift | apply preserves_gets
    | apply preserves_bind; [|intros ?]
    | case_match ].
  apply preserves_modify. intros s' Hs. destruct s'; simpl in *.
  rewrite lookup_alter. destruct (decide (zpath = zpath)); [|done].
  by apply fmap_is_Some.
Qed.

(** An assembly that returns has put the artifact into the session
    directory, under the name it returns. *)
Lemma assemble_artifact lk s name s' :
  assemble lk s = (Ok name, s') →
  name ≠ EmptyString →
  is_Some (files s' !! path_join (lk_session_path lk) name).
Proof.
  unfold assemble. case_bool_decide as Hlen.
  - unfold zip_create. unfold mbind at 1, ST_bind, modify. cbn [fst snd].
    set (zpath := path_join _ _).
    set (s1 := set_files _ s).
    pose proof (zip_loop_keeps zpath (lk_temporary_outputters lk) s1) as Hk.
    unfold mbind at 1, ST_bind.
    destruct (for_each _ _ s1) as [[[]|e] s2]; [|done].
    cbn [fst snd] in Hk. intros [= <- <-] _. apply Hk.
    subst s1. destruct s; simpl. rewrite lookup_insert_eq. by eexists.
  - destruct (lk_temporary_outputters lk) as [|o temps]; [done|].
    unfold probe, path_exists, move. st_unfold. cbn [fst snd].
    destruct (files s !! _) as [f|]; [|done]. cbn [fst snd].
    intros [= <- <-] _. destruct s; simpl. rewrite lookup_insert_eq.
    by eexists.
Qed.

End download.

(** X12: what the cleanup announces can be downloaded.  When the cleanup of
    a clean run returns, it has emitted [export_finished] with a name, and a
    download request of the same session for that name gets the artifact,
    with a [Content-Disposition] that names it; the request changes
    nothing. *)
Theorem announced_artifact_served (rq : request) (lk : link) (g : grn)
    (s : server) :
  (cleanup lk g s).1 = Ok tt →
  unsuccessful g = false →
  lk_session_path lk = rq_session_dir rq →
  ∃ name,
    events (cleanup lk g s).2 =
      events s ++ [Event "export_finished" (PStr name) (Some (lk_sid lk))]
    ∧ (name ≠ EmptyString →
       ∃ f, files (cleanup lk g s).2 !! path_join (rq_session_dir rq) name
              = Some f
            ∧ get_output_file rq (Some name) (cleanup lk g s).2 =
                (Ok (Response (path_join (rq_session_dir rq) name) f
                       ("attachment; filename=" +:+ basename name)),
                 (cleanup lk g s).2)).
Proof.
  intros Hok Hg Hsp.
  pose proof (detach_events (events s) lk s eq_refl) as H0.
  destruct (cleanup lk g s) as [r s'] eqn:Hc. cbn [fst snd] in *. subst r.
  unfold cleanup in Hc. unfold mbind at 1, ST_bind in Hc.
  destruct (for_each _ _ s) as [[[]|e] s0]; cbn [fst snd] in *; [|done].
  pose proof (model_rewind_events (events s) (lk_session_id lk) s0 H0) as H1.
  unfold mbind at 1, ST_bind in Hc.
  destruct (model_rewind _ s0) as [[[]|e] s1]; cbn [fst snd] in *; [|done].
  rewrite Hg in Hc.
  pose proof (assemble_events (events s) lk s1 H1) as H2.
  unfold mbind, ST_bind in Hc.
  destruct (assemble lk s1) as [[name|e] s2] eqn:Ha; cbn [fst snd] in *;
    [|done].
  unfold Server.emit, modify in Hc. injection Hc as <-.
  exists name. split; [destruct s2; simpl in *; by rewrite H2|].
  intros Hne. destruct (assemble_artifact _ _ _ _ Ha Hne) as [f Hf].
  rewrite Hsp in Hf. exists f. split; [by destruct s2|].
  unfold get_output_file. rewrite truthy_nonempty by done.
  unfold FileResponse. st_unfold. cbn [fst snd].
  replace (files (Server.set_events _ s2)) with (files s2) by by destruct s2.
  rewrite Hf. by rewrite basename_path_join.
Qed.

Lemma announced_artifact_served_witness :
  let s1 := (run_export_model request0 server0).2 in
  let run := cleanup (export_link request0 "sid-1") (grn_of (Ok tt)) s1 in
  ∃ name,
    events run.2 =
      events s1 ++ [Event "export_finished" (PStr name) (Some "sid-1")]
    ∧ (name ≠ EmptyString →
       ∃ f, files run.2 !! path_join "/sessions/session-1" name = Some f
            ∧ get_output_file request0 (Some name) run.2 =
                (Ok (Response (path_join "/sessions/session-1" name) f
                       ("attachment; filename=" +:+ basename name)),
                 run.2)).
Proof.
  apply (announced_artifact_served request0 (export_link request0 "sid-1")
           (grn_of (Ok tt)) (run_export_model request0 server0).2);
    reflexivity.
Defined.

(** X13: a download is not confined to the session directory.  For a
    [filename] parameter that is an absolute path the handler serves
    whatever file of the server is at that path; the session directory
    plays no part in it. *)
Theorem download_absolute_path (rq : request) (s : server) (rest : string)
    (f : file) :
  files s !! String slash rest = Some f →
  get_output_file rq (Some (String slash rest)) s =
    (Ok (Response (String slash rest) f
           ("attachment; filename=" +:+ basename (String slash rest))), s).
Proof.
  intros Hf. unfold get_output_file, FileResponse, path_join. st_unfold.
  cbn [truthy String.eqb negb]. rewrite decide_True by done.
  cbn [fst snd]. by rewrite Hf.
Qed.

Lemma download_absolute_path_witness :
  get_output_file request0 (Some "/tmp/td/a.out") server0 =
    (Ok (Response "/tmp/td/a.out" (Plain "A")
           ("attachment; filename=" +:+ basename "/tmp/td/a.out")), server0).
Proof. apply (download_absolute_path request0 server0 "tmp/td/a.out"). reflexivity. Defined.

Section partial_archive.
Implicit Types (s : server) (lk : link).

Lemma for_each_app {St A} (f : A → ST St unit) (l1 l2 : list A) (s : St) :
  for_each f (l1 ++ l2) s =
    match for_each f l1 s with
    | (Ok _, s1) => for_each f l2 s1
    | (Raise e, s1) => (Raise e, s1)
    end.
Proof.
  revert s. induction l1 as [|x l1 IH]; intros s; simpl; [done|].
  unfold mbind, ST_bind. destruct (f x s) as [[[]|e] s1]; [apply IH|done].
Qed.

End partial_archive.

(** X14: a missing output leaves a partial archive behind.  When several
    outputters were selected and, after a clean run, the file of one of
    them is at neither of the two paths probed, the cleanup fails with
    [OSError] and emits no event; the archive it had started stays in the
    session directory, holding the entries of the outputters before the
    missing one. *)
Theorem cleanup_partial_archive (lk : link) (s : server) (m : model)
    (rest pre post : list outputter) (o : outputter) (srcs : list file) :
  models s !! lk_session_id lk = Some m →
  m_rewind_raises m = None →
  detach (o_id <$> lk_temporary_outputters lk) (m_outputters m) = Some rest →
  lk_temporary_outputters lk = pre ++ o :: post →
  (1 < length (lk_temporary_outputters lk))%nat →
  Forall2 (fun o f => files s !! resolve (files s) (o_filename o) = Some f
                      ∧ o_filename o ≠ zip_path lk
                      ∧ resolve (files s) (o_filename o) ≠ zip_path lk)
    pre srcs →
  output_missing (files s) o →
  o_filename o ≠ zip_path lk →
  o_filename o +:+ ".zip" ≠ zip_path lk →
  let run := cleanup lk (grn_of (Ok tt)) s in
  run.1 = raise OSError "No such file or directory"
  ∧ events run.2 = events s
  ∧ files run.2 =
      <[zip_path lk := ZipArchive true (zip_entries (files s) pre srcs)]>
        (files s).
Proof.
  intros Hm Hrr Hd Ht Hlen Hpre [Hmiss1 Hmiss2] Hz1 Hz2 run. subst run.
  set (s1 := detached_rewound lk rest s).
  assert (Hf1 : files s1 = files s) by by destruct s.
  assert (He1 : events s1 = events s) by by destruct s.
  assert (Hc : cleanup lk (grn_of (Ok tt)) s =
    (raise OSError "No such file or directory",
     set_files (<[zip_path lk :=
                    ZipArchive true (zip_entries (files s) pre srcs)]> (files s))
       s1)).
  { rewrite (cleanup_after_detach lk _ s m rest Hm Hrr Hd).
    change (unsuccessful (grn_of (Ok ()))) with false. cbv iota. fold s1.
    unfold assemble. rewrite bool_decide_true by done.
    fold (zip_path lk). unfold zip_create.
    unfold mbind at 1, ST_bind. unfold mbind at 1, ST_bind, modify.
    cbn [fst snd]. unfold mbind at 1, ST_bind.
    rewrite Ht, for_each_app.
    rewrite (zip_loop (zip_path lk) (files s) _ _ Hpre [])
      by (rewrite <-Hf1; by destruct s1).
    cbn [for_each app]. unfold mbind at 1, ST_bind.
    unfold probe, path_exists, zip_write. st_unfold. cbn [fst snd].
    rewrite set_files_set_files.
    replace (files (set_files _ s1))
      with (<[zip_path lk := ZipArchive true (zip_entries (files s) pre srcs)]>
              (files s)) by (by destruct s1).
    rewrite (lookup_insert_ne _ (zip_path lk) (o_filename o)) by done.
    rewrite Hmiss1. rewrite bool_decide_false by (by intros [? ?]).
    rewrite lookup_insert_ne by done. by rewrite Hmiss2. }
  rewrite Hc. cbn [fst snd]. split_and!; [done|by destruct s1..].
Qed.

Lemma cleanup_partial_archive_witness :
  let s1 := (run_export_model
               (Request "session-1" "hash-1" "/sessions/session-1"
                  [Outputter "o1" "a.out"; Outputter "o2" "c.out"] "model"
                  "/tmp/td") server0).2 in
  let run := cleanup (ExportCleanup "session-1"
                        [Outputter "o1" "/tmp/td/a.out";
                         Outputter "o2" "/tmp/td/c.out"]
                        "model" "/sessions/session-1" "sid-1")
               (grn_of (Ok tt)) s1 in
  run.1 = raise OSError "No such file or directory"
  ∧ events run.2 = events s1
  ∧ files run.2 =
      <["/sessions/session-1/model_output.zip" :=
          ZipArchive true [("a.out", Plain "A")]]> (files s1).
Proof.
  intros s1.
  apply (cleanup_partial_archive
           (ExportCleanup "session-1"
              [Outputter "o1" "/tmp/td/a.out"; Outputter "o2" "/tmp/td/c.out"]
              "model" "/sessions/session-1" "sid-1")
           s1
           (Model [Outputter "o1" "/tmp/td/a.out";
                   Outputter "o2" "/tmp/td/c.out"] (-1) None)
           [] [Outputter "o1" "/tmp/td/a.out"] [] (Outputter "o2" "/tmp/td/c.out")
           [Plain "A"]).
  - reflexivity.
  - reflexivity.
  - reflexivity.
  - reflexivity.
  - simpl. lia.
  - constructor; [|constructor].
    split; [reflexivity|]. split; intros Heq; vm_compute in Heq; discriminate.
  - split; reflexivity.
  - intros Heq; vm_compute in Heq; discriminate.
  - intros Heq; vm_compute in Heq; discriminate.
Defined.

(* ===================================================================== *)
(** ** Requests that follow one another                                   *)
(* ===================================================================== *)

Section sequences.
Implicit Types (s : server) (rq : request) (m : model).

Ltac frame_routing :=
  repeat first
    [ apply preserves_ret | apply preserves_raise | apply preserves_lift
    | apply preserves_gets
    | apply preserves_modify; by intros []
    | apply preserves_for_each; intros ?
    | apply preserves_try
    | apply preserves_bind; [|intros ?]
    | case_bool_decide | case_match ].

Lemma same_routing_refl rq s : same_routing rq s s.
Proof. by split_and!. Qed.

(** Writing some model of the registry keeps every model that is there. *)
Lemma set_models_routing rq s0 session_id m' :
  ∀ s, same_routing rq s0 s →
       same_routing rq s0
         (set_models (<[session_id := m']> (models s)) s).
Proof.
  intros [] (Hn & Hs & Hm). split_and!; [done..|]. simpl in *. intros Hin.
  destruct (decide (session_id = rq_session_id rq)) as [->|Hne].
  - rewrite lookup_insert_eq. by eexists.
  - rewrite lookup_insert_ne by done. by apply Hm.
Qed.

Lemma cleanup_routing rq s0 lk g : preserves (same_routing rq s0) (cleanup lk g).
Proof.
  unfold cleanup, assemble, outputters_remove, model_rewind, Server.emit,
    log_op, zip_create, zip_write, move, probe, path_exists.
  repeat first
    [ apply preserves_ret | apply preserves_raise | apply preserves_lift
    | apply preserves_gets
    | apply preserves_modify; apply set_models_routing
    | apply preserves_modify; by intros []
    | apply preserves_for_each; intros ?
    | apply preserves_bind; [|intros ?]
    | case_bool_decide | case_match ].
Qed.

Lemma finish_routing rq i r s : same_routing rq s (finish i r s).
Proof.
  unfold finish. destruct (greenlets s !! i) as [gl|]; [|apply same_routing_refl].
  destruct (g_alive gl); [|apply same_routing_refl].
  match goal with |- context [foldl _ ?s1 _] =>
    assert (H1 : same_routing rq s s1) by (by destruct s);
    revert H1; generalize s1 end.
  induction (g_links gl) as [|lk links IH]; intros s1 H1; simpl; [done|].
  by apply IH, cleanup_routing.
Qed.

Lemma get_rewind_routing rq rq' s0 :
  preserves (same_routing rq' s0) (get_rewind rq).
Proof.
  unfold get_rewind, acquire_session_lock, release_session_lock,
    session_set_num_sent, model_rewind, greenlet_kill_noblock, log_op.
  repeat first
    [ apply preserves_ret | apply preserves_raise | apply preserves_lift
    | apply preserves_gets
    | apply preserves_modify; apply set_models_routing
    | apply preserves_modify; by intros []
    | apply preserves_try
    | apply preserves_bind; [|intros ?]
    | case_bool_decide | case_match ].
Qed.

Lemma greenlet_truthy_liveness s s' i :
  liveness s' = liveness s →
  greenlet_truthy (Some i) s' = greenlet_truthy (Some i) s.
Proof.
  intros Hl. unfold greenlet_truthy.
  assert (H : liveness s' !! i = liveness s !! i) by by rewrite Hl.
  unfold liveness in H. rewrite !list_lookup_fmap in H.
  destruct (greenlets s' !! i), (greenlets s !! i); simpl in H; congruence.
Qed.

(** A run request, by what it finds. *)
Lemma run_model_decided rq s sid :
  sio_ns s = true →
  sock_sess_map s !! rq_session_id rq = Some sid →
  (run_model rq s).1 =
    if may_start rq sid s then Ok (Some (length (greenlets s))) else Ok None.
Proof.
  intros Hns Hsid. unfold run_model. st_unfold. cbn beta.
  rewrite Hns. cbn [negb fst snd]. rewrite Hsid. cbn [fst snd].
  pose proof (start_task_spec rq sid [] s) as H. cbn zeta in H.
  destruct (may_start rq sid s); by destruct H as [-> _].
Qed.

End sequences.

(** X15: a run request right after a rewind.  A rewind that cancels a live
    task does not wait for its death, so a run request of the session that
    arrives before the task has died is answered without starting anything;
    once the task has died, with whatever outcome, the same request starts a
    new task. *)
Theorem run_after_rewind (rq : request) (s : server) (sio : string) (g : nat) :
  task_to_cancel rq s = Some (sio, g) →
  is_Some (models s !! rq_session_id rq) →
  let s1 := (get_rewind rq s).2 in
  (run_model rq s1).1 = Ok None
  ∧ ∀ r, (run_model rq (finish g r s1)).1 = Ok (Some (length (greenlets s))).
Proof.
  intros Ht Hm s1.
  unfold task_to_cancel in Ht.
  destruct (sio_ns s) eqn:Hns; [|done].
  destruct (sock_sess_map s !! rq_session_id rq) as [sio'|] eqn:Hsid; [|done].
  cbn [mbind option_bind] in Ht.
  destruct (active_greenlets s !! sio') as [g'|] eqn:Hag; [|done].
  cbn [mbind option_bind] in Ht.
  destruct (greenlet_truthy (Some g') s) eqn:Halive; [|done].
  injection Ht as -> ->.
  destruct (get_rewind_liveness s rq s) as [Ha1 Hl1]; [by split|].
  destruct (get_rewind_routing rq rq s s (same_routing_refl _ _))
    as (Hns1 & Hsid1 & Hm1).
  fold s1 in Ha1, Hl1, Hns1, Hsid1, Hm1.
  assert (Halive1 : greenlet_truthy (Some g) s1 = true)
    by by rewrite (greenlet_truthy_liveness s s1).
  split.
  - rewrite (run_model_decided rq s1 sio) by congruence.
    unfold may_start, active_greenlet. rewrite Ha1, Hag, Halive1.
    by rewrite andb_false_r.
  - intros r.
    destruct (finish_routing rq g r s1) as (Hns2 & Hsid2 & Hm2).
    rewrite (run_model_decided rq (finish g r s1) sio) by congruence.
    destruct (finish_tasks g r s1) as [Ha2 Hg2].
    unfold greenlet_truthy in Halive1.
    destruct (greenlets s1 !! g) as [gl|] eqn:Hgl; [|done].
    destruct Hg2 as [Hg2|(gl' & Hgl' & _ & Hg2)].
    { exfalso. unfold finish in Hg2. rewrite Hgl, Halive1 in Hg2.
      match type of Hg2 with greenlets (foldl _ ?s2 _) = _ =>
        destruct (links_tasks s2 (g_links gl) (grn_of r) s2 (same_tasks_refl s2))
          as [Hg3 _] end.
      rewrite Hg3 in Hg2. destruct s1; simpl in *.
      assert (H : <[g := Greenlet (g_sockid gl) (g_session_hash gl) false
                           (g_kill_requested gl) (g_links gl)]> greenlets0 !! g
                  = Some gl) by by rewrite Hg2.
      rewrite list_lookup_insert_eq in H by by eapply lookup_lt_Some.
      injection H as H. rewrite <-H in Halive1. done. }
    assert (Hmay : may_start rq sio (finish g r s1) = true).
    { unfold may_start, active_greenlet, greenlet_truthy.
      rewrite bool_decide_true by auto. rewrite Ha2, Ha1, Hag, Hg2.
      rewrite list_lookup_insert_eq by by eapply lookup_lt_Some. done. }
    rewrite Hmay, Hg2, length_insert. do 2 f_equal.
    assert (Hlen : length (liveness s1) = length (liveness s)) by by rewrite Hl1.
    unfold liveness in Hlen. by rewrite !length_fmap in Hlen.
Qed.

Lemma run_after_rewind_witness :
  let s := (run_model request0 server0).2 in
  let s1 := (get_rewind request0 s).2 in
  (run_model request0 s1).1 = Ok None
  ∧ ∀ r, (run_model request0 (finish 0 r s1)).1 = Ok (Some 1%nat).
Proof.
  apply (run_after_rewind request0 (run_model request0 server0).2 "sid-1" 0).
  - reflexivity.
  - by eexists.
Defined.

Section export_request.
Implicit Types (s : server) (rq : request) (m : model).

(** Attaching the outputters, one [+=] after the other. *)
Lemma outputters_add_all session_id (os : list outputter) : ∀ s m,
  models s !! session_id = Some m →
  for_each (outputters_add session_id) os s =
    (Ok tt, set_models (<[session_id := attached m os]> (models s)) s).
Proof.
  induction os as [|o os IH]; intros s m Hm; cbn [for_each].
  - unfold mret, ST_ret, attached. rewrite app_nil_r. f_equal.
    rewrite insert_id; [by rewrite set_models_id|]. by destruct m.
  - unfold mbind at 1, ST_bind. unfold outputters_add at 1. st_unfold.
    rewrite Hm. cbn [fst snd].
    rewrite (IH _ (attached m [o]));
      [|destruct s; simpl; by rewrite lookup_insert_eq].
    destruct s; simpl. rewrite insert_insert_eq. unfold attached. simpl.
    by rewrite <-app_assoc.
Qed.

Lemma spawn_models ms sid h :
  preserves (fun s => models s = ms) (spawn sid h).
Proof. intros [] Hs. done. Qed.

Lemma start_task_models ms rq sid links :
  preserves (fun s => models s = ms) (start_task rq sid links).
Proof.
  unfold start_task, session_set_num_sent, greenlet_link, log_op.
  repeat first
    [ apply preserves_ret | apply preserves_gets | apply spawn_models
    | apply preserves_modify; by intros []
    | apply preserves_for_each; intros ?
    | apply preserves_bind; [|intros ?]
    | case_match ].
Qed.

End export_request.

(** X16: an export request attaches its outputters before it looks for the
    socket and for a running task.  When the session has no socket (the
    request fails with [ValueError]) or a task is already running (nothing
    is started), the outputters stay attached to the model all the same,
    and no greenlet carries a cleanup that would detach them. *)
Theorem export_request_attaches_first (rq : request) (s : server) (m : model) :
  sio_ns s = true →
  models s !! rq_session_id rq = Some m →
  let r := (run_export_model rq s).1 in
  let s' := (run_export_model rq s).2 in
  models s' !! rq_session_id rq = Some (attached m (temporaries rq))
  ∧ match sock_sess_map s !! rq_session_id rq with
    | None =>
        r = raise ValueError "no sock_session associated with pyramid_session"
        ∧ same_tasks s s'
    | Some sid =>
        if greenlet_truthy (active_greenlet sid s) s
        then r = Ok None ∧ same_tasks s s'
        else r = Ok (Some (length (greenlets s)))
    end.
Proof.
  intros Hns Hm r s'. subst r s'.
  set (s1 := set_models (<[rq_session_id rq := attached m (temporaries rq)]>
                           (models s)) s).
  assert (Hm1 : models s1 !! rq_session_id rq = Some (attached m (temporaries rq)))
    by (destruct s; simpl; apply lookup_insert_eq).
  assert (Hrun : run_export_model rq s =
    match sock_sess_map s !! rq_session_id rq with
    | None =>
        (raise ValueError "no sock_session associated with pyramid_session", s1)
    | Some sid => start_task rq sid [export_link rq sid] s1
    end).
  { unfold run_export_model. unfold mbind at 1, ST_bind, gets. rewrite Hns.
    cbn [negb fst snd]. unfold mbind at 1, ST_bind.
    fold (temporaries rq). rewrite (outputters_add_all _ _ s m Hm). fold s1.
    unfold mbind at 1, ST_bind, gets. cbn [fst snd].
    replace (sock_sess_map s1) with (sock_sess_map s) by by destruct s.
    by destruct (sock_sess_map s !! rq_session_id rq). }
  rewrite Hrun.
  destruct (sock_sess_map s !! rq_session_id rq) as [sid|]; cbn [fst snd].
  2:{ split; [done|]. split; [done|]. by destruct s. }
  split.
  - by rewrite (start_task_models (models s1) rq sid [export_link rq sid] s1
                  eq_refl).
  - pose proof (start_task_spec rq sid [export_link rq sid] s1) as H.
    cbn zeta in H.
    assert (Hmay : may_start rq sid s1 =
                   negb (greenlet_truthy (active_greenlet sid s) s)).
    { unfold may_start. rewrite bool_decide_true by by rewrite Hm1.
      by destruct s. }
    rewrite Hmay in H.
    destruct (greenlet_truthy (active_greenlet sid s) s); cbn [negb] in H.
    + destruct H as [-> [Hg Ha]]. split; [done|].
      split; [rewrite Hg|rewrite Ha]; by destruct s.
    + destruct H as [-> _]. by destruct s.
Qed.

Lemma export_request_attaches_first_witness :
  let s := (run_model request0 server0).2 in
  models (run_export_model request0 s).2 !! "session-1"
    = Some (attached (Model [] (-1) None) (temporaries request0))
  ∧ (run_export_model request0 s).1 = Ok None
  ∧ same_tasks s (run_export_model request0 s).2.
Proof.
  intros s.
  destruct (export_request_attaches_first request0 s (Model [] (-1) None))
    as [H1 H2]; [reflexivity|reflexivity|].
  split; [exact H1|]. exact H2.
Defined.

(* ===================================================================== *)
(** ** The end of a run and the uncertainty workers                       *)
(* ===================================================================== *)

Section teardown.
Context (cf : config).
Implicit Types (w : world).

(** A pass on an exhausted model is the [break]. *)
Lemma iteration_exhausted w :
  ∃ w', iteration cf None w = (Ok false, w') ∧ w_uncertain w' = false.
Proof.
  destruct w as [evs sess g t u kp env now copy].
  unfold iteration, inner_try, drop_uncertain_models, set_uncertain_models,
    time_time, model_step. st_unfold. cbn.
  destruct (bool_decide (t = -1)); cbn;
    [destruct (has_weathering_uncertainty cf); cbn|]; by eexists.
Qed.

(** A pass that ends the loop has torn the workers down. *)
Lemma iteration_break entry w w' :
  iteration cf entry w = (Ok false, w') → w_uncertain w' = false.
Proof.
  unfold iteration. unfold mbind at 1, ST_bind.
  destruct (try_ (inner_try cf entry) w) as [[[output|e]|e'] w1]; [| |done].
  - unfold incr_num_sent. st_unfold. intros H. exfalso. revert H.
    repeat (case_match; try done).
  - destruct (isinstance_StopIteration e); [|done].
    unfold drop_uncertain_models. st_unfold. intros [= <-]. by destruct w1.
Qed.

Lemma step_loop_returns script : ∀ w w',
  step_loop cf script w = (Ok tt, w') → w_uncertain w' = false.
Proof.
  induction script as [|entry rest IH]; intros w w'; cbn [step_loop].
  - destruct (iteration_exhausted w) as (w1 & Hit & Hu).
    unfold mbind, ST_bind. rewrite Hit. by intros [= <-].
  - unfold mbind at 1, ST_bind.
    destruct (iteration cf (Some entry) w) as [[[|]|e] w1] eqn:Hit; [|  |done].
    + apply IH.
    + intros [= <-]. by apply (iteration_break _ _ _ Hit).
Qed.

Lemma try_body_returns script w w' :
  try_body cf script w = (Ok tt, w') → w_uncertain w' = false.
Proof.
  unfold try_body. unfold mbind at 1, ST_bind.
  destruct (startup cf w) as [[[]|e] w1]; [|done]. apply step_loop_returns.
Qed.

End teardown.

(** X17: a run that completes has torn down its uncertainty workers.
    Whenever [execute_async_model] returns normally, the loop was left
    through the [StopIteration] clause, which drops the session's
    uncertainty models; nothing establishes them again before the return. *)
Theorem completion_releases_workers (cf : config) (script : list step_result)
    (w0 : world) :
  (execute_async_model cf script w0).1 = Ok tt →
  w_uncertain (execute_async_model cf script w0).2 = false.
Proof.
  rewrite execute_async_model_unfold.
  destruct (try_body cf script _) as [r w1] eqn:Hb.
  destruct r as [[]|e].
  - apply try_body_returns in Hb. cbn [except_clauses mret ST_ret].
    unfold mret, ST_ret. rewrite finally_clause_spec.
    destruct (finally_ok w1); [|done]. intros _. by destruct w1.
  - destruct (isinstance_GreenletExit e) eqn:Hge.
    + rewrite except_clauses_killed by done.
      destruct (finally_clause _) as [[[]|?] w3]; done.
    + rewrite except_clauses_failure by done.
      destruct (finally_clause _) as [[[]|?] w3]; done.
Qed.

Lemma completion_releases_workers_witness :
  (execute_async_model cf_ensemble [StepOutput nominal_record 1]
     (world0 true [])).1 = Ok tt
  ∧ w_uncertain (execute_async_model cf_ensemble [StepOutput nominal_record 1]
                   (world0 true [])).2 = false.
Proof.
  split; [reflexivity|].
  apply (completion_releases_workers cf_ensemble [StepOutput nominal_record 1]
           (world0 true [])).
  reflexivity.
Defined.

(* ===================================================================== *)
(** ** The step counter                                                   *)
(* ===================================================================== *)

Section step_counter.
Context (cf : config) (n0 : Z) (pre : list event).
Implicit Types (w : world).

Lemma counting_frame w w' :
  w_events w' = w_events w → w_copy w' = w_copy w →
  counting n0 pre w → counting n0 pre w'.
Proof. intros He Hc (body & ? & ? & ?). exists body. by rewrite He, Hc. Qed.

Lemma step_data_snoc evs ev :
  step_data (evs ++ [ev]) =
    if decide (ev_name ev = "step") then step_data evs ++ [ev_data ev]
    else step_data evs.
Proof.
  unfold step_data. rewrite filter_app, fmap_app, filter_cons, filter_nil.
  destruct (decide (ev_name ev = "step")); simpl; [done|by rewrite app_nil_r].
Qed.

Lemma counters_S k :
  counters n0 (Datatypes.S k) = counters n0 k ++ [PNum (n0 + Z.of_nat k + 1)].
Proof.
  unfold counters. rewrite seq_S, fmap_app. simpl. do 3 f_equal. lia.
Qed.

Lemma emit_counting name data room :
  name ≠ "step" → preserves (counting n0 pre) (Task.emit name data room).
Proof.
  intros Hne. apply preserves_modify. intros w (body & Hev & Hd & Hc).
  exists (body ++ [Event name data room]). destruct w; simpl in *.
  rewrite Hev, <-app_assoc, step_data_snoc, count_steps_snoc. simpl.
  by rewrite !decide_False by done.
Qed.

(** Counting a step and emitting the counter, together. *)
Lemma incr_emit_counting {B} (k : M B) :
  preserves (counting n0 pre) k →
  preserves (counting n0 pre)
    (num_sent ← incr_num_sent; Task.emit "step" num_sent None;; k).
Proof.
  intros Hk w (body & Hev & Hd & Hc).
  unfold incr_num_sent. st_unfold. unfold getitem. rewrite Hc. cbn [fst snd].
  unfold Task.emit, modify. cbn [fst snd].
  match goal with |- context [k ?w2] =>
    assert (H2 : counting n0 pre w2); [|specialize (Hk w2 H2);
      destruct (k w2) as [[b|e] w3]; exact Hk] end.
  exists (body ++ [Event "step" (PNum (n0 + Z.of_nat (count_steps body) + 1)) None]).
  destruct w; simpl in *.
  rewrite Hev, <-app_assoc, step_data_snoc, count_steps_snoc. simpl.
  rewrite counters_S, Hd, dict_get_set_eq. split_and!; [done..|].
  do 2 f_equal. lia.
Qed.

Lemma suspend_counting : preserves (counting n0 pre) suspend.
Proof.
  intros [evs sess g t u kp env now copy]. unfold suspend. simpl.
  destruct kp; [by apply counting_frame|].
  destruct (ea_kill _); by apply counting_frame.
Qed.

Ltac quiet :=
  repeat first
    [ apply preserves_gets | apply preserves_ret | apply preserves_lift
    | apply preserves_raise
    | apply suspend_counting
    | apply emit_counting; done
    | apply preserves_modify; intros w; apply counting_frame; by destruct w
    | apply preserves_try
    | apply preserves_bind; [|intros ?]
    | case_bool_decide | case_match ].

Lemma inner_try_counting entry : preserves (counting n0 pre) (inner_try cf entry).
Proof.
  unfold inner_try, time_time, drop_uncertain_models, set_uncertain_models,
    get_uncertain_steps, model_step. quiet.
Qed.

Lemma pass_rest_counting :
  preserves (counting n0 pre)
    ((if negb (is_async cf)
      then lock ← session_getitem "lock"; gate_clear lock
      else mret tt);;
     lock ← session_getitem "lock";
     _ ← gate_wait lock 6000;
     unlocked ← session_getitem "lock";
     (if negb (truthy unlocked) then
        Task.emit "timeout" (PStr "Model run timed out after 6000 sec")
          (Some (sockid cf));;
        on_model_kill
      else mret tt);;
     sleep;;
     mret true).
Proof.
  unfold session_getitem, gate_clear, gate_wait, on_model_kill, sleep. quiet.
Qed.

Hypothesis Hheartbeat : send_output cf = false.

Lemma iteration_counting entry : preserves (counting n0 pre) (iteration cf entry).
Proof.
  unfold iteration.
  apply preserves_bind; [apply preserves_try, inner_try_counting|].
  intros [output|e].
  - rewrite Hheartbeat, andb_false_r.
    apply incr_emit_counting, pass_rest_counting.
  - unfold drop_uncertain_models. quiet.
Qed.

Lemma step_loop_counting script : preserves (counting n0 pre) (step_loop cf script).
Proof.
  induction script as [|entry rest IH]; cbn [step_loop].
  - apply preserves_bind; [apply iteration_counting|intros ?; apply preserves_ret].
  - apply preserves_bind; [apply iteration_counting|].
    intros [|]; [apply IH|apply preserves_ret].
Qed.

Lemma try_body_counting script : preserves (counting n0 pre) (try_body cf script).
Proof.
  unfold try_body, startup.
  apply preserves_bind; [|intros _; apply step_loop_counting].
  unfold session_getitem, gate_wait, on_model_kill. quiet.
Qed.

Lemma except_clauses_counting r : preserves (counting n0 pre) (except_clauses cf r).
Proof. unfold except_clauses. quiet. Qed.

End step_counter.

(** X18: the step counter.  In a run that was asked not to send the
    output, the [step] events carry the counter: starting from the
    session's [num_sent] at entry, the run's first [step] event carries one
    more, and each further one one more than the one before, whatever
    handlers write to the session meanwhile. *)
Theorem heartbeat_counts (cf : config) (script : list step_result) (w0 : world)
    (n0 : Z) :
  send_output cf = false →
  dict_get "num_sent" (w_session w0) = Some (PNum n0) →
  ∃ body,
    w_events (execute_async_model cf script w0).2 = w_events w0 ++ body
    ∧ step_data body = counters n0 (count_steps body).
Proof.
  intros Hso Hn.
  assert (H0 : counting n0 (w_events w0) (Task.set_copy (w_session w0) w0)).
  { exists []. destruct w0; simpl in *. rewrite app_nil_r, Z.add_0_r.
    by split_and!. }
  rewrite execute_async_model_unfold.
  pose proof (try_body_counting cf n0 (w_events w0) Hso script _ H0) as H1.
  destruct (try_body cf script _) as [r w1]. cbn [fst snd] in H1.
  pose proof (except_clauses_counting cf n0 (w_events w0) r _ H1) as H2.
  destruct (except_clauses cf r w1) as [r' w2]. cbn [fst snd] in H2.
  rewrite finally_clause_spec.
  assert (H3 : counting n0 (w_events w0)
                 (if finally_ok w2 then Task.set_session (w_copy w2) w2 else w2)).
  { destruct (finally_ok w2); [|done].
    apply (counting_frame _ _ w2); [by destruct w2..|done]. }
  assert (Hfin : ∀ w, counting n0 (w_events w0) w →
                 ∃ body, w_events w = w_events w0 ++ body
                         ∧ step_data body = counters n0 (count_steps body)).
  { intros w (body & ? & ? & ?). by exists body. }
  destruct (finally_ok w2); [|by apply Hfin].
  destruct r'; [|by apply Hfin].
  apply Hfin.
  by apply (emit_counting n0 (w_events w0) "complete" (PStr "Model run completed")
              None ltac:(done) _ H3).
Qed.

Lemma heartbeat_counts_witness :
  ∃ body,
    w_events (execute_async_model cf_heartbeat
                [StepOutput spill_record 1; StepOutput spill_record 1]
                (world0 true [])).2 = w_events (world0 true []) ++ body
    ∧ step_data body = counters 0 (count_steps body).
Proof.
  apply (heartbeat_counts cf_heartbeat
           [StepOutput spill_record 1; StepOutput spill_record 1]
           (world0 true []) 0); reflexivity.
Defined.

(* ===================================================================== *)
(** ** The application start-up                                           *)
(* ===================================================================== *)

Import App.

Section cors_origins.
Implicit Types (sep c : ascii) (s v : string).

Lemma split_nonempty sep s : split sep s ≠ [].
Proof.
  destruct s as [|c s]; simpl; [done|].
  destruct (decide (c = sep)); [done|]. by destruct (split sep s).
Qed.

Lemma join_split sep s : join sep (split sep s) = s.
Proof.
  induction s as [|c s IH]; [done|]. cbn [split].
  pose proof (split_nonempty sep s) as Hne.
  destruct (split sep s) as [|piece pieces]; [done|].
  destruct (decide (c = sep)) as [->|Hc];
    destruct pieces as [|p ps]; cbn [join] in *; by rewrite <-IH.
Qed.

Lemma split_pieces sep s :
  Forall (fun piece => has_char sep piece = false) (split sep s).
Proof.
  induction s as [|c s IH]; cbn [split]; [by repeat constructor|].
  destruct (decide (c = sep)) as [->|Hc]; [by constructor|].
  destruct (split sep s) as [|piece pieces].
  - constructor; [|done]. simpl. by rewrite decide_False.
  - apply Forall_cons in IH as [Hp Hps]. constructor; [|done].
    simpl. by rewrite decide_False.
Qed.

End cors_origins.

(** X19: the origins read from the settings.  Without the key the policy is
    left as it is.  With it, the policy's ['origins'] becomes the lines of
    the setting: at least one, none of them holding a newline, and joined by
    newlines they give the setting back (so an empty line of the setting is
    an empty origin); the other entries of the policy are left alone. *)
Theorem cors_origins_lines (settings : gmap string string) (key : string)
    (cors_policy : gmap string policy_value) :
  match settings !! key with
  | None => load_cors_origins settings key cors_policy = cors_policy
  | Some v =>
      ∃ origins,
        load_cors_origins settings key cors_policy !! "origins"
          = Some (Lines origins)
        ∧ origins ≠ []
        ∧ join newline origins = v
        ∧ Forall (fun o => has_char newline o = false) origins
        ∧ ∀ k, k ≠ "origins" →
               load_cors_origins settings key cors_policy !! k
                 = cors_policy !! k
  end.
Proof.
  unfold load_cors_origins. destruct (settings !! key) as [v|]; [|done].
  exists (split newline v). split_and!.
  - apply lookup_insert_eq.
  - apply split_nonempty.
  - apply join_split.
  - apply split_pieces.
  - intros k Hk. by rewrite lookup_insert_ne.
Qed.

Section directories.
Implicit Types (settings : gmap string string) (fs : filesystem) (d : string).

(** The check of the locations directory, by what it finds. *)
Lemma check_locations_unfold ld fs :
  (e ← App.path_exists ld;
   if negb e
   then lift (raise OSError ("Location files folder path " +:+ ld
                             +:+ " does not exist!!"))
   else
     dir ← isdir ld;
     if negb dir
     then lift (raise OSError ("Location files folder path " +:+ ld
                               +:+ " is not a directory!!"))
     else mret tt) fs =
  match nodes fs !! ld with
  | None =>
      (raise OSError ("Location files folder path " +:+ ld +:+
                      " does not exist!!"), fs)
  | Some RegularFile =>
      (raise OSError ("Location files folder path " +:+ ld +:+
                      " is not a directory!!"), fs)
  | Some Directory => (Ok tt, fs)
  end.
Proof.
  unfold App.path_exists, isdir. st_unfold. cbn [fst snd].
  destruct (nodes fs !! ld) as [[]|] eqn:E.
  - rewrite bool_decide_true by by eexists. cbn [negb]. by rewrite E.
  - rewrite bool_decide_true by by eexists. cbn [negb]. by rewrite E.
  - by rewrite bool_decide_false by by intros [? ?].
Qed.

(** The check of the save directory, by what it finds. *)
Lemma check_save_unfold sfd fs :
  for_each (fun d =>
              e ← App.path_exists d;
              if negb e then mkdir d
              else
                dir ← isdir d;
                if negb dir
                then lift (raise OSError ("Folder path " +:+ d +:+
                                          " is not a directory!!"))
                else mret tt)
           [sfd] fs =
  match nodes fs !! sfd with
  | None =>
      match refused fs !! sfd with
      | Some _ => (raise OSError "cannot create directory", fs)
      | None => (Ok tt, FileSystem (<[sfd := Directory]> (nodes fs)) (refused fs))
      end
  | Some RegularFile =>
      (raise OSError ("Folder path " +:+ sfd +:+ " is not a directory!!"), fs)
  | Some Directory => (Ok tt, fs)
  end.
Proof.
  cbn [for_each]. unfold App.path_exists, isdir, mkdir. st_unfold.
  cbn [fst snd id].
  destruct (nodes fs !! sfd) as [[]|] eqn:E.
  - rewrite bool_decide_true by by eexists. cbn [negb fst snd]. by rewrite E.
  - rewrite bool_decide_true by by eexists. cbn [negb fst snd]. by rewrite E.
  - rewrite bool_decide_false by by intros [? ?]. cbn [negb fst snd].
    rewrite E. rewrite bool_decide_false by by intros [? ?].
    by destruct (refused fs !! sfd).
Qed.

Lemma reconcile_unfold settings fs sfd ld :
  settings !! "save_file_dir" = Some sfd →
  settings !! "locations_dir" = Some ld →
  reconcile_directory_settings settings fs =
    let check_locations fs1 :=
      match nodes fs1 !! ld with
      | None =>
          (raise OSError ("Location files folder path " +:+ ld +:+
                          " does not exist!!"), fs1)
      | Some RegularFile =>
          (raise OSError ("Location files folder path " +:+ ld +:+
                          " is not a directory!!"), fs1)
      | Some Directory => (Ok tt, fs1)
      end in
    match nodes fs !! sfd with
    | None =>
        match refused fs !! sfd with
        | Some _ => (raise OSError "cannot create directory", fs)
        | None =>
            check_locations (FileSystem (<[sfd := Directory]> (nodes fs))
                               (refused fs))
        end
    | Some RegularFile =>
        (raise OSError ("Folder path " +:+ sfd +:+ " is not a directory!!"), fs)
    | Some Directory => check_locations fs
    end.
Proof.
  intros Hs Hl. unfold reconcile_directory_settings, setting. rewrite Hs, Hl.
  unfold mbind at 1, ST_bind. unfold mret at 1, ST_ret.
  unfold mbind at 1, ST_bind. rewrite check_save_unfold.
  cbn zeta.
  destruct (nodes fs !! sfd) as [[]|]; [done| |].
  - unfold mbind at 1, ST_bind. unfold mret at 1, ST_ret.
    apply check_locations_unfold.
  - destruct (refused fs !! sfd); [done|].
    unfold mbind at 1, ST_bind. unfold mret at 1, ST_ret.
    apply check_locations_unfold.
Qed.

Lemma reconcile_settings settings fs :
  (reconcile_directory_settings settings fs).1 = Ok tt →
  ∃ sfd ld, settings !! "save_file_dir" = Some sfd
            ∧ settings !! "locations_dir" = Some ld.
Proof.
  unfold reconcile_directory_settings, setting.
  destruct (settings !! "save_file_dir") as [sfd|]; [|done].
  destruct (settings !! "locations_dir") as [ld|] eqn:Hl; [by eauto|].
  unfold mbind at 1, ST_bind. unfold mret at 1, ST_ret.
  unfold mbind at 1, ST_bind.
  destruct (for_each _ _ _) as [[[]|e] fs1]; done.
Qed.

End directories.

(** X20: what a start-up that gets through has established.  When
    [reconcile_directory_settings] returns, both settings name directories
    that exist; the file system differs from the one it found at most by
    the save directory, which it made if it was not there; and a second
    call returns as well and changes nothing. *)
Theorem reconcile_establishes (settings : gmap string string) (fs : filesystem) :
  (reconcile_directory_settings settings fs).1 = Ok tt →
  let fs' := (reconcile_directory_settings settings fs).2 in
  ∃ sfd ld,
    settings !! "save_file_dir" = Some sfd
    ∧ settings !! "locations_dir" = Some ld
    ∧ nodes fs' !! sfd = Some Directory
    ∧ nodes fs' !! ld = Some Directory
    ∧ nodes fs' = <[sfd := Directory]> (nodes fs)
    ∧ refused fs' = refused fs
    ∧ reconcile_directory_settings settings fs' = (Ok tt, fs').
Proof.
  intros Hok fs'. subst fs'.
  destruct (reconcile_settings _ _ Hok) as (sfd & ld & Hs & Hl).
  exists sfd, ld. split; [done|]. split; [done|].
  rewrite (reconcile_unfold _ _ sfd ld Hs Hl) in Hok |- *. cbn zeta in *.
  destruct (nodes fs !! sfd) as [[]|] eqn:E; [done| |].
  - destruct (nodes fs !! ld) as [[]|] eqn:E'; try done. cbn [fst snd].
    rewrite (reconcile_unfold _ _ sfd ld Hs Hl). cbn zeta. rewrite E, E'.
    split_and!; try done. by rewrite insert_id.
  - destruct (refused fs !! sfd); [done|].
    cbn [nodes] in *.
    destruct (<[sfd:=Directory]> (nodes fs) !! ld) as [[]|] eqn:E'; try done.
    cbn [fst snd nodes refused].
    rewrite (reconcile_unfold _ _ sfd ld Hs Hl). cbn zeta. cbn [nodes refused].
    rewrite lookup_insert_eq, E'. by split_and!.
Qed.

Lemma reconcile_establishes_witness :
  let settings : gmap string string :=
    {[ "save_file_dir" := "/srv/save"; "locations_dir" := "/srv/locations" ]} in
  let fs := FileSystem {[ "/srv/locations" := Directory ]} ∅ in
  let fs' := (reconcile_directory_settings settings fs).2 in
  ∃ sfd ld,
    settings !! "save_file_dir" = Some sfd
    ∧ settings !! "locations_dir" = Some ld
    ∧ nodes fs' !! sfd = Some Directory
    ∧ nodes fs' !! ld = Some Directory
    ∧ nodes fs' = <[sfd := Directory]> (nodes fs)
    ∧ refused fs' = refused fs
    ∧ reconcile_directory_settings settings fs' = (Ok tt, fs').
Proof.
  intros settings fs.
  apply (reconcile_establishes settings fs). reflexivity.
Defined.

(** X21: a start-up that fails on the locations directory has already made
    the save directory.  With the save directory absent (and the system
    letting it be made) and the locations directory missing, the call
    raises [EnvironmentError] for the locations directory and leaves the
    new save directory behind. *)
Theorem reconcile_creates_before_failing (settings : gmap string string)
    (fs : filesystem) (sfd ld : string) :
  settings !! "save_file_dir" = Some sfd →
  settings !! "locations_dir" = Some ld →
  nodes fs !! sfd = None →
  refused fs !! sfd = None →
  nodes fs !! ld = None →
  ld ≠ sfd →
  reconcile_directory_settings settings fs =
    (raise OSError ("Location files folder path " +:+ ld +:+
                    " does not exist!!"),
     FileSystem (<[sfd := Directory]> (nodes fs)) (refused fs)).
Proof.
  intros Hs Hl Hn Hr Hld Hne.
  rewrite (reconcile_unfold _ _ sfd ld Hs Hl). cbn zeta. rewrite Hn, Hr.
  cbn [nodes]. by rewrite lookup_insert_ne, Hld.
Qed.

Lemma reconcile_creates_before_failing_witness :
  reconcile_directory_settings
    {[ "save_file_dir" := "/srv/save"; "locations_dir" := "/srv/locations" ]}
    (FileSystem ∅ ∅) =
    (raise OSError ("Location files folder path " +:+ "/srv/locations" +:+
                    " does not exist!!"),
     FileSystem (<["/srv/save" := Directory]> ∅) ∅).
Proof.
  apply (reconcile_creates_before_failing
           {[ "save_file_dir" := "/srv/save";
              "locations_dir" := "/srv/locations" ]}
           (FileSystem ∅ ∅) "/srv/save" "/srv/locations");
    reflexivity || discriminate.
Defined.

Section session_cleaner.
Implicit Types (fs : filesystem) (a b p r : string).









Lemma event_handler_unfold data sd fs :
  event_handler data sd fs =
    match nodes fs !! path_join sd data with
    | None => (Ok tt, fs)
    | Some RegularFile => (raise OSError "rmtree", fs)
    | Some Directory =>
        (Ok tt,
         FileSystem
           (filter (fun kv : string * node =>
                      kv.1 ≠ path_join sd data
                      ∧ below (path_join sd data) kv.1 = false) (nodes fs))
           (refused fs))
    end.
Proof.
  unfold event_handler, rmtree.
  by destruct (nodes fs !! path_join sd data) as [[]|].
Qed.

End session_cleaner.

(** X22: an expiry may be handled twice.  When the handler of the session
    cleaner returns (the folder was removed, or it was not there), nothing
    is left at the folder's path, and handling the same expiry again
    returns as well and changes nothing. *)
Theorem session_cleaner_idempotent (data session_dir : string)
    (fs : filesystem) :
  (event_handler data session_dir fs).1 = Ok tt →
  let fs' := (event_handler data session_dir fs).2 in
  nodes fs' !! path_join session_dir data = None
  ∧ event_handler data session_dir fs' = (Ok tt, fs').
Proof.
  rewrite !event_handler_unfold.
  destruct (nodes fs !! path_join session_dir data) as [[]|] eqn:E;
    [done| |]; intros _; cbn [fst snd].
  - assert (Hgone : nodes (FileSystem
        (filter (fun kv : string * node =>
                   kv.1 ≠ path_join session_dir data
                   ∧ below (path_join session_dir data) kv.1 = false)
           (nodes fs)) (refused fs)) !! path_join session_dir data = None).
    { cbn [nodes]. apply map_lookup_filter_None. right.
      intros x _ [Hne _]. by apply Hne. }
    split; [done|]. rewrite event_handler_unfold. by rewrite Hgone.
  - split; [done|]. rewrite event_handler_unfold. by rewrite E.
Qed.

Lemma session_cleaner_idempotent_witness :
  let fs := FileSystem {[ "/srv/session/abc" := Directory;
                          "/srv/session/abc/model.zip" := RegularFile ]} ∅ in
  let fs' := (event_handler "abc" "/srv/session" fs).2 in
  nodes fs' !! path_join "/srv/session" "abc" = None
  ∧ event_handler "abc" "/srv/session" fs' = (Ok tt, fs').
Proof.
  intros fs. apply (session_cleaner_idempotent "abc" "/srv/session" fs).
  reflexivity.
Defined.


